(** * DAMA preference-pair alignment and adaptive DPO loss

    A shallow embedding of [DAMO/llava/train/train_dpo.py]:
    - the sequence aligner ([get_match_info], [complete_modification_spans],
      [generate_modification_mapping], [get_diff_ids]) on top of Python's
      [difflib.SequenceMatcher];
    - the per-token weight masks of [DataCollatorForDPODataset.__call__];
    - the weighted subsampler and the adaptive temperature of [dpo_loss],
      and the masked mean of [LLaVA15DPOTrainer.compute_loss];
    - the running statistics of
      [LLaVA15DPOTrainer.update_and_sync_tensor_mean].

    Token ids are [Z]; positions, lengths and spans are [nat] (they are
    never negative in the source); the dictionaries of [difflib] are
    [gmap]s; a raised exception, a failed [assert] or [exit()] is [None].
    Tensor elements are a parameter: the loss is embedded once over an
    interface of the element operations and read over the reals, and over
    the reals with a NaN where a statement is about NaN.  The one
    computation kept in binary64 is [int(numel * (1 - 0.2))]. *)

From Stdlib Require Import PrimFloat FloatOps SpecFloat Uint63.
From Stdlib Require Import ZArith List Lia Arith Bool Permutation Sorted.
From Stdlib Require Import Reals Lra.
From Stdlib Require Import Ascii.
From stdpp Require Import gmap list sorting strings.


(** ** Python's [difflib.SequenceMatcher(None, a, b)]

    [get_match_info] calls the standard library's matcher with
    [isjunk = None] and the default [autojunk = True].  The definitions
    below follow CPython's [Lib/difflib.py] statement by statement. *)

Module Difflib.

(** [Match = namedtuple('Match', 'a b size')] *)
Record Match := mkMatch { ma : nat; mb : nat; msize : nat }.

#[global] Instance Match_eq_dec : EqDecision Match.
Proof. solve_decision. Defined.

(** [SequenceMatcher.__chain_b], first loop:
    [indices = b2j.setdefault(elt, []); indices.append(i)]. *)
Definition setdefault_append (b2j : gmap Z (list nat)) (elt : Z) (i : nat)
  : gmap Z (list nat) :=
  <[elt := default [] (b2j !! elt) ++ [i]]> b2j.

Definition enumerate {A} (l : list A) : list (nat * A) :=
  zip (seq 0 (length l)) l.

Definition index_b (b : list Z) : gmap Z (list nat) :=
  foldl (fun m p => setdefault_append m (snd p) (fst p)) ∅ (enumerate b).

(** [__chain_b], "purge popular elements": only when [autojunk] and
    [n >= 200]; [ntest = n // 100 + 1]. *)
Definition popular (b2j : gmap Z (list nat)) (n : nat) : list Z :=
  if decide (200 ≤ n) then
    let ntest := n / 100 + 1 in
    (filter (fun p => ntest < length (snd p)) (map_to_list b2j)).*1
  else [].

(** [for elt in popular: del b2j[elt]].  With [isjunk = None] the junk set
    stays empty. *)
Definition chain_b (b : list Z) : gmap Z (list nat) :=
  foldr delete (index_b b) (popular (index_b b) (length b)).

Definition isbjunk (x : Z) : bool := false.

(** [j2lenget(j-1, 0)]: the key [-1] is never present. *)
Definition j2lenget (j2len : gmap nat nat) (j : nat) : nat :=
  match j with
  | 0 => 0
  | S j' => default 0 (j2len !! j')
  end.

(** Inner loop of [find_longest_match]:
      for j in b2j.get(a[i], nothing):
          if j < blo: continue
          if j >= bhi: break
          k = newj2len[j] = j2lenget(j-1, 0) + 1
          if k > bestsize:
              besti, bestj, bestsize = i-k+1, j-k+1, k *)
Fixpoint scan_row (i blo bhi : nat) (j2len : gmap nat nat) (js : list nat)
    (newj2len : gmap nat nat) (best : Match) : gmap nat nat * Match :=
  match js with
  | [] => (newj2len, best)
  | j :: js' =>
      if decide (j < blo) then scan_row i blo bhi j2len js' newj2len best
      else if decide (bhi ≤ j) then (newj2len, best)
      else
        let k := j2lenget j2len j + 1 in
        scan_row i blo bhi j2len js' (<[j := k]> newj2len)
          (if decide (msize best < k)
           then mkMatch (i + 1 - k) (j + 1 - k) k else best)
  end.

(** [b2j.get(a[i], nothing)] *)
Definition row_indices (a : list Z) (b2j : gmap Z (list nat)) (i : nat)
  : list nat :=
  default [] (a !! i ≫= fun x => b2j !! x).

(** Outer loop: [for i in range(alo, ahi): ...; j2len = newj2len]. *)
Fixpoint scan_rows (a : list Z) (b2j : gmap Z (list nat)) (blo bhi : nat)
    (rows : list nat) (j2len : gmap nat nat) (best : Match) : Match :=
  match rows with
  | [] => best
  | i :: rows' =>
      let '(newj2len, best') :=
        scan_row i blo bhi j2len (row_indices a b2j i) ∅ best in
      scan_rows a b2j blo bhi rows' newj2len best'
  end.

(** [a[i] == b[j]] for positions inside both sequences. *)
Definition same_at (a b : list Z) (i j : nat) : bool :=
  match a !! i, b !! j with
  | Some x, Some y => bool_decide (x = y)
  | _, _ => false
  end.

Definition junk_ok (want_junk : bool) (b : list Z) (j : nat) : bool :=
  match b !! j with
  | Some y => bool_decide (isbjunk y = want_junk)
  | None => false
  end.

(** [while besti > alo and bestj > blo and (not) isbjunk(b[bestj-1]) and
          a[besti-1] == b[bestj-1]:
        besti, bestj, bestsize = besti-1, bestj-1, bestsize+1] *)
Fixpoint extend_left (want_junk : bool) (a b : list Z) (alo blo : nat)
    (besti bestj bestsize : nat) : Match :=
  match besti, bestj with
  | S i', S j' =>
      if bool_decide (alo < besti) && bool_decide (blo < bestj)
         && junk_ok want_junk b j' && same_at a b i' j'
      then extend_left want_junk a b alo blo i' j' (S bestsize)
      else mkMatch besti bestj bestsize
  | _, _ => mkMatch besti bestj bestsize
  end.

(** [while besti+bestsize < ahi and bestj+bestsize < bhi and
          (not) isbjunk(b[bestj+bestsize]) and
          a[besti+bestsize] == b[bestj+bestsize]:
        bestsize += 1]
    The loop runs at most [ahi - (besti + bestsize)] times. *)
Fixpoint extend_right_loop (fuel : nat) (want_junk : bool) (a b : list Z)
    (ahi bhi : nat) (besti bestj bestsize : nat) : nat :=
  match fuel with
  | 0 => bestsize
  | S fuel' =>
      if bool_decide (besti + bestsize < ahi) && bool_decide (bestj + bestsize < bhi)
         && junk_ok want_junk b (bestj + bestsize)
         && same_at a b (besti + bestsize) (bestj + bestsize)
      then extend_right_loop fuel' want_junk a b ahi bhi besti bestj (S bestsize)
      else bestsize
  end.

Definition extend_right (want_junk : bool) (a b : list Z) (ahi bhi : nat)
    (m : Match) : Match :=
  mkMatch (ma m) (mb m)
    (extend_right_loop (ahi - (ma m + msize m)) want_junk a b ahi bhi
       (ma m) (mb m) (msize m)).

Definition extend (want_junk : bool) (a b : list Z) (alo ahi blo bhi : nat)
    (m : Match) : Match :=
  extend_right want_junk a b ahi bhi
    (extend_left want_junk a b alo blo (ma m) (mb m) (msize m)).

(** [SequenceMatcher.find_longest_match(alo, ahi, blo, bhi)] *)
Definition find_longest_match (a b : list Z) (b2j : gmap Z (list nat))
    (alo ahi blo bhi : nat) : Match :=
  let best := scan_rows a b2j blo bhi (seq alo (ahi - alo)) ∅
                (mkMatch alo blo 0) in
  extend true a b alo ahi blo bhi (extend false a b alo ahi blo bhi best).

(** A pending region [(alo, ahi, blo, bhi)] of the work queue. *)
Record Region := mkRegion { alo : nat; ahi : nat; blo : nat; bhi : nat }.

(** The work loop of [get_matching_blocks].  [queue.pop()] takes the last
    element of the Python list, so the head of [queue] is the end of the
    Python list and [queue.append] is a cons.
      while queue:
          alo, ahi, blo, bhi = queue.pop()
          i, j, k = x = self.find_longest_match(alo, ahi, blo, bhi)
          if k:
              matching_blocks.append(x)
              if alo < i and blo < j: queue.append((alo, i, blo, j))
              if i+k < ahi and j+k < bhi: queue.append((i+k, ahi, j+k, bhi)) *)
Definition push_if (c : bool) (r : Region) (queue : list Region) :=
  if c then r :: queue else queue.

Definition step_queue (r : Region) (x : Match) (queue : list Region)
  : list Region :=
  push_if (bool_decide (ma x + msize x < ahi r) && bool_decide (mb x + msize x < bhi r))
          (mkRegion (ma x + msize x) (ahi r) (mb x + msize x) (bhi r))
    (push_if (bool_decide (alo r < ma x) && bool_decide (blo r < mb x))
             (mkRegion (alo r) (ma x) (blo r) (mb x)) queue).

Fixpoint matching_loop (fuel : nat) (a b : list Z) (b2j : gmap Z (list nat))
    (queue : list Region) (matching_blocks : list Match) : list Match :=
  match fuel with
  | 0 => matching_blocks
  | S fuel' =>
      match queue with
      | [] => matching_blocks
      | r :: queue' =>
          let x := find_longest_match a b b2j (alo r) (ahi r) (blo r) (bhi r) in
          if decide (msize x = 0)
          then matching_loop fuel' a b b2j queue' matching_blocks
          else matching_loop fuel' a b b2j (step_queue r x queue')
                 (matching_blocks ++ [x])
      end
  end.

(** Number of iterations the loop can still make on a queue. *)
Definition region_weight (r : Region) : nat := 2 * (ahi r - alo r) + 1.
Definition queue_weight (queue : list Region) : nat :=
  foldr (fun r n => region_weight r + n) 0 queue.

(** [matching_blocks.sort()]: tuples compare lexicographically. *)
Definition match_leb (x y : Match) : bool :=
  if decide (ma x < ma y) then true
  else if decide (ma y < ma x) then false
  else if decide (mb x < mb y) then true
  else if decide (mb y < mb x) then false
  else bool_decide (msize x ≤ msize y).

Fixpoint insert_block (x : Match) (l : list Match) : list Match :=
  match l with
  | [] => [x]
  | y :: l' => if match_leb x y then x :: l else y :: insert_block x l'
  end.

Definition sort_blocks (l : list Match) : list Match := foldr insert_block [] l.

(** Collapsing adjacent equal blocks:
      i1 = j1 = k1 = 0
      for i2, j2, k2 in matching_blocks:
          if i1 + k1 == i2 and j1 + k1 == j2: k1 += k2
          else:
              if k1: non_adjacent.append((i1, j1, k1))
              i1, j1, k1 = i2, j2, k2
      if k1: non_adjacent.append((i1, j1, k1)) *)
Definition emit (cur : Match) : list Match :=
  if decide (msize cur = 0) then [] else [cur].

Fixpoint collapse (cur : Match) (blocks : list Match) : list Match :=
  match blocks with
  | [] => emit cur
  | m2 :: rest =>
      if bool_decide (ma cur + msize cur = ma m2) && bool_decide (mb cur + msize cur = mb m2)
      then collapse (mkMatch (ma cur) (mb cur) (msize cur + msize m2)) rest
      else emit cur ++ collapse m2 rest
  end.

(** [SequenceMatcher.get_matching_blocks()] *)
Definition get_matching_blocks (a b : list Z) : list Match :=
  let la := length a in
  let lb := length b in
  let queue := [mkRegion 0 la 0 lb] in
  let matching_blocks :=
    matching_loop (queue_weight queue) a b (chain_b b) queue [] in
  collapse (mkMatch 0 0 0) (sort_blocks matching_blocks) ++ [mkMatch la lb 0].

End Difflib.


Import Difflib.

Arguments find_longest_match : simpl never.

(** ** The sequence aligner of [train_dpo.py] *)

(** A span is the pair [(start, end)] of a half-open index range. *)
Definition Span : Type := nat * nat.

(** [get_match_info(a_seq, b_seq, min_match_size)]:
      mb = sm.get_matching_blocks()
      mb = [m for m in mb[:-1] if m[2] >= min_match_size] + [mb[-1]]
      a_matches = [(x[0], x[0] + x[2]) for x in mb]
      b_matches = [(x[1], x[1] + x[2]) for x in mb] *)
Definition retained_blocks (a_seq b_seq : list Z) (min_match_size : nat)
  : list Match :=
  let mb := get_matching_blocks a_seq b_seq in
  filter (fun m => min_match_size ≤ msize m) (removelast mb)
    ++ [List.last mb (mkMatch 0 0 0)].

Definition a_match (x : Match) : Span := (ma x, ma x + msize x).
Definition b_match (x : Match) : Span := (mb x, mb x + msize x).

Definition get_match_info (a_seq b_seq : list Z) (min_match_size : nat)
  : list Span * list Span :=
  let mb := retained_blocks a_seq b_seq min_match_size in
  (map a_match mb, map b_match mb).

(** The loop of [complete_modification_spans], on the matches from [idx]
    on, with the current [(i, j)]:
      out.append((i, j)); out.append(matches[idx])
      if idx + 1 < len(matches): i, j = matches[idx][1], matches[idx + 1][0]
      else: i, j = matches[idx][1], length *)
Fixpoint complete_loop (ij : Span) (matches : list Span) (length : nat)
  : list Span :=
  match matches with
  | [] => []
  | m :: rest =>
      ij :: m ::
        complete_loop (m.2, match rest with m' :: _ => m'.1 | [] => length end)
          rest length
  end.

(** [complete_modification_spans(matches, length)]; [matches[0][0]] raises
    [IndexError] on an empty list. *)
Definition complete_modification_spans (matches : list Span) (length : nat)
  : option (list Span) :=
  match matches with
  | [] => None
  | m0 :: _ => Some (complete_loop (0, m0.1) matches length)
  end.

(** [span_not_empty(span)] *)
Definition span_not_empty (span : Span) : bool :=
  negb (bool_decide (span.1 = span.2)).

(** A Python [dict] keeps insertion order; assigning to a present key keeps
    its place. *)
Fixpoint dict_set (d : list (Span * Span)) (k v : Span) : list (Span * Span) :=
  match d with
  | [] => [(k, v)]
  | (k', v') :: d' =>
      if decide (k' = k) then (k', v) :: d' else (k', v') :: dict_set d' k v
  end.

(** The loop of [generate_modification_mapping_impl] over
    [enumerate(zip(a_spans, b_spans))]: odd [idx] are skipped, and
      if span_not_empty(a_span) and span_not_empty(b_span):
          mod_map[a_span] = b_span *)
Fixpoint mapping_loop (idx : nat) (spans : list (Span * Span))
    (mod_map : list (Span * Span)) : list (Span * Span) :=
  match spans with
  | [] => mod_map
  | (a_span, b_span) :: rest =>
      if bool_decide (idx mod 2 = 1) then mapping_loop (S idx) rest mod_map
      else if span_not_empty a_span && span_not_empty b_span
      then mapping_loop (S idx) rest (dict_set mod_map a_span b_span)
      else mapping_loop (S idx) rest mod_map
  end.

(** [generate_modification_mapping_impl]; the [assert] on the lengths
    raises when they differ. *)
Definition generate_modification_mapping_impl (a_spans b_spans : list Span)
  : option (list (Span * Span)) :=
  if decide (length a_spans = length b_spans)
  then Some (mapping_loop 0 (zip a_spans b_spans) [])
  else None.

(** [generate_modification_mapping(a_seq, b_seq, min_match_size)] *)
Definition generate_modification_mapping (a_seq b_seq : list Z)
    (min_match_size : nat) : option (list (Span * Span)) :=
  let '(a_matches, b_matches) := get_match_info a_seq b_seq min_match_size in
  a_spans ← complete_modification_spans a_matches (length a_seq);
  b_spans ← complete_modification_spans b_matches (length b_seq);
  generate_modification_mapping_impl a_spans b_spans.

(** [spans2ids(spans)]: [ids += list(range(span[0], span[1]))] *)
Definition range (lo hi : nat) : list nat := seq lo (hi - lo).

Definition spans2ids (spans : list Span) : list nat :=
  concat (map (fun span => range span.1 span.2) spans).

(** [sorted(set(ids))]: the distinct elements in increasing order. *)
Fixpoint insert_id (x : nat) (l : list nat) : list nat :=
  match l with
  | [] => [x]
  | y :: l' =>
      if decide (x < y) then x :: l
      else if decide (x = y) then l
      else y :: insert_id x l'
  end.

Definition sorted_set (ids : list nat) : list nat := foldr insert_id [] ids.

(** [get_diff_ids(a_seq, b_seq, min_match_size)] *)
Definition get_diff_ids (a_seq b_seq : list Z) (min_match_size : nat)
  : option (list nat * list nat) :=
  mod_map ← generate_modification_mapping a_seq b_seq min_match_size;
  let a_modification_spans := mod_map.*1 in
  let b_modification_spans := mod_map.*2 in
  Some (sorted_set (spans2ids a_modification_spans),
        sorted_set (spans2ids b_modification_spans)).

(** The span lists the aligner works on: both sides completed. *)
Definition align (a_seq b_seq : list Z) (min_match_size : nat)
  : option (list Span * list Span) :=
  let '(a_matches, b_matches) := get_match_info a_seq b_seq min_match_size in
  a_spans ← complete_modification_spans a_matches (length a_seq);
  b_spans ← complete_modification_spans b_matches (length b_seq);
  Some (a_spans, b_spans).

(** ** The per-token weights of [DataCollatorForDPODataset]

    Tensors are lists of rows.  The element type [F] of the weight tensors
    is a parameter, with its [1.0], its [0] and [torch.isnan]. *)

(** [torch.nn.utils.rnn.pad_sequence(rows, batch_first=True,
    padding_value=v)]: every row is right-padded to the longest one. *)
Definition max_len {A} (rows : list (list A)) : nat :=
  foldr (fun row m => max (length row) m) 0 rows.

Definition pad_sequence {A} (rows : list (list A)) (padding_value : A)
  : list (list A) :=
  map (fun row => row ++ replicate (max_len rows - length row) padding_value)
      rows.

(** [concate_pad(tensorA, tensorB, padding_value)] *)
Definition concate_pad {A} (tensorA tensorB : list (list A)) (padding_value : A)
  : list (list A) :=
  pad_sequence (tensorA ++ tensorB) padding_value.

(** [tensor.size(1)] of a padded batch. *)
Definition size1 {A} (t : list (list A)) : nat :=
  match t with
  | [] => 0
  | row :: _ => length row
  end.

(** [row[:stop]] for a Python integer [stop] (a negative one counts from
    the end). *)
Definition slice_to {A} (row : list A) (stop : Z) : list A :=
  if decide (stop < 0)%Z
  then take (Z.to_nat (Z.of_nat (length row) + stop)) row
  else take (Z.to_nat stop) row.

(** One side of a preference pair as the collator reads it. *)
Record InstanceDict (F : Type) := mkInstance {
  input_ids : list Z;
  labels : list Z;
  ref_per_token_logp : list F
}.
Arguments mkInstance {F}.
Arguments input_ids {F}.
Arguments labels {F}.
Arguments ref_per_token_logp {F}.

Section collator.
Context {F : Type} (one zero : F) (is_nan : F → bool).

(** [row[ids] = v] for a list of positions; a position outside the row
    raises [IndexError]. *)
Fixpoint index_assign (row : list F) (ids : list nat) (v : F)
  : option (list F) :=
  match ids with
  | [] => Some row
  | i :: ids' =>
      if decide (i < length row) then index_assign (<[i := v]> row) ids' v
      else None
  end.

(** The loop of [__call__] over
    [zip(win_input_ids, rej_input_ids, ...)]:
      valid_w = w[1:]; valid_r = r[1:]
      r_mod, w_mod = get_diff_ids(valid_r.tolist(), valid_w.tolist(),
                                  min_match_size=3)
      win_token_weight[idx][w_mod] = self.mod_token_weight
      rej_token_weight[idx][r_mod] = self.mod_token_weight *)
Fixpoint weight_loop (mod_token_weight : F)
    (rows : list ((list Z * list Z) * (list F * list F)))
  : option (list (list F * list F)) :=
  match rows with
  | [] => Some []
  | ((w, r), (win_weight, rej_weight)) :: rest =>
      let valid_w := drop 1 w in
      let valid_r := drop 1 r in
      let min_match_size := 3 in
      '(r_mod, w_mod) ← get_diff_ids valid_r valid_w min_match_size;
      win_weight' ← index_assign win_weight w_mod mod_token_weight;
      rej_weight' ← index_assign rej_weight r_mod mod_token_weight;
      rest' ← weight_loop mod_token_weight rest;
      Some ((win_weight', rej_weight') :: rest')
  end.

(** The weight tensors of a batch. *)
Record TokenWeights := mkTokenWeights {
  win_token_weight : list (list F);
  rej_token_weight : list (list F);
  concatenated_token_weight : list (list F)
}.

(** [torch.any(torch.isnan(t))] *)
Definition any_nan (t : list (list F)) : bool :=
  existsb (existsb is_nan) t.

(** The part of [DataCollatorForDPODataset.__call__] that builds the
    weights.  [instances] are the [(rej, win)] pairs; [None] stands for a
    raised exception, a failed [assert] or [exit()]. *)
Definition collate_token_weights (pad_token_id : Z) (mod_token_weight : F)
    (instances : list (InstanceDict F * InstanceDict F)) : option TokenWeights :=
  (* rej_instances, win_instances: unzipping an empty batch raises *)
  if decide (instances = []) then None else
  let rej_instances := instances.*1 in
  let win_instances := instances.*2 in
  (* SFT_collator_fn *)
  let win_input_ids := pad_sequence (map input_ids win_instances) pad_token_id in
  let rej_input_ids := pad_sequence (map input_ids rej_instances) pad_token_id in
  let ref_win := pad_sequence (map ref_per_token_logp win_instances) zero in
  let ref_rej := pad_sequence (map ref_per_token_logp rej_instances) zero in
  (* assert ref_*_per_token_logp.size(1) >= *_input_ids.size(1) - 1 *)
  if negb (bool_decide (Z.of_nat (size1 win_input_ids) - 1 ≤ Z.of_nat (size1 ref_win))%Z)
  then None else
  if negb (bool_decide (Z.of_nat (size1 rej_input_ids) - 1 ≤ Z.of_nat (size1 ref_rej))%Z)
  then None else
  (* [:, :input_ids.size(1) - 1] *)
  let ref_win := map (fun row => slice_to row (Z.of_nat (size1 win_input_ids) - 1)) ref_win in
  let ref_rej := map (fun row => slice_to row (Z.of_nat (size1 rej_input_ids) - 1)) ref_rej in
  (* torch.ones_like *)
  let win_ones := map (map (fun _ => one)) ref_win in
  let rej_ones := map (map (fun _ => one)) ref_rej in
  weights ← weight_loop mod_token_weight
              (zip (zip win_input_ids rej_input_ids) (zip win_ones rej_ones));
  let win_w := weights.*1 in
  let rej_w := weights.*2 in
  let concatenated := concate_pad win_w rej_w zero in
  (* assert len(ins['input_ids']) == len(ins['labels']) *)
  if negb (forallb (fun ins => bool_decide (length (input_ids ins) = length (labels ins)))
             (win_instances ++ rej_instances))
  then None else
  (* if torch.any(torch.isnan(...)): exit() *)
  if any_nan win_w then None else
  if any_nan rej_w then None else
  Some (mkTokenWeights win_w rej_w concatenated).
End collator.

Arguments win_token_weight {F}.
Arguments rej_token_weight {F}.
Arguments concatenated_token_weight {F}.

(** ** Tensor elements

    The loss works on [float32] tensors.  Its code is embedded once, over
    an interface of the element operations it uses; rounding is not
    modelled.  Two instances follow: the reals, and the reals with a NaN. *)

Class Scalar (F : Type) := {
  of_real : R → F;
  fadd : F → F → F;
  fsub : F → F → F;
  fmul : F → F → F;
  fdiv : F → F → F;
  fneg : F → F;
  fexp : F → F;
  fsqrt : F → F;
  fsigmoid : F → F;       (* F.sigmoid *)
  flogsigmoid : F → F;    (* F.logsigmoid *)
  feqb : F → F → bool;    (* == *)
  fleb : F → F → bool;    (* <= *)
  fltb : F → F → bool;    (* < *)
  fis_nan : F → bool;     (* torch.isnan *)
  fis_inf : F → bool      (* == torch.inf *)
}.

#[global] Instance R_eq_dec : EqDecision R := Req_EM_T.
#[global] Instance Rle_decision (x y : R) : Decision (x <= y)%R := Rle_dec x y.
#[global] Instance Rlt_decision (x y : R) : Decision (x < y)%R := Rlt_dec x y.

Definition sigmoid (x : R) : R := (1 / (1 + exp (- x)))%R.
Definition logsigmoid (x : R) : R := ln (sigmoid x).

(** The reals: no NaN, no infinity, no rounding. *)
#[global] Instance R_scalar : Scalar R := {
  of_real x := x;
  fadd := Rplus; fsub := Rminus; fmul := Rmult; fdiv := Rdiv;
  fneg := Ropp; fexp := exp; fsqrt := sqrt;
  fsigmoid := sigmoid; flogsigmoid := logsigmoid;
  feqb x y := bool_decide (x = y);
  fleb x y := if Rle_dec x y then true else false;
  fltb x y := if Rlt_dec x y then true else false;
  fis_nan _ := false;
  fis_inf _ := false
}.

(** The reals with a NaN ([None]): every operation propagates it, a
    division by zero produces it, and every comparison with it is false. *)
Definition lift1 (f : R → R) (x : option R) : option R := f <$> x.
Definition lift2 (f : R → R → R) (x y : option R) : option R :=
  match x, y with
  | Some a, Some b => Some (f a b)
  | _, _ => None
  end.
Definition test2 (f : R → R → bool) (x y : option R) : bool :=
  match x, y with
  | Some a, Some b => f a b
  | _, _ => false
  end.

#[global] Instance NaN_scalar : Scalar (option R) := {
  of_real x := Some x;
  fadd := lift2 Rplus; fsub := lift2 Rminus; fmul := lift2 Rmult;
  fdiv x y :=
    match x, y with
    | Some a, Some b => if decide (b = 0%R) then None else Some (a / b)%R
    | _, _ => None
    end;
  fneg := lift1 Ropp; fexp := lift1 exp; fsqrt := lift1 sqrt;
  fsigmoid := lift1 sigmoid; flogsigmoid := lift1 logsigmoid;
  feqb := test2 (fun a b => bool_decide (a = b));
  fleb := test2 (fun a b => if Rle_dec a b then true else false);
  fltb := test2 (fun a b => if Rlt_dec a b then true else false);
  fis_nan x := bool_decide (x = None);
  fis_inf _ := false
}.

(** ** [int(numel * (1 - 0.2))] in binary64

    The only place where the source's arithmetic is kept in floating point:
    the product is a Python [float] and [int] truncates it.  The literal
    [0x1.999999999999ap-3] is the binary64 number that [0.2] denotes, and
    the conversion of [numel] is exact below [2^53]. *)
Definition float_trunc (f : float) : Z :=
  match Prim2SF f with
  | S754_finite s m e =>
      (* the value is m * 2^e; a negative e shifts right *)
      let v := Z.shiftl (Z.pos m) e in
      if s then (- v)%Z else v
  | _ => 0%Z
  end.

Definition sample_num_Z (numel : Z) : Z :=
  float_trunc
    (PrimFloat.mul (PrimFloat.of_uint63 (Uint63.of_Z numel))
                   (PrimFloat.sub 1%float 0x1.999999999999ap-3%float)).

Definition sample_num_of (numel : nat) : nat :=
  Z.to_nat (sample_num_Z (Z.of_nat numel)).

(** [ceil(0.8 * n)] *)
Definition ceil_08 (n : nat) : nat := (4 * n + 4) / 5.

Section loss.
Context {F : Type} `{Scalar F}.

(** [t.sum()], [t.mean()] and [t.std()] (unbiased, as [torch.std]). *)
Definition tsum (t : list F) : F := foldr fadd (of_real 0) t.

Definition tmean (t : list F) : F :=
  fdiv (tsum t) (of_real (INR (length t))).

Definition tstd (t : list F) : F :=
  let m := tmean t in
  fsqrt (fdiv (tsum (map (fun x => fmul (fsub x m) (fsub x m)) t))
              (of_real (INR (length t) - 1))).

(** [t.clamp(min=c)]: a NaN stays a NaN. *)
Definition clamp_min (c x : F) : F :=
  if fis_nan x then x else if fltb x c then c else x.

(** One example of the local batch: the entries, at one index, of the six
    tensors of shape [(batch_size,)] that [dpo_loss] receives. *)
Record BatchRow := mkBatchRow {
  policy_chosen_logp : F;
  policy_rejected_logp : F;
  reference_chosen_logp : F;
  reference_rejected_logp : F;
  vlm_chosen_logit : F;
  vlm_rejected_logit : F
}.

(** [all_gather_if_needed(values, rank, world_size)]; [peers r] is what
    rank [r] contributes to the collective. *)
Definition all_gather_if_needed (values : list F) (rank world_size : nat)
    (peers : nat → list F) : list F :=
  if decide (world_size = 1) then values
  else concat (map (fun r => if decide (r = rank) then values else peers r)
                   (seq 0 world_size)).

(** [(weight_sample.sum() == 0.) or (torch.inf in weight_sample)] *)
Definition degenerate (weight_sample : list F) : bool :=
  feqb (tsum weight_sample) (of_real 0) || existsb fis_inf weight_sample.

(** The checks of [torch.multinomial(input, num_samples,
    replacement=False)], each raising [RuntimeError] when it fails:
    [n_sample > 0]; [n_sample <= n_categories]; the weights are
    non-negative and finite ([input.max() < inf] and [input.min() >= 0],
    which a NaN fails); and their sum is not zero. *)
Definition multinomial_ok (input : list F) (num_samples : nat) : bool :=
  bool_decide (0 < num_samples) && bool_decide (num_samples ≤ length input)
  && forallb (fun w => fleb (of_real 0) w && negb (fis_inf w)) input
  && negb (feqb (tsum input) (of_real 0)).

(** The draws the two samplers can return: [random.choices] picks
    [sample_num] positions independently, with replacement;
    [torch.multinomial] with [replacement=False] picks distinct ones. *)
Definition possible_draw (weight_sample : list F) (sample_index : list nat)
  : Prop :=
  length sample_index = sample_num_of (length weight_sample) ∧
  Forall (fun i => i < length weight_sample) sample_index ∧
  (degenerate weight_sample = false → NoDup sample_index).

(** The subsampler of [dpo_loss]:
      sample_num = int(weight_sample.numel() * (1 - 0.2))
      if (weight_sample.sum() == 0.) or (torch.inf in weight_sample):
          sample_index = random.choices(range(len(weight_sample)), k=sample_num)
      else:
          sample_index = torch.multinomial(weight_sample, sample_num,
                                           replacement=False)
      one_hot_like = torch.zeros_like(weight_sample)
      one_hot_like[sample_index] = 1
    [sample_index] is the draw the sampler returns. *)
Definition subsample (weight_sample : list F) (sample_index : list nat)
  : option (list F) :=
  let sample_num := sample_num_of (length weight_sample) in
  if degenerate weight_sample
     || multinomial_ok weight_sample sample_num
  then index_assign (map (fun _ => of_real 0) weight_sample) sample_index
         (of_real 1)
  else None.

(** [t[sample_index]] *)
Definition gather (t : list F) (sample_index : list nat) : option (list F) :=
  mapM (fun i => t !! i) sample_index.

(** [(t <= c).sum()] *)
Definition count_le (c : F) (t : list F) : nat :=
  length (filter (fun x => fleb x c = true) t).

Record DpoOut := mkDpoOut {
  losses : list F;
  chosen_rewards : list F;
  rejected_rewards : list F;
  beta_used : list F;
  global_mask : list F;
  beta_clamped : nat;
  A_sigmoid_average : F;
  this_ratio : list F;
  this_logits : list F
}.

(** Per example:
      pi_logratios = policy_chosen_logps - policy_rejected_logps
      ref_logratios = reference_chosen_logps - reference_rejected_logps
      if reference_free: ref_logratios = 0
      logits = pi_logratios - ref_logratios *)
Definition logits_of (reference_free : bool) (e : BatchRow) : F :=
  let pi_logratios := fsub (policy_chosen_logp e) (policy_rejected_logp e) in
  let ref_logratios :=
    if reference_free then of_real 0
    else fsub (reference_chosen_logp e) (reference_rejected_logp e) in
  fsub pi_logratios ref_logratios.

(** Per example:
      logits_diff = F.sigmoid(vlm_chosen_logits - vlm_rejected_logits)
      logits_mean = F.sigmoid(torch.tensor(0.0482190464911681))
      this_logits = logits_diff / logits_mean *)
Definition this_logits_of (e : BatchRow) : F :=
  let logits_diff := fsigmoid (fsub (vlm_chosen_logit e) (vlm_rejected_logit e)) in
  let logits_mean := fsigmoid (of_real (482190464911681 / 10000000000000000)) in
  fdiv logits_diff logits_mean.

(** Per example:
      A_gap = policy_chosen_logps - policy_rejected_logps
              - reference_chosen_logps + reference_rejected_logps *)
Definition A_gap_of (e : BatchRow) : F :=
  fadd (fsub (fsub (policy_chosen_logp e) (policy_rejected_logp e))
             (reference_chosen_logp e))
       (reference_rejected_logp e).

(** [weight_sample = torch.exp(-0.5 * ((A - mean)).pow(2))] *)
Definition weight_sample_of (mean : F) (A : list F) : list F :=
  map (fun x => fexp (fmul (of_real (- (1 / 2)))
                           (fmul (fsub x mean) (fsub x mean)))) A.

(** [dpo_loss]; [None] stands for a raised exception and [sample_index]
    is the draw of the sampler. *)
Definition dpo_loss (batch : list BatchRow) (beta : F) (rank world_size : nat)
    (peers : nat → list F) (gap_mean gap_std : F) (reference_free : bool)
    (sample_index : list nat) : option DpoOut :=
  let logits := map (logits_of reference_free) batch in
  let this_logits := map this_logits_of batch in
  let A_gap := map A_gap_of batch in
  let A := all_gather_if_needed A_gap rank world_size peers in
  let A_sigmoid := map fsigmoid A in
  let mean := gap_mean in
  let weight_sample := weight_sample_of mean A in
  global_mask ← subsample weight_sample sample_index;
  (* 2. compute the beta *)
  let mean_sigmoid := fsigmoid mean in
  sampled ← gather A_sigmoid sample_index;
  let A_sigmoid_average := tmean sampled in
  let this_ratio := fdiv A_sigmoid_average mean_sigmoid in
  let this_ratio := map (fun x => fmul x this_ratio) this_logits in
  let beta_used := map (fun x => fmul beta x) this_ratio in
  let beta_clamped := count_le (of_real (1 / 1000)) beta_used in
  let beta_used := map (clamp_min (of_real (1 / 1000))) beta_used in
  let losses :=
    zip_with (fun bu l => fneg (flogsigmoid (fmul bu l))) beta_used logits in
  let chosen_rewards :=
    map (fun e => fmul beta (fsub (policy_chosen_logp e) (reference_chosen_logp e)))
        batch in
  let rejected_rewards :=
    map (fun e => fmul beta (fsub (policy_rejected_logp e)
                                  (reference_rejected_logp e))) batch in
  Some (mkDpoOut losses chosen_rewards rejected_rewards beta_used global_mask
          beta_clamped A_sigmoid_average this_ratio this_logits).

(** The end of [LLaVA15DPOTrainer.compute_loss]:
      B = int(global_mask.size(0) / self.world_size)
      local_mask = global_mask[self.rank * B: (self.rank + 1) * B]
      masked_losses = losses * local_mask
      effective_loss_count = local_mask.sum()
      effective_loss_count = effective_loss_count if effective_loss_count > 0 else 1
      loss = masked_losses.sum() / effective_loss_count *)
Definition masked_mean (out : DpoOut) (rank world_size : nat) : F :=
  let B := length (global_mask out) / world_size in
  let local_mask := take B (drop (rank * B) (global_mask out)) in
  let masked_losses := zip_with fmul (losses out) local_mask in
  let effective_loss_count := tsum local_mask in
  let effective_loss_count :=
    if fltb (of_real 0) effective_loss_count then effective_loss_count
    else of_real 1 in
  fdiv (tsum masked_losses) effective_loss_count.

(** [compute_loss] calls [dpo_loss] without [reference_free]. *)
Definition compute_loss (batch : list BatchRow) (beta : F) (rank world_size : nat)
    (peers : nat → list F) (gap_mean gap_std : F) (sample_index : list nat)
  : option F :=
  out ← dpo_loss batch beta rank world_size peers gap_mean gap_std false
          sample_index;
  Some (masked_mean out rank world_size).

(** The four running statistics of the trainer. *)
Record Stats := mkStats {
  gap_mean_ : F; gap_std_ : F; loss_mean_ : F; loss_std_ : F }.

(** [running.mul_(gamma).add_(batch_stat, alpha=1-gamma)] *)
Definition ema (gamma running batch_stat : F) : F :=
  fadd (fmul running gamma) (fmul (fsub (of_real 1) gamma) batch_stat).

(** [dist.all_reduce(t, op=SUM); t /= world_size]; [peers r] is the value
    held by rank [r]. *)
Definition all_reduce_mean (mine : F) (rank world_size : nat) (peers : nat → F)
  : F :=
  fdiv (tsum (map (fun r => if decide (r = rank) then mine else peers r)
                  (seq 0 world_size)))
       (of_real (INR world_size)).

(** [LLaVA15DPOTrainer.update_and_sync_tensor_mean(gap_local, loss_local,
    gamma)] *)
Definition update_and_sync_tensor_mean (st : Stats) (gap_local loss_local : list F)
    (gamma : F) (rank world_size : nat) (peers : nat → Stats) : Stats :=
  let batch_gap_mean := tmean gap_local in
  let batch_gap_std := tstd gap_local in
  let batch_loss_mean := tmean loss_local in
  let batch_loss_std := tstd loss_local in
  let st' := mkStats (ema gamma (gap_mean_ st) batch_gap_mean)
                     (ema gamma (gap_std_ st) batch_gap_std)
                     (ema gamma (loss_mean_ st) batch_loss_mean)
                     (ema gamma (loss_std_ st) batch_loss_std) in
  if decide (1 < world_size) then
    mkStats (all_reduce_mean (gap_mean_ st') rank world_size (fun r => gap_mean_ (peers r)))
            (all_reduce_mean (gap_std_ st') rank world_size (fun r => gap_std_ (peers r)))
            (all_reduce_mean (loss_mean_ st') rank world_size (fun r => loss_mean_ (peers r)))
            (all_reduce_mean (loss_std_ st') rank world_size (fun r => loss_std_ (peers r)))
  else st'.
End loss.

Arguments BatchRow : clear implicits.
Arguments mkBatchRow {F}.
Arguments DpoOut : clear implicits.
Arguments Stats : clear implicits.

(** ** [SFT_collator_fn] and [preference_collator_fn]

    The token part of the two collators: the ids, the labels and the
    attention masks.  The images are carried along unchanged and are not
    part of the model.  [IGNORE_INDEX] is imported from [llava.constants];
    it is a parameter here. *)

(** [t.ne(pad_token_id)] *)
Definition ne (t : list (list Z)) (pad_token_id : Z) : list (list bool) :=
  map (map (fun x => negb (bool_decide (x = pad_token_id)))) t.

(** The batch of [SFT_collator_fn], with the keys of the source. *)
Module SFT.
Record Batch := mkBatch {
  input_ids : list (list Z);
  labels : list (list Z);
  attention_mask : list (list bool)
}.
End SFT.

(** The batch of [preference_collator_fn]. *)
Record PreferenceBatch := mkPreferenceBatch {
  concatenated_input_ids : list (list Z);
  concatenated_labels : list (list Z);
  concatenated_attention_mask : list (list bool);
  win_input_ids : list (list Z);
  rej_input_ids : list (list Z);
  win_labels : list (list Z);
  rej_labels : list (list Z);
  win_attention_mask : list (list bool);
  rej_attention_mask : list (list bool)
}.

Section collators.
Context {F : Type} (IGNORE_INDEX : Z).

(** [SFT_collator_fn(instances, pad_token_id)];
    [torch.nn.utils.rnn.pad_sequence] raises on an empty list of
    sequences. *)
Definition SFT_collator_fn (instances : list (InstanceDict F))
    (pad_token_id : Z) : option SFT.Batch :=
  if decide (instances = []) then None else
  let input_ids := pad_sequence (map input_ids instances) pad_token_id in
  let labels := pad_sequence (map labels instances) IGNORE_INDEX in
  Some (SFT.mkBatch input_ids labels (ne input_ids pad_token_id)).

(** [preference_collator_fn(instances, pad_token_id)]; [instances] are the
    [(rej, win)] pairs, and unpacking [zip] of an empty batch into two
    names raises [ValueError]. *)
Definition preference_collator_fn
    (instances : list (InstanceDict F * InstanceDict F)) (pad_token_id : Z)
  : option PreferenceBatch :=
  if decide (instances = []) then None else
  let rej_instances := instances.*1 in
  let win_instances := instances.*2 in
  rej_batch ← SFT_collator_fn rej_instances pad_token_id;
  win_batch ← SFT_collator_fn win_instances pad_token_id;
  let concatenated_input_ids :=
    concate_pad (SFT.input_ids win_batch) (SFT.input_ids rej_batch)
      pad_token_id in
  let concatenated_labels :=
    concate_pad (SFT.labels win_batch) (SFT.labels rej_batch) (-100)%Z in
  let concatenated_attention_mask := ne concatenated_input_ids pad_token_id in
  Some (mkPreferenceBatch concatenated_input_ids concatenated_labels
          concatenated_attention_mask
          (SFT.input_ids win_batch) (SFT.input_ids rej_batch)
          (SFT.labels win_batch) (SFT.labels rej_batch)
          (SFT.attention_mask win_batch) (SFT.attention_mask rej_batch)).
End collators.

(** ** [get_batch_logps] and [compute_weighted_logp]

    The element interface with the logarithm that [log_softmax] needs.
    Over the reals with a NaN, the logarithm of a number that is not
    positive is undefined ([-inf] or NaN in floating point). *)

Class ScalarLog (F : Type) `{Scalar F} := {
  flog : F → F            (* torch.log *)
}.

#[global] Instance R_log : ScalarLog R := { flog := ln }.

#[global] Instance NaN_log : ScalarLog (option R) := {
  flog x :=
    match x with
    | Some a => if decide (0 < a)%R then Some (ln a) else None
    | None => None
    end
}.

Section logps.
Context {F : Type} `{ScalarLog F}.

(** [row.log_softmax(-1)], that is [x - log(sum(exp(x)))]; the shift by
    the maximum that keeps the floating-point sum finite is not
    modelled. *)
Definition log_softmax (row : list F) : list F :=
  let lse := flog (tsum (map fexp row)) in
  map (fun x => fsub x lse) row.

(** A boolean mask in arithmetic: [True] is 1 and [False] is 0. *)
Definition of_bool (b : bool) : F := if b then of_real 1 else of_real 0.

(** [loss_mask = (labels[1:] != -100)] for one row. *)
Definition loss_mask_of (labels : list Z) : list bool :=
  map (fun l => negb (bool_decide (l = (-100)%Z))) (drop 1 labels).

(** [mask.sum(-1)], an integer, as an element. *)
Definition mask_count (mask : list bool) : F :=
  of_real (INR (length (filter (fun b => b = true) mask))).

(** [torch.gather] along the vocabulary for one position: an index
    outside [0, vocab_size) raises. *)
Definition gather_label (logp : list F) (label : Z) : option F :=
  if decide (0 ≤ label)%Z then logp !! Z.to_nat label else None.

(** One row of [get_batch_logps]:
      labels = labels[1:]; logits = logits[:-1, :]
      labels[labels == -100] = 0
      per_token_logps = gather(logits.log_softmax(-1), index=labels) *)
Definition per_token_logps_of (logits : list (list F)) (labels : list Z)
  : option (list F) :=
  let labels := drop 1 labels in
  let logits := take (length logits - 1) logits in
  let labels := map (fun l => if decide (l = (-100)%Z) then 0%Z else l) labels in
  mapM (fun p => gather_label (log_softmax p.1) p.2) (zip logits labels).

(** [(per_token_logps * loss_mask).sum(-1)] for one row. *)
Definition masked_sum (per_token_logps : list F) (loss_mask : list bool) : F :=
  tsum (zip_with (fun x b => fmul x (of_bool b)) per_token_logps loss_mask).

(** [get_batch_logps(logits, labels, return_all=True)]: the per-token
    log-probabilities, their masked sums and their masked averages.  The
    other two return modes select components of this triple.  The
    [assert] compares [logits.shape[:-1]] with [labels.shape]. *)
Definition get_batch_logps (logits : list (list (list F)))
    (labels : list (list Z)) : option (list (list F) * list F * list F) :=
  if negb (bool_decide (map length logits = map length labels)) then None else
  per_token_logps ←
    mapM (fun p => per_token_logps_of p.1 p.2) (zip logits labels);
  let loss_mask := map loss_mask_of labels in
  let log_prob := zip_with masked_sum per_token_logps loss_mask in
  let average_log_prob :=
    zip_with (fun s m => fdiv s (mask_count m)) log_prob loss_mask in
  Some (per_token_logps, log_prob, average_log_prob).

(** [compute_weighted_logp(per_token_logp, labels, token_weight,
    use_average)]:
      loss_mask = (labels[:, 1:].clone() != -100)
      weighted_mask = token_weight * loss_mask
      logp = (per_token_logp * weighted_mask).sum(-1)
      average_logp = logp / weighted_mask.sum(-1)
    The products are elementwise, on tensors of the same shape;
    broadcasting is not modelled. *)
Definition compute_weighted_logp (per_token_logp : list (list F))
    (labels : list (list Z)) (token_weight : list (list F))
    (use_average : bool) : list F :=
  let loss_mask := map loss_mask_of labels in
  let weighted_mask :=
    zip_with (zip_with (fun w b => fmul w (of_bool b))) token_weight loss_mask in
  let logp :=
    zip_with (fun lp wm => tsum (zip_with fmul lp wm))
      per_token_logp weighted_mask in
  let average_logp := zip_with (fun s wm => fdiv s (tsum wm)) logp weighted_mask in
  if use_average then average_logp else logp.
End logps.

(** ** Parameter and module names

    Names are byte strings.  [sub in s] and [s.split('.')] on the bytes of
    UTF-8 text agree with Python's on code points, since the patterns
    used here are ASCII. *)

(** [sub in s] *)
Fixpoint str_in (sub s : string) : bool :=
  String.prefix sub s ||
  match s with
  | EmptyString => false
  | String _ s' => str_in sub s'
  end.

(** [s.split('.')]: the pieces between the dots, never an empty list. *)
Fixpoint split_dot (s : string) : list string :=
  match s with
  | EmptyString => [EmptyString]
  | String c s' =>
      if decide (c = "."%char) then EmptyString :: split_dot s'
      else match split_dot s' with
           | piece :: pieces => String c piece :: pieces
           | [] => [String c EmptyString]
           end
  end.

(** [find_all_linear_names(model)]; [named_modules] lists
    [model.named_modules()] with, for each module, whether it is an
    instance of [torch.nn.Linear].  The source returns [list] of a [set],
    whose order is not specified: the result is the set.
      for name, module in model.named_modules():
          if any(mm_keyword in name for mm_keyword in multimodal_keywords):
              continue
          if isinstance(module, cls):
              names = name.split('.')
              lora_module_names.add(names[0] if len(names) == 1 else names[-1])
      if 'lm_head' in lora_module_names:
          lora_module_names.remove('lm_head') *)
Definition multimodal_keywords : list string :=
  ["mm_projector"; "vision_tower"; "vision_resampler"]%string.

Definition linear_name (name : string) : string :=
  let names := split_dot name in
  if decide (length names = 1) then default EmptyString (names !! 0)
  else default EmptyString (last names).

Definition find_all_linear_names (named_modules : list (string * bool))
  : gset string :=
  let lora_module_names :=
    foldl (fun (acc : gset string) (m : string * bool) =>
             if existsb (fun mm_keyword => str_in mm_keyword m.1)
                  multimodal_keywords
             then acc
             else if m.2 then {[ linear_name m.1 ]} ∪ acc else acc)
          ∅ named_modules in
  if decide ("lm_head"%string ∈ lora_module_names)
  then lora_module_names ∖ {[ "lm_head"%string ]}
  else lora_module_names.

(** ** The state dictionaries that are saved

    [named_params] lists [model.named_parameters()].  A dictionary
    comprehension is a [gmap]: a later item replaces an earlier one with
    the same key.  [maybe_zero_3] gathers and copies a tensor, [cpu] moves
    it; both are parameters, as is [requires_grad]. *)

(** [{k: t for k, t in items}] *)
Definition dict_of {V} (items : list (string * V)) : gmap string V :=
  foldl (fun d kt => <[kt.1 := kt.2]> d) ∅ items.

(** [k.split("lora_")[0]]: what precedes the first ["lora_"]. *)
Fixpoint before_lora (k : string) : string :=
  if String.prefix "lora_" k then EmptyString
  else match k with
       | EmptyString => EmptyString
       | String c k' => String c (before_lora k')
       end.

(** [k, t = key]: unpacking a string into two names needs exactly two
    characters, and raises [ValueError] otherwise. *)
Definition unpack2 (key : string) : option (string * string) :=
  match key with
  | String a (String b EmptyString) =>
      Some (String a EmptyString, String b EmptyString)
  | _ => None
  end.

(** [d[k] = t] on the keys of a dictionary, in insertion order. *)
Definition add_key (keys : list string) (k : string) : list string :=
  if decide (k ∈ keys) then keys else keys ++ [k].

Section peft.
Context {T : Type} (maybe_zero_3 cpu : T → T) (requires_grad : T → bool).

(** The locals of the [lora_only] branch after its first loop;
    [bias_name] is unbound until a name with ["lora_"] is seen, and only
    the keys of [maybe_lora_bias] are read afterwards. *)
Record LoraOnly := mkLoraOnly {
  to_return : gmap string T;
  maybe_lora_bias : list string;
  lora_bias_names : gset string;
  bias_name : option string
}.

(** The body of the first loop, for one [(k, t)]:
      if "lora_" in k:
          to_return[k] = t
          bias_name = k.split("lora_")[0] + "bias"
          lora_bias_names.add(bias_name)
      elif "bias" in k:
          maybe_lora_bias[k] = t *)
Definition lora_only_step (st : LoraOnly) (kt : string * T) : LoraOnly :=
  if str_in "lora_" kt.1 then
    let bias_name := before_lora kt.1 +:+ "bias" in
    mkLoraOnly (<[kt.1 := kt.2]> (to_return st)) (maybe_lora_bias st)
      ({[ bias_name ]} ∪ lora_bias_names st) (Some bias_name)
  else if str_in "bias" kt.1 then
    mkLoraOnly (to_return st) (add_key (maybe_lora_bias st) kt.1)
      (lora_bias_names st) (bias_name st)
  else st.

(** [for k, t in named_params: ...] *)
Definition lora_only_first_loop (named_params : list (string * T)) : LoraOnly :=
  foldl lora_only_step (mkLoraOnly ∅ [] ∅ None) named_params.

(** for k, t in maybe_lora_bias:
        if bias_name in lora_bias_names:
            to_return[bias_name] = t
    The loop iterates over the keys and unpacks each key, a string, into
    [k, t].  Reading an unbound [bias_name] raises; and once [t], a string,
    has been stored in [to_return], [maybe_zero_3] raises on it in the
    final comprehension: the model stops there. *)
Fixpoint lora_only_second_loop (keys : list string) (bias_name : option string)
    (lora_bias_names : gset string) : option unit :=
  match keys with
  | [] => Some ()
  | key :: keys' =>
      _ ← unpack2 key;
      bias_name' ← bias_name;
      if decide (bias_name' ∈ lora_bias_names) then None
      else lora_only_second_loop keys' bias_name lora_bias_names
  end.

(** The branches of [get_peft_state_maybe_zero_3] on [bias]; any other
    value raises [NotImplementedError]. *)
Definition peft_to_return (named_params : list (string * T)) (bias : string)
  : option (gmap string T) :=
  if decide (bias = "none"%string) then
    Some (dict_of (filter (fun kt => str_in "lora_" kt.1 = true) named_params))
  else if decide (bias = "all"%string) then
    Some (dict_of (filter (fun kt => str_in "lora_" kt.1 || str_in "bias" kt.1 = true)
                     named_params))
  else if decide (bias = "lora_only"%string) then
    let st := lora_only_first_loop named_params in
    match lora_only_second_loop (maybe_lora_bias st) (bias_name st)
            (lora_bias_names st) with
    | Some _ => Some (to_return st)
    | None => None
    end
  else None.

(** [get_peft_state_maybe_zero_3(named_params, bias)]:
      to_return = {k: maybe_zero_3(v, ignore_status=True)
                   for k, v in to_return.items()} *)
Definition get_peft_state_maybe_zero_3 (named_params : list (string * T))
    (bias : string) : option (gmap string T) :=
  fmap (M := option) (fmap maybe_zero_3) (peft_to_return named_params bias).

(** [get_peft_state_non_lora_maybe_zero_3(named_params,
    require_grad_only)] *)
Definition get_peft_state_non_lora_maybe_zero_3
    (named_params : list (string * T)) (require_grad_only : bool)
  : gmap string T :=
  let to_return :=
    dict_of (filter (fun kt => str_in "lora_" kt.1 = false) named_params) in
  let to_return :=
    if require_grad_only
    then filter (fun kt => requires_grad kt.2 = true) to_return
    else to_return in
  (fun v => cpu (maybe_zero_3 v)) <$> to_return.
End peft.

(** ** [_mask_targets]

    [target] is a tensor of labels.  A slice assignment [t[start:stop] = v]
    writes the positions [start <= p < stop] that exist. *)
Definition slice_assign {A} (t : list A) (start stop : nat) (v : A) : list A :=
  imap (fun p x => if decide (start ≤ p < stop) then v else x) t.

Section mask_targets.
Context (IGNORE_INDEX : Z).

(** for tokenized_len, speaker in zip(tokenized_lens, speakers):
        if speaker == "human":
            target[cur_idx+2:cur_idx + tokenized_len] = IGNORE_INDEX
        cur_idx += tokenized_len *)
Fixpoint mask_turns (target : list Z) (cur_idx : nat)
    (turns : list (nat * string)) : list Z :=
  match turns with
  | [] => target
  | (tokenized_len, speaker) :: turns' =>
      let target' :=
        if decide (speaker = "human"%string)
        then slice_assign target (cur_idx + 2) (cur_idx + tokenized_len)
               IGNORE_INDEX
        else target in
      mask_turns target' (cur_idx + tokenized_len) turns'
  end.

(** [_mask_targets(target, tokenized_lens, speakers)]; the function
    writes into [target], the model returns the new tensor.
    [tokenized_lens[0]] raises [IndexError] on an empty list.
      cur_idx = tokenized_lens[0]
      tokenized_lens = tokenized_lens[1:]
      target[:cur_idx] = IGNORE_INDEX *)
Definition _mask_targets (target : list Z) (tokenized_lens : list nat)
    (speakers : list string) : option (list Z) :=
  match tokenized_lens with
  | [] => None
  | cur_idx :: tokenized_lens' =>
      Some (mask_turns (slice_assign target 0 cur_idx IGNORE_INDEX) cur_idx
              (zip tokenized_lens' speakers))
  end.
End mask_targets.

(** ** Predicates used in the statements *)

(** A block lies inside a region of the two sequences. *)
Definition within (r : Region) (m : Match) : Prop :=
  alo r ≤ ma m ∧ ma m + msize m ≤ ahi r ∧
  blo r ≤ mb m ∧ mb m + msize m ≤ bhi r.

(** Block [x] ends, on both sides, before block [y] starts. *)
Definition mbefore (x y : Match) : Prop :=
  ma x + msize x ≤ ma y ∧ mb x + msize x ≤ mb y.

(** Blocks in increasing order on both sides, without overlap. *)
Definition chain (l : list Match) : Prop := StronglySorted mbefore l.

(** [tiles lo spans hi]: the spans are ranges [start <= end], the first
    starts at [lo], each starts where the previous one ends, and the last
    ends at [hi]. *)
Fixpoint tiles (lo : nat) (spans : list Span) (hi : nat) : Prop :=
  match spans with
  | [] => lo = hi
  | s :: rest => s.1 = lo ∧ s.1 ≤ s.2 ∧ tiles s.2 rest hi
  end.

Definition in_span (p : nat) (s : Span) : Prop := s.1 ≤ p ∧ p < s.2.

(** Every position below [len] lies in exactly one span of the list. *)
Definition covers_once (spans : list Span) (len : nat) : Prop :=
  ∀ p, p < len →
    ∃ k, (∃ s, spans !! k = Some s ∧ in_span p s) ∧
         ∀ k' s', spans !! k' = Some s' → in_span p s' → k' = k.

(** Even places hold the modified spans (from the end of the previous match,
    or 0, to the start of the next match), odd places the matched spans,
    and the list ends with the empty matched span [(len, len)]. *)
Definition alternates (spans matches : list Span) (len : nat) : Prop :=
  length spans = 2 * length matches ∧
  (∀ k m, matches !! k = Some m → spans !! (2 * k + 1) = Some m) ∧
  (∀ k m, matches !! k = Some m →
     spans !! (2 * k)
     = Some (match k with 0 => 0 | S k' => default 0 (snd <$> matches !! k') end,
             m.1)) ∧
  List.last spans (0, 0) = (len, len).

(** What [j2len] holds after the row before [i] in [find_longest_match] on
    region [r]: lengths of runs that end at [(i-1, j)] and start inside
    the region. *)
Definition j2len_ok (r : Region) (i : nat) (j2len : gmap nat nat) : Prop :=
  ∀ j k, j2len !! j = Some k →
    1 ≤ k ∧ alo r + k ≤ i ∧ blo r + k ≤ j + 1 ∧ j < bhi r.

(** The best block so far lies inside the region and ends before row [i]. *)
Definition best_ok (r : Region) (i : nat) (best : Match) : Prop :=
  alo r ≤ ma best ∧ ma best + msize best ≤ i ∧
  blo r ≤ mb best ∧ mb best + msize best ≤ bhi r.

(** The rectangle of index pairs a block covers. *)
Definition box (m : Match) : Region :=
  mkRegion (ma m) (ma m + msize m) (mb m) (mb m + msize m).

Definition before (x y : Region) : Prop := ahi x ≤ alo y ∧ bhi x ≤ blo y.
Definition comparable (x y : Region) : Prop := before x y ∨ before y x.
Definition inside (x r : Region) : Prop :=
  alo r ≤ alo x ∧ ahi x ≤ ahi r ∧ blo r ≤ blo x ∧ bhi x ≤ bhi r.
Definition proper (x : Region) : Prop := alo x ≤ ahi x ∧ blo x ≤ bhi x.

Fixpoint pairwise {A} (R : A → A → Prop) (l : list A) : Prop :=
  match l with
  | [] => True
  | x :: l' => Forall (R x) l' ∧ pairwise R l'
  end.

(** Invariant of the work loop of [get_matching_blocks]: pending regions
    and found blocks are mutually ordered rectangles inside the root. *)
Record loop_inv (root : Region) (queue : list Region) (blocks : list Match)
  : Prop := mkLoopInv {
  inv_queue : pairwise comparable queue;
  inv_blocks : pairwise comparable (map box blocks);
  inv_cross : Forall (fun q => Forall (fun m => comparable q (box m)) blocks) queue;
  inv_proper : Forall (fun q => proper q ∧ inside q root) queue;
  inv_within : Forall (fun m => 0 < msize m ∧ within root m) blocks
}.

(** The whole of both sequences. *)
Definition root_region (a b : list Z) : Region :=
  mkRegion 0 (length a) 0 (length b).


(** Matched spans in increasing order, the last one [(len, len)]. *)
Fixpoint spans_ordered (lo : nat) (matches : list Span) (len : nat) : Prop :=
  match matches with
  | [] => False
  | m :: rest =>
      lo ≤ m.1 ∧ m.1 ≤ m.2 ∧
      match rest with
      | [] => m = (len, len)
      | _ => spans_ordered m.2 rest len
      end
  end.

(** What [__chain_b] guarantees for every key it keeps: the increasing
    list of all positions of the element in [b]. *)
Definition b2j_ok (b : list Z) (b2j : gmap Z (list nat)) : Prop :=
  ∀ x l, b2j !! x = Some l →
    StronglySorted lt l ∧ ∀ j, j ∈ l ↔ b !! j = Some x.

(** The element is a key of [b2j] (it is neither absent nor popular). *)
Definition kept (b2j : gmap Z (list nat)) (x : Z) : bool :=
  bool_decide (is_Some (b2j !! x)).

(** Number of consecutive kept elements of [a] that end just before
    position [i]. *)
Fixpoint diag_run (a : list Z) (b2j : gmap Z (list nat)) (i : nat) : nat :=
  match i with
  | 0 => 0
  | S m =>
      match a !! m with
      | Some x => if kept b2j x then S (diag_run a b2j m) else 0
      | None => 0
      end
  end.

(** State of [find_longest_match] on a sequence against itself, before
    row [i]: no run is longer than the run on the diagonal, the diagonal
    entry is exact, the best block is at least as long as every diagonal
    run seen, and it lies on the diagonal. *)
Definition runs_below_diag (a : list Z) (b2j : gmap Z (list nat)) (i : nat)
    (j2len : gmap nat nat) : Prop :=
  ∀ j k, j2len !! j = Some k → k ≤ diag_run a b2j (min i (S j)).

Definition best_covers_diag (a : list Z) (b2j : gmap Z (list nat)) (i : nat)
    (best : Match) : Prop :=
  ∀ m, m ≤ i → diag_run a b2j m ≤ msize best.

(** The places of a span list: modified spans at even places, matched
    spans at odd places ([idx % 2 == 1] in the source). *)
Fixpoint modified_spans (spans : list Span) : list Span :=
  match spans with
  | s :: _ :: rest => s :: modified_spans rest
  | s :: [] => [s]
  | [] => []
  end.

Fixpoint matched_spans (spans : list Span) : list Span :=
  match spans with
  | _ :: s :: rest => s :: matched_spans rest
  | _ => []
  end.

(** C6 as stated: aligning [a] with itself gives only empty modified
    spans, matched positions [range(len(a))], and no diff ids. *)
Definition self_aligned (a : list Z) (min_match_size : nat) : Prop :=
  ∃ a_spans b_spans,
    align a a min_match_size = Some (a_spans, b_spans) ∧
    Forall (fun s => s.1 = s.2) (modified_spans a_spans) ∧
    Forall (fun s => s.1 = s.2) (modified_spans b_spans) ∧
    spans2ids (matched_spans a_spans) = range 0 (length a) ∧
    spans2ids (matched_spans b_spans) = range 0 (length a) ∧
    get_diff_ids a a min_match_size = Some ([], []).

(** A batch of two preference pairs over binary64 weights, used to run the
    collator: the first pair differs in the middle, the second pair is
    twice the same short sequence. *)
Definition example_instances : list (InstanceDict float * InstanceDict float) :=
  let logp n := replicate n (-1)%float in
  [ (mkInstance [1; 10; 11; 12; 20; 21; 14; 15; 16; 2]%Z
                [1; 10; 11; 12; 20; 21; 14; 15; 16; 2]%Z (logp 9),
     mkInstance [1; 10; 11; 12; 13; 14; 15; 16; 2]%Z
                [1; 10; 11; 12; 13; 14; 15; 16; 2]%Z (logp 8));
    (mkInstance [1; 10; 11; 12; 2]%Z [1; 10; 11; 12; 2]%Z (logp 4),
     mkInstance [1; 10; 11; 12; 2]%Z [1; 10; 11; 12; 2]%Z (logp 4)) ].

Definition example_collate : option (@TokenWeights float) :=
  collate_token_weights 1%float 0%float PrimFloat.is_nan 0%Z 3%float
    example_instances.

Definition example_weights : @TokenWeights float :=
  mkTokenWeights
    [[1; 1; 1; 3; 1; 1; 1; 1]; [1; 1; 1; 1; 1; 1; 1; 1]]%float
    [[1; 1; 1; 3; 3; 1; 1; 1; 1]; [1; 1; 1; 1; 1; 1; 1; 1; 1]]%float
    [[1; 1; 1; 3; 1; 1; 1; 1; 0]; [1; 1; 1; 1; 1; 1; 1; 1; 0];
     [1; 1; 1; 3; 3; 1; 1; 1; 1]; [1; 1; 1; 1; 1; 1; 1; 1; 1]]%float.

(** The positions a draw selects among [n] examples, and how many. *)
Definition selected (sample_index : list nat) (n : nat) : list nat :=
  filter (fun p => p ∈ sample_index) (seq 0 n).

(** Checks [int(n * (1 - 0.2)) = floor(4 n / 5)] on [fuel] consecutive
    sizes from [n] on. *)
Fixpoint floor_check (fuel : nat) (n : Z) : bool :=
  match fuel with
  | O => true
  | S fuel' => (sample_num_Z n =? 4 * n / 5)%Z && floor_check fuel' (n + 1)
  end.

(** C2 as stated, for one run of the subsampler: the draw selects
    [ceil(0.8 * N)] examples. *)
Definition selects_ceiling `{Scalar F} (weight_sample : list F)
    (sample_index : list nat) : Prop :=
  length (selected sample_index (length weight_sample))
  = ceil_08 (length weight_sample).

(** Sampling weights used to run the subsampler over the reals. *)
Definition unit_weights (n : nat) : list R := replicate n 1%R.
Definition zero_weights (n : nat) : list R := replicate n 0%R.

(** The effective temperature of one example before the clamp, given the
    sampled sigmoid gaps:
    [beta * this_logits * (mean(sampled) / sigmoid(gap_mean))]. *)
Definition beta_before_clamp `{Scalar F} (beta gap_mean : F) (sampled : list F)
    (e : BatchRow F) : F :=
  fmul beta (fmul (this_logits_of e) (fdiv (tmean sampled) (fsigmoid gap_mean))).

(** The gathered gaps [A] of a call of [dpo_loss]. *)
Definition gathered `{Scalar F} (batch : list (BatchRow F)) (rank world_size : nat)
    (peers : nat → list F) : list F :=
  all_gather_if_needed (map A_gap_of batch) rank world_size peers.

(** Two batches of two examples over the reals that differ only in the
    reference log-probability of the chosen response (0 against 1). *)
Definition zero_ref_batch : list (BatchRow R) :=
  replicate 2 (mkBatchRow 1 0 0 0 0 0)%R.
Definition other_ref_batch : list (BatchRow R) :=
  replicate 2 (mkBatchRow 1 0 1 0 0 0)%R.

Definition no_peers {A} : nat → list A := fun _ => [].

(** Some per-example input of the loss is NaN. *)
Definition has_nan (batch : list (BatchRow (option R))) : Prop :=
  ∃ e, e ∈ batch ∧
    (policy_chosen_logp e = None ∨ policy_rejected_logp e = None ∨
     reference_chosen_logp e = None ∨ reference_rejected_logp e = None ∨
     vlm_chosen_logit e = None ∨ vlm_rejected_logit e = None).

(** Some policy or reference log-probability is NaN. *)
Definition has_nan_logp (batch : list (BatchRow (option R))) : Prop :=
  ∃ e, e ∈ batch ∧
    (policy_chosen_logp e = None ∨ policy_rejected_logp e = None ∨
     reference_chosen_logp e = None ∨ reference_rejected_logp e = None).

(** Two examples; in the first, [policy_chosen_logp] is NaN. *)
Definition nan_logp_batch : list (BatchRow (option R)) :=
  [mkBatchRow None (Some 0%R) (Some 0%R) (Some 0%R) (Some 0%R) (Some 0%R);
   mkBatchRow (Some 0%R) (Some 0%R) (Some 0%R) (Some 0%R) (Some 0%R) (Some 0%R)].

(** Two examples; in the first, the auxiliary confidence of the chosen
    response is NaN, and every log-probability is finite. *)
Definition nan_confidence_batch : list (BatchRow (option R)) :=
  [mkBatchRow (Some 0%R) (Some 0%R) (Some 0%R) (Some 0%R) None (Some 0%R);
   mkBatchRow (Some 0%R) (Some 0%R) (Some 0%R) (Some 0%R) (Some 0%R) (Some 0%R)].

(** Position [p] lies in a modified span of the alignment of [a] and [b]
    that is non-empty on both sides; [on_a] selects the side of [p]. *)
Definition modified_position (on_a : bool) (a b : list Z) (min_match_size : nat)
    (p : nat) : Prop :=
  ∃ a_spans b_spans k s t,
    align a b min_match_size = Some (a_spans, b_spans) ∧
    a_spans !! (2 * k) = Some s ∧ b_spans !! (2 * k) = Some t ∧
    s.1 ≠ s.2 ∧ t.1 ≠ t.2 ∧
    in_span p (if on_a then s else t).

(** ** Further predicates on the aligner *)

(** [seq[span[0]: span[1]]] *)
Definition slice {A} (l : list A) (span : Span) : list A :=
  take (span.2 - span.1) (drop span.1 l).

(** The block pairs equal elements: [a[i + t] == b[j + t]] for [t < size]. *)
Definition is_match (a b : list Z) (m : Match) : Prop :=
  ∀ t, t < msize m →
    ∃ x, a !! (ma m + t) = Some x ∧ b !! (mb m + t) = Some x.

(** What [j2len] holds before row [i]: every entry [j ↦ k] is a run of [k]
    equal elements that ends at [(i - 1, j)]. *)
Definition j2len_true (a b : list Z) (i : nat) (j2len : gmap nat nat) : Prop :=
  ∀ j k, j2len !! j = Some k →
    k ≤ i ∧ k ≤ S j ∧ is_match a b (mkMatch (i - k) (S j - k) k).

(** Entry [x] of a modification map ends, on both sides, no later than
    entry [y] starts. *)
Definition entry_before (x y : Span * Span) : Prop :=
  x.1.2 ≤ y.1.1 ∧ x.2.2 ≤ y.2.1.

(** Both spans of an entry are non-empty ranges inside sequences of
    lengths [la] and [lb]. *)
Definition entry_ok (la lb : nat) (kv : Span * Span) : Prop :=
  kv.1.1 < kv.1.2 ∧ kv.1.2 ≤ la ∧ kv.2.1 < kv.2.2 ∧ kv.2.2 ≤ lb.

(** The batch of [example_instances], collated with [IGNORE_INDEX = -100]
    and [pad_token_id = 0]. *)
Definition example_batch : option PreferenceBatch :=
  preference_collator_fn (-100)%Z example_instances 0%Z.

(** The width of [t[:, :size - 1]] for a tensor [t] of width [ref_size]
    that passed [assert ref_size >= size - 1]: a stop of [-1] (when
    [size = 0]) drops the last column. *)
Definition sliced_width (size ref_size : nat) : nat :=
  if decide (size = 0) then ref_size - 1 else size - 1.

(** The guards of the collator on a batch: it is not empty, the padded
    reference log-probabilities are at most one column narrower than the
    padded ids on both sides, and ids and labels have equal lengths. *)
Definition collator_guards {F} (instances : list (InstanceDict F * InstanceDict F))
  : Prop :=
  instances ≠ [] ∧
  (Z.of_nat (max_len (map input_ids instances.*2)) - 1
   ≤ Z.of_nat (max_len (map ref_per_token_logp instances.*2)))%Z ∧
  (Z.of_nat (max_len (map input_ids instances.*1)) - 1
   ≤ Z.of_nat (max_len (map ref_per_token_logp instances.*1)))%Z ∧
  Forall (fun ins => length (input_ids ins) = length (labels ins))
    (instances.*2 ++ instances.*1).

(** The examples of the local batch of size [B], which sits at offset
    [rank * B] of the gathered one, that the draw selected. *)
Definition local_selected (sample_index : list nat) (rank B : nat) : list nat :=
  filter (fun p => rank * B + p ∈ sample_index) (seq 0 B).

(** [n] successive calls of [update_and_sync_tensor_mean] by a single
    process, each on the same gaps and losses. *)
Fixpoint repeat_update (n : nat) (st : Stats R) (gap_local loss_local : list R)
    (gamma : R) : Stats R :=
  match n with
  | 0 => st
  | S n' =>
      update_and_sync_tensor_mean (repeat_update n' st gap_local loss_local gamma)
        gap_local loss_local gamma 0 1 (fun _ => st)
  end.

(** The running value after [n] updates towards the same batch statistic. *)
Definition ema_n (gamma : R) (n : nat) (running batch_stat : R) : R :=
  (gamma ^ n * running + (1 - gamma ^ n) * batch_stat)%R.

(** The per-token log-probabilities of a row that the loss mask keeps:
    those at a position [t] with [labels[t + 1] != -100]. *)
Definition kept_logps {F} (per_token_logps : list F) (labels : list Z) : list F :=
  (filter (fun p => p.2 = true) (zip per_token_logps (loss_mask_of labels))).*1.

(** Every label that [torch.gather] reads in a row indexes the
    vocabulary: the labels from the second one on, [-100] read as 0,
    against the logits of all positions but the last. *)
Definition labels_in_vocab {F} (logits : list (list F)) (labels : list Z)
  : Prop :=
  Forall (fun p : list F * Z => (0 ≤ p.2)%Z ∧ Z.to_nat p.2 < length p.1)
    (zip (take (length logits - 1) logits)
         (map (fun l => if decide (l = (-100)%Z) then 0%Z else l)
              (drop 1 labels))).

(** [torch.ones_like(t)] *)
Definition ones_like {F} `{Scalar F} (t : list (list F)) : list (list F) :=
  map (map (fun _ => of_real 1)) t.

(** ['.'.join(pieces)] *)
Fixpoint join_dot (pieces : list string) : string :=
  match pieces with
  | [] => EmptyString
  | [piece] => piece
  | piece :: rest => piece +:+ "." +:+ join_dot rest
  end.

(** No multimodal keyword occurs in the name. *)
Definition not_multimodal (name : string) : Prop :=
  Forall (fun mm_keyword => str_in mm_keyword name = false) multimodal_keywords.

(** Some parameter name contains ["bias"] and not ["lora_"]. *)
Definition has_plain_bias {T} (named_params : list (string * T)) : bool :=
  existsb (fun kt => negb (str_in "lora_" kt.1) && str_in "bias" kt.1)
    named_params.

(** Where turn [k] starts: after the header and the turns before it. *)
Definition turn_start (header_len : nat) (turns : list (nat * string))
    (k : nat) : nat :=
  header_len + sum_list (take k turns.*1).

(** Position [p] is in the header, or past the first two tokens of a turn
    of the speaker ["human"]. *)
Definition masked_target (header_len : nat) (turns : list (nat * string))
    (p : nat) : Prop :=
  p < header_len ∨
  ∃ k tokenized_len,
    turns !! k = Some (tokenized_len, "human"%string) ∧
    turn_start header_len turns k + 2 ≤ p ∧
    p < turn_start header_len turns k + tokenized_len.

(** A batch of one pair whose two sides are the same five tokens. *)
Definition example_identical : list (InstanceDict float * InstanceDict float) :=
  [ (mkInstance [1; 10; 11; 12; 2]%Z [1; 10; 11; 12; 2]%Z
       (replicate 4 (-1)%float),
     mkInstance [1; 10; 11; 12; 2]%Z [1; 10; 11; 12; 2]%Z
       (replicate 4 (-1)%float)) ].

(** * Theorems *)

(** ** Worked examples *)

Example ex_blocks :
  get_matching_blocks [1;2;3;4;5]%Z [1;2;9;4;5]%Z
  = [mkMatch 0 0 2; mkMatch 3 3 2; mkMatch 5 5 0].
Proof. vm_compute. reflexivity. Qed.

Example ex_scenario_diff :
  get_diff_ids [1;2;3;4;5]%Z [1;2;9;4;5]%Z 1 = Some ([2], [2]).
Proof. vm_compute. reflexivity. Qed.

Example ex_scenario_spans :
  align [1;2;3;4;5]%Z [1;2;9;4;5]%Z 1
  = Some ([(0,0); (0,2); (2,3); (3,5); (5,5); (5,5)],
          [(0,0); (0,2); (2,3); (3,5); (5,5); (5,5)]).
Proof. vm_compute. reflexivity. Qed.

Example ex_self_short :
  get_diff_ids [1;2]%Z [1;2]%Z 3 = Some ([0;1], [0;1]).
Proof. vm_compute. reflexivity. Qed.

(** A match shorter than [min_match_size] is dropped: with 3, the common
    tail [4, 5] of length 2 joins the modified span. *)
Example ex_short_match_dropped :
  get_diff_ids [1;2;3;9;4;5]%Z [1;2;3;8;4;5]%Z 3 = Some ([3;4;5], [3;4;5]) ∧
  get_diff_ids [1;2;3;9;4;5]%Z [1;2;3;8;4;5]%Z 2 = Some ([3], [3]).
Proof. split; vm_compute; reflexivity. Qed.

Example ex_linear_names :
  elements (find_all_linear_names
    [("model.layers.0.self_attn.q_proj", true); ("model.mm_projector.0", true);
     ("lm_head", true); ("model.norm", false);
     ("model.layers.0.mlp.up_proj", true)]%string)
  = ["up_proj"; "q_proj"]%string.
Proof. vm_compute. reflexivity. Qed.

(** A header of two tokens, then turns of 4, 3 and 5 tokens by "human",
    "gpt" and "human": the first two tokens of a human turn keep their
    label. *)
Example ex_mask_targets :
  _mask_targets (-100)%Z [1; 2; 3; 4; 5; 6; 7; 8; 9; 10; 11; 12]%Z [2; 4; 3; 5]
    ["human"; "gpt"; "human"]%string
  = Some [-100; -100; 3; 4; -100; -100; 7; 8; 9; 10; 11; -100]%Z.
Proof. vm_compute. reflexivity. Qed.

Example ex_split_dot :
  split_dot "a..b." = ["a"; ""; "b"; ""]%string ∧
  split_dot "" = [""]%string ∧
  before_lora "base.lora_A.weight" = "base."%string.
Proof. split_and!; vm_compute; reflexivity. Qed.

Example ex_lora_only :
  get_peft_state_maybe_zero_3 (fun t : nat => t)
    [("a.lora_A.weight", 1); ("a.bias", 2)]%string "lora_only" = None ∧
  map_to_list <$> get_peft_state_maybe_zero_3 (fun t : nat => t)
    [("a.lora_A.weight", 1); ("a.weight", 2)]%string "lora_only"
  = Some [("a.lora_A.weight"%string, 1)].
Proof. split; vm_compute; reflexivity. Qed.

(** ** The matcher returns blocks inside the region it is given *)

Section find_longest_match_bounds.
Context (a b : list Z) (b2j : gmap Z (list nat)).
Context (r : Region).
Hypothesis Hr_a : alo r ≤ ahi r.
Hypothesis Hr_b : blo r ≤ bhi r.

Lemma j2lenget_ok i j2len j :
  j2len_ok r i j2len → blo r ≤ j →
  alo r + j2lenget j2len j ≤ i ∨ j2lenget j2len j = 0.
Proof.
  intros Hok Hj. destruct j as [|j']; simpl; [by right|].
  destruct (j2len !! j') as [k|] eqn:E; simpl; [|by right].
  left. destruct (Hok _ _ E) as (? & ? & ? & ?). lia.
Qed.

Lemma j2lenget_ok_b i j2len j :
  j2len_ok r i j2len → blo r ≤ j → blo r + j2lenget j2len j ≤ j.
Proof.
  intros Hok Hj. destruct j as [|j']; simpl; [lia|].
  destruct (j2len !! j') as [k|] eqn:E; simpl; [|lia].
  destruct (Hok _ _ E) as (? & ? & ? & ?). lia.
Qed.

Lemma scan_row_ok i j2len js newj2len best :
  alo r ≤ i →
  j2len_ok r i j2len → j2len_ok r (S i) newj2len → best_ok r (S i) best →
  j2len_ok r (S i) (scan_row i (blo r) (bhi r) j2len js newj2len best).1 ∧
  best_ok r (S i) (scan_row i (blo r) (bhi r) j2len js newj2len best).2.
Proof.
  intros Hi Hprev. revert newj2len best.
  induction js as [|j js IH]; intros newj2len best Hnew Hbest; simpl; [done|].
  destruct (decide (j < blo r)); [by apply IH|].
  destruct (decide (bhi r ≤ j)); [done|].
  assert (Hj : blo r ≤ j) by lia.
  pose proof (j2lenget_ok i j2len j Hprev Hj) as Ha.
  pose proof (j2lenget_ok_b i j2len j Hprev Hj) as Hb.
  apply IH.
  - intros j0 k0. rewrite lookup_insert.
    destruct (decide (j = j0)) as [->|]; [|by apply Hnew].
    intros [= <-]. lia.
  - destruct (decide (msize best < j2lenget j2len j + 1)); [|done].
    unfold best_ok; simpl. lia.
Qed.

Lemma j2len_ok_empty i : j2len_ok r i ∅.
Proof. intros j k. by rewrite lookup_empty. Qed.

Lemma best_ok_mono i i' best : i ≤ i' → best_ok r i best → best_ok r i' best.
Proof. unfold best_ok. lia. Qed.

Lemma scan_rows_ok n : ∀ i j2len best,
  alo r ≤ i → i + n ≤ ahi r →
  j2len_ok r i j2len → best_ok r i best →
  best_ok r (ahi r) (scan_rows a b2j (blo r) (bhi r) (seq i n) j2len best).
Proof.
  induction n as [|n IH]; intros i j2len best Hi Hn Hj Hb; simpl.
  { eapply best_ok_mono; [|done]. lia. }
  destruct (scan_row i (blo r) (bhi r) j2len (row_indices a b2j i) ∅ best)
    as [newj2len best'] eqn:E.
  destruct (scan_row_ok i j2len (row_indices a b2j i) ∅ best) as [H1 H2];
    [done|done|apply j2len_ok_empty|by eapply best_ok_mono; [|done]; lia|].
  rewrite E in H1, H2. simpl in *.
  apply IH; [lia|lia|done|done].
Qed.

Lemma extend_left_ok wj besti : ∀ bestj bestsize,
  best_ok r (ahi r) (mkMatch besti bestj bestsize) →
  best_ok r (ahi r) (extend_left wj a b (alo r) (blo r) besti bestj bestsize).
Proof.
  induction besti as [|i' IH]; intros bestj bestsize Hb; simpl; [done|].
  destruct bestj as [|j']; [done|].
  destruct (bool_decide (alo r < S i') && bool_decide (blo r < S j')
            && junk_ok wj b j' && same_at a b i' j') eqn:E; [|done].
  apply IH. rewrite !andb_true_iff, !bool_decide_eq_true in E.
  unfold best_ok in *; simpl in *. lia.
Qed.

Lemma extend_right_loop_ok wj fuel : ∀ besti bestj bestsize,
  best_ok r (ahi r) (mkMatch besti bestj bestsize) →
  best_ok r (ahi r)
    (mkMatch besti bestj
       (extend_right_loop fuel wj a b (ahi r) (bhi r) besti bestj bestsize)).
Proof.
  induction fuel as [|fuel IH]; intros besti bestj bestsize Hb; simpl; [done|].
  destruct (bool_decide (besti + bestsize < ahi r)
            && bool_decide (bestj + bestsize < bhi r)
            && junk_ok wj b (bestj + bestsize)
            && same_at a b (besti + bestsize) (bestj + bestsize)) eqn:E; [|done].
  apply IH. rewrite !andb_true_iff, !bool_decide_eq_true in E.
  unfold best_ok in *; simpl in *. lia.
Qed.

Lemma extend_ok wj m :
  best_ok r (ahi r) m →
  best_ok r (ahi r) (extend wj a b (alo r) (ahi r) (blo r) (bhi r) m).
Proof.
  intros Hm. unfold extend, extend_right.
  apply extend_right_loop_ok.
  pose proof (extend_left_ok wj (ma m) (mb m) (msize m)) as H.
  destruct (extend_left wj a b (alo r) (blo r) (ma m) (mb m) (msize m)).
  apply H. by destruct m.
Qed.

Lemma find_longest_match_within :
  within r (find_longest_match a b b2j (alo r) (ahi r) (blo r) (bhi r)).
Proof.
  unfold find_longest_match.
  assert (best_ok r (ahi r)
            (scan_rows a b2j (blo r) (bhi r) (seq (alo r) (ahi r - alo r)) ∅
               (mkMatch (alo r) (blo r) 0))) as H0.
  { apply scan_rows_ok; [lia|lia|apply j2len_ok_empty|].
    unfold best_ok; simpl. lia. }
  by do 2 apply extend_ok.
Qed.
End find_longest_match_bounds.

(** ** The work loop of [get_matching_blocks] *)

Lemma pairwise_app {A} (R : A → A → Prop) (l1 l2 : list A) :
  pairwise R (l1 ++ l2) ↔
  pairwise R l1 ∧ pairwise R l2 ∧ Forall (fun x => Forall (R x) l2) l1.
Proof.
  induction l1 as [|x l1 IH]; simpl.
  - intuition.
  - rewrite Forall_app, IH, Forall_cons. tauto.
Qed.

Lemma comparable_sym x y : comparable x y → comparable y x.
Proof. unfold comparable. tauto. Qed.

Lemma comparable_inside x r y :
  inside x r → comparable r y → comparable x y.
Proof. unfold inside, comparable, before. lia. Qed.

Lemma within_inside root r x : inside r root → within r x → within root x.
Proof. unfold inside, within. lia. Qed.

Lemma within_box r x : within r x → inside (box x) r.
Proof. unfold inside, within, box. simpl. lia. Qed.

Ltac solve_regions :=
  simpl;
  repeat match goal with
         | |- _ ∧ _ => split
         | |- Forall _ [] => apply Forall_nil
         | |- Forall _ (_ :: _) => apply Forall_cons
         | |- True => exact I
         end;
  unfold proper, inside, comparable, before, box, region_weight, queue_weight
    in *;
  simpl in *; lia.

(** The regions pushed for a block found in [r]. *)
Lemma step_queue_spec r x queue :
  within r x → 0 < msize x →
  ∃ news, step_queue r x queue = news ++ queue ∧
    Forall (fun y => proper y ∧ inside y r ∧ comparable y (box x)) news ∧
    pairwise comparable news ∧
    queue_weight news < region_weight r.
Proof.
  intros (Ha1 & Ha2 & Hb1 & Hb2) Hk. unfold step_queue, push_if.
  destruct (bool_decide (ma x + msize x < ahi r)
            && bool_decide (mb x + msize x < bhi r)) eqn:E1;
  destruct (bool_decide (alo r < ma x) && bool_decide (blo r < mb x)) eqn:E2;
  rewrite ?andb_true_iff, ?bool_decide_eq_true in E1, E2.
  - eexists [_; _]. split; [done|]. solve_regions.
  - eexists [_]. split; [done|]. solve_regions.
  - eexists [_]. split; [done|]. solve_regions.
  - exists []. split; [done|]. solve_regions.
Qed.

Lemma queue_weight_app q1 q2 :
  queue_weight (q1 ++ q2) = queue_weight q1 + queue_weight q2.
Proof. induction q1 as [|r q1 IH]; simpl; [done|]. unfold queue_weight in *. simpl. lia. Qed.

Section matching_loop.
Context (a b : list Z) (b2j : gmap Z (list nat)) (root : Region).

Lemma loop_inv_pop r queue blocks :
  loop_inv root (r :: queue) blocks → loop_inv root queue blocks.
Proof.
  intros [Hq Hb Hc Hp Hw]. simpl in Hq.
  apply Forall_cons in Hc, Hp. constructor; tauto.
Qed.

Lemma loop_inv_step r queue blocks x :
  loop_inv root (r :: queue) blocks →
  within r x → 0 < msize x →
  loop_inv root (step_queue r x queue) (blocks ++ [x]).
Proof.
  intros [Hq Hb Hc Hp Hw] Hx Hk. simpl in Hq. destruct Hq as [Hrq Hq].
  apply Forall_cons in Hc as [Hrb Hc]. apply Forall_cons in Hp as [[Hrp Hri] Hp].
  destruct (step_queue_spec r x queue Hx Hk) as (news & -> & Hnews & Hnn & _).
  constructor.
  - apply pairwise_app. split_and!; [done|done|].
    eapply Forall_impl; [exact Hnews|]. intros y (_ & Hy & _).
    eapply Forall_impl; [exact Hrq|]. intros z Hz.
    by eapply comparable_inside.
  - rewrite map_app. apply pairwise_app. split_and!; [done|simpl; auto|].
    rewrite Forall_map. eapply Forall_impl; [exact Hrb|]. intros m Hm.
    constructor; [|constructor]. apply comparable_sym.
    eapply comparable_inside; [by apply within_box|done].
  - rewrite Forall_app. split.
    + eapply Forall_impl; [exact Hnews|]. intros y (_ & Hy & Hyx).
      rewrite Forall_app. split; [|by apply Forall_cons; split; [|apply Forall_nil]].
      eapply Forall_impl; [exact Hrb|]. intros m Hm.
      by eapply comparable_inside.
    + rewrite Forall_forall in Hc, Hrq. apply Forall_forall. intros q Hqin.
      rewrite Forall_app. split; [by apply Hc|].
      constructor; [|constructor]. apply comparable_sym.
      eapply comparable_inside; [by apply within_box|]. by apply Hrq.
  - rewrite Forall_app. split; [|done].
    eapply Forall_impl; [exact Hnews|]. intros y (Hy1 & Hy2 & _).
    split; [done|]. unfold inside in *. lia.
  - rewrite Forall_app. split; [done|]. constructor; [|constructor].
    split; [done|]. by eapply within_inside.
Qed.

(** The blocks the loop returns are mutually ordered, non-empty and inside
    the root region, whatever the fuel. *)
Lemma matching_loop_inv fuel : ∀ queue blocks,
  loop_inv root queue blocks →
  loop_inv root [] (matching_loop fuel a b b2j queue blocks).
Proof.
  induction fuel as [|fuel IH]; intros queue blocks Hinv; cbn [matching_loop].
  { destruct Hinv. by constructor. }
  destruct queue as [|r queue]; [done|].
  set (x := find_longest_match a b b2j (alo r) (ahi r) (blo r) (bhi r)).
  assert (within r x) as Hx.
  { destruct Hinv as [_ _ _ Hp _]. apply Forall_cons in Hp as [[[? ?] _] _].
    by apply find_longest_match_within. }
  destruct (decide (msize x = 0)).
  - apply IH. by eapply loop_inv_pop.
  - apply IH. apply loop_inv_step; [done|done|lia].
Qed.

(** The fuel given by [queue_weight] is enough: more fuel changes
    nothing, so the loop always ends with an empty queue. *)
Lemma matching_loop_fuel f1 : ∀ f2 queue blocks,
  Forall proper queue →
  queue_weight queue ≤ f1 → queue_weight queue ≤ f2 →
  matching_loop f1 a b b2j queue blocks = matching_loop f2 a b b2j queue blocks.
Proof.
  induction f1 as [|f1 IH]; intros f2 queue blocks Hp H1 H2.
  { destruct queue as [|r queue]; [by destruct f2|].
    unfold queue_weight, region_weight in H1. simpl in H1. lia. }
  destruct queue as [|r queue]; [by destruct f2|].
  destruct f2 as [|f2].
  { unfold queue_weight, region_weight in H2. simpl in H2. lia. }
  cbn [matching_loop]. apply Forall_cons in Hp as [Hr Hp].
  set (x := find_longest_match a b b2j (alo r) (ahi r) (blo r) (bhi r)).
  assert (within r x) as Hx by (destruct Hr; by apply find_longest_match_within).
  change (queue_weight (r :: queue)) with (region_weight r + queue_weight queue) in *.
  destruct (decide (msize x = 0)).
  - apply IH; [done| |]; unfold region_weight in *; lia.
  - destruct (step_queue_spec r x queue Hx) as (news & -> & Hnews & _ & Hw); [lia|].
    apply IH.
    + apply Forall_app. split; [|done].
      eapply Forall_impl; [exact Hnews|]. by intros y [? _].
    + rewrite queue_weight_app. lia.
    + rewrite queue_weight_app. lia.
Qed.
End matching_loop.

(** ** Sorting and collapsing keep the blocks ordered *)

Lemma insert_block_perm x l : insert_block x l ≡ₚ x :: l.
Proof.
  induction l as [|y l IH]; simpl; [done|].
  destruct (match_leb x y); [done|].
  rewrite IH. apply Permutation_swap.
Qed.

Lemma sort_blocks_perm l : sort_blocks l ≡ₚ l.
Proof.
  induction l as [|x l IH]; simpl; [done|].
  by rewrite insert_block_perm, IH.
Qed.

Lemma mbefore_trans x y z : mbefore x y → mbefore y z → mbefore x z.
Proof. unfold mbefore. lia. Qed.

Lemma match_leb_before x y :
  0 < msize x → 0 < msize y → comparable (box x) (box y) →
  if match_leb x y then mbefore x y else mbefore y x.
Proof.
  unfold comparable, before, box, mbefore, match_leb. simpl. intros Hx Hy Hc.
  repeat case_decide; try case_bool_decide; lia.
Qed.

Lemma insert_block_chain x l :
  0 < msize x → Forall (fun m => 0 < msize m) l →
  Forall (fun y => comparable (box x) (box y)) l →
  chain l → chain (insert_block x l).
Proof.
  intros Hx. induction l as [|y l IH]; simpl; intros Hl Hc Hs.
  { repeat constructor. }
  apply Forall_cons in Hl as [Hy Hl]. apply Forall_cons in Hc as [Hxy Hc].
  apply StronglySorted_inv in Hs as [Hs Hyl].
  pose proof (match_leb_before x y Hx Hy Hxy) as Hb.
  destruct (match_leb x y).
  - constructor; [by constructor|].
    constructor; [done|]. eapply Forall_impl; [exact Hyl|].
    intros z Hz. by eapply mbefore_trans.
  - constructor; [by apply IH|].
    rewrite insert_block_perm. by constructor.
Qed.

Lemma sort_blocks_chain l :
  Forall (fun m => 0 < msize m) l → pairwise comparable (map box l) →
  chain (sort_blocks l).
Proof.
  induction l as [|x l IH]; simpl; intros Hl Hp; [constructor|].
  apply Forall_cons in Hl as [Hx Hl]. destruct Hp as [Hxl Hp].
  apply insert_block_chain; [done| | |by apply IH].
  - by rewrite sort_blocks_perm.
  - rewrite sort_blocks_perm. by rewrite Forall_map in Hxl.
Qed.

Lemma Forall_emit (P : Match → Prop) cur : P cur → Forall P (emit cur).
Proof. intros H. unfold emit. case_decide; [constructor|by constructor]. Qed.

(** Collapsing keeps lower bounds on the starts, upper bounds on the ends,
    the order, and leaves no empty block. *)
Lemma collapse_lower p q blocks : ∀ cur,
  Forall (fun m => p ≤ ma m ∧ q ≤ mb m) (cur :: blocks) →
  Forall (fun m => p ≤ ma m ∧ q ≤ mb m) (collapse cur blocks).
Proof.
  induction blocks as [|m2 rest IH]; intros cur H; simpl.
  { apply Forall_emit. by apply Forall_cons in H as [? _]. }
  apply Forall_cons in H as [Hc H]. pose proof H as H'.
  apply Forall_cons in H' as [H2 Hr].
  destruct (bool_decide (ma cur + msize cur = ma m2)
            && bool_decide (mb cur + msize cur = mb m2)).
  - apply IH. by constructor.
  - apply Forall_app. split; [|by apply IH].
    by apply Forall_emit.
Qed.

Lemma collapse_upper p q blocks : ∀ cur,
  Forall (fun m => ma m + msize m ≤ p ∧ mb m + msize m ≤ q) (cur :: blocks) →
  Forall (fun m => ma m + msize m ≤ p ∧ mb m + msize m ≤ q) (collapse cur blocks).
Proof.
  induction blocks as [|m2 rest IH]; intros cur H; simpl.
  { apply Forall_emit. by apply Forall_cons in H as [? _]. }
  apply Forall_cons in H as [Hc H]. pose proof H as H'.
  apply Forall_cons in H' as [H2 Hr].
  destruct (bool_decide (ma cur + msize cur = ma m2)
            && bool_decide (mb cur + msize cur = mb m2)) eqn:E.
  - apply IH. constructor; [|done]. simpl.
    rewrite andb_true_iff, !bool_decide_eq_true in E. lia.
  - apply Forall_app. split; [|by apply IH].
    by apply Forall_emit.
Qed.

Lemma collapse_nonempty blocks : ∀ cur,
  Forall (fun m => 0 < msize m) (collapse cur blocks).
Proof.
  induction blocks as [|m2 rest IH]; intros cur; simpl.
  { unfold emit. case_decide; repeat constructor. lia. }
  destruct (bool_decide (ma cur + msize cur = ma m2)
            && bool_decide (mb cur + msize cur = mb m2)); [done|].
  apply Forall_app. split; [|done].
  unfold emit. case_decide; repeat constructor. lia.
Qed.

Lemma collapse_chain blocks : ∀ cur,
  chain (cur :: blocks) → chain (collapse cur blocks).
Proof.
  induction blocks as [|m2 rest IH]; intros cur Hs; simpl.
  { unfold emit. case_decide; repeat constructor. }
  apply StronglySorted_inv in Hs as [Hs Hc].
  pose proof Hs as Hs'. apply StronglySorted_inv in Hs' as [Hr H2].
  apply Forall_cons in Hc as [Hc2 Hcr].
  destruct (bool_decide (ma cur + msize cur = ma m2)
            && bool_decide (mb cur + msize cur = mb m2)) eqn:E.
  - rewrite andb_true_iff, !bool_decide_eq_true in E.
    apply IH. constructor; [done|].
    eapply Forall_impl; [exact H2|]. unfold mbefore. simpl. lia.
  - unfold emit. destruct (decide (msize cur = 0)); simpl; [by apply IH|].
    constructor; [by apply IH|].
    apply (collapse_lower (ma cur + msize cur) (mb cur + msize cur)).
    by constructor.
Qed.

(** ** What [get_matching_blocks] returns *)

Lemma loop_inv_init a b : loop_inv (root_region a b) [root_region a b] [].
Proof.
  constructor; simpl; repeat constructor;
    unfold proper, inside, root_region; simpl; lia.
Qed.

(** The real blocks (all but the sentinel): ordered, non-empty, in range. *)
Lemma get_matching_blocks_spec a b :
  ∃ blocks,
    get_matching_blocks a b = blocks ++ [mkMatch (length a) (length b) 0] ∧
    chain (blocks ++ [mkMatch (length a) (length b) 0]) ∧
    Forall (fun m => 0 < msize m ∧ within (root_region a b) m) blocks.
Proof.
  unfold get_matching_blocks.
  fold (root_region a b).
  set (found := matching_loop _ a b (chain_b b) _ []).
  pose proof (matching_loop_inv a b (chain_b b) (root_region a b)
                (queue_weight [root_region a b]) _ _
                (loop_inv_init a b)) as Hinv.
  fold found in Hinv.
  destruct Hinv as [_ Hpw _ _ Hw].
  assert (Forall (fun m => 0 < msize m) found) as Hpos.
  { eapply Forall_impl; [exact Hw|]. by intros m [? _]. }
  pose proof (sort_blocks_chain found Hpos Hpw) as Hch.
  set (sorted := sort_blocks found) in *.
  assert (Forall (fun m => 0 < msize m ∧ within (root_region a b) m) sorted) as Hws.
  { unfold sorted. by rewrite sort_blocks_perm. }
  eexists. split; [done|].
  assert (chain (collapse (mkMatch 0 0 0) sorted)) as Hc.
  { apply collapse_chain. constructor; [done|].
    eapply Forall_impl; [exact Hws|]. intros m _. unfold mbefore. simpl. lia. }
  assert (Forall (fun m => ma m + msize m ≤ length a ∧ mb m + msize m ≤ length b)
            (collapse (mkMatch 0 0 0) sorted)) as Hup.
  { apply collapse_upper. constructor; [simpl; lia|].
    eapply Forall_impl; [exact Hws|]. intros m [_ Hm].
    unfold within, root_region in Hm. simpl in Hm. lia. }
  pose proof (collapse_nonempty sorted (mkMatch 0 0 0)) as Hne.
  split.
  - clear -Hc Hup. induction Hc as [|x l Hl IH Hx]; simpl.
    { repeat constructor. }
    apply Forall_cons in Hup as [Hx' Hup].
    constructor; [by apply IH|].
    apply Forall_app. split; [done|].
    constructor; [|constructor]. unfold mbefore. simpl. lia.
  - rewrite Forall_forall in Hup, Hne. apply Forall_forall. intros m Hm.
    specialize (Hup m Hm). specialize (Hne m Hm).
    split; [done|]. assert (0 ≤ ma m ∧ 0 ≤ mb m) by lia.
    unfold within, root_region. simpl. lia.
Qed.

(** The work loop of [get_matching_blocks] ends within its fuel: any larger
    fuel finds the same blocks. *)
Lemma get_matching_blocks_fuel a b fuel :
  queue_weight [root_region a b] ≤ fuel →
  matching_loop fuel a b (chain_b b) [root_region a b] []
  = matching_loop (queue_weight [root_region a b]) a b (chain_b b)
      [root_region a b] [].
Proof.
  intros Hf. apply matching_loop_fuel; [|done|done].
  constructor; [|constructor]. unfold proper, root_region. simpl. lia.
Qed.

(** ** The retained blocks and the completed span lists *)

Lemma chain_filter_sentinel (P : Match → Prop) `{!∀ x, Decision (P x)} l s :
  chain (l ++ [s]) → chain (filter P l ++ [s]).
Proof.
  induction l as [|x l IH]; simpl; intros Hc; [done|].
  apply StronglySorted_inv in Hc as [Hs Hx].
  rewrite filter_cons. destruct (decide (P x)); [|by apply IH].
  simpl. constructor; [by apply IH|].
  apply Forall_app in Hx as [Hx1 Hx2]. apply Forall_app. split; [|done].
  rewrite Forall_forall in Hx1. apply Forall_forall. intros y Hy.
  apply list_elem_of_filter in Hy as [_ Hy]. by apply Hx1.
Qed.

(** The blocks kept by [get_match_info]: still ordered, in range, and
    closed by the sentinel. *)
Lemma retained_blocks_spec a b mms :
  ∃ blocks,
    retained_blocks a b mms = blocks ++ [mkMatch (length a) (length b) 0] ∧
    chain (blocks ++ [mkMatch (length a) (length b) 0]) ∧
    Forall (fun m => 0 < msize m ∧ mms ≤ msize m ∧ within (root_region a b) m)
      blocks.
Proof.
  destruct (get_matching_blocks_spec a b) as (blocks & Heq & Hch & Hw).
  unfold retained_blocks. rewrite Heq, removelast_last, last_last.
  eexists. split; [done|]. split; [by apply chain_filter_sentinel|].
  apply Forall_forall. intros m Hm. apply list_elem_of_filter in Hm as [Hm1 Hm2].
  rewrite Forall_forall in Hw. destruct (Hw m Hm2). done.
Qed.

Lemma spans_ordered_cons lo m rest len :
  rest ≠ [] →
  spans_ordered lo (m :: rest) len ↔
  lo ≤ m.1 ∧ m.1 ≤ m.2 ∧ spans_ordered m.2 rest len.
Proof. intros Hne. destruct rest; [done|]. reflexivity. Qed.

Lemma a_matches_ordered l la lb lo :
  chain (l ++ [mkMatch la lb 0]) →
  Forall (fun m => lo ≤ ma m) (l ++ [mkMatch la lb 0]) →
  spans_ordered lo (map a_match (l ++ [mkMatch la lb 0])) la.
Proof.
  revert lo. induction l as [|x l IH]; intros lo Hc Hlo.
  { apply Forall_cons in Hlo as [Hlo _]. simpl in *.
    split_and!; [done|lia|]. unfold a_match. simpl. f_equal. lia. }
  rewrite <-app_comm_cons in *. rewrite map_cons.
  apply StronglySorted_inv in Hc as [Hc Hx].
  apply Forall_cons in Hlo as [Hlo _].
  apply spans_ordered_cons; [by destruct l|].
  split_and!; [done|simpl; lia|].
  apply IH; [done|].
  eapply Forall_impl; [exact Hx|]. unfold mbefore. intros m. simpl. lia.
Qed.

Lemma b_matches_ordered l la lb lo :
  chain (l ++ [mkMatch la lb 0]) →
  Forall (fun m => lo ≤ mb m) (l ++ [mkMatch la lb 0]) →
  spans_ordered lo (map b_match (l ++ [mkMatch la lb 0])) lb.
Proof.
  revert lo. induction l as [|x l IH]; intros lo Hc Hlo.
  { apply Forall_cons in Hlo as [Hlo _]. simpl in *.
    split_and!; [done|lia|]. unfold b_match. simpl. f_equal. lia. }
  rewrite <-app_comm_cons in *. rewrite map_cons.
  apply StronglySorted_inv in Hc as [Hc Hx].
  apply Forall_cons in Hlo as [Hlo _].
  apply spans_ordered_cons; [by destruct l|].
  split_and!; [done|simpl; lia|].
  apply IH; [done|].
  eapply Forall_impl; [exact Hx|]. unfold mbefore. intros m. simpl. lia.
Qed.

Lemma complete_loop_tiles matches : ∀ i len,
  spans_ordered i matches len →
  tiles i (complete_loop (i, default 0 (fst <$> head matches)) matches len) len.
Proof.
  induction matches as [|m rest IH]; intros i len H; simpl in *; [done|].
  destruct H as (H1 & H2 & H3).
  split_and!; [done|done|done|done|].
  destruct rest as [|m' rest'].
  - simpl. by inversion H3.
  - specialize (IH (m.2) len H3). exact IH.
Qed.

Lemma tiles_bounds spans : ∀ lo hi s,
  tiles lo spans hi → s ∈ spans → lo ≤ s.1 ∧ s.2 ≤ hi.
Proof.
  induction spans as [|s0 rest IH]; intros lo hi s Ht Hin.
  { by apply elem_of_nil in Hin. }
  destruct Ht as (H1 & H2 & H3).
  assert (s0.2 ≤ hi) as Hhi.
  { clear -H3 IH. destruct rest as [|s1 rest]; simpl in H3; [lia|].
    destruct H3 as (? & ? & ?).
    destruct (IH (s0.2) hi s1); [by simpl|left|]. lia. }
  apply elem_of_cons in Hin as [->|Hin]; [lia|].
  destruct (IH _ _ _ H3 Hin). lia.
Qed.

Lemma tiles_covers_once spans : ∀ lo hi,
  tiles lo spans hi →
  ∀ p, lo ≤ p → p < hi →
    ∃ k, (∃ s, spans !! k = Some s ∧ in_span p s) ∧
         ∀ k' s', spans !! k' = Some s' → in_span p s' → k' = k.
Proof.
  induction spans as [|s0 rest IH]; intros lo hi Ht p Hlo Hhi; simpl in Ht.
  { lia. }
  destruct Ht as (H1 & H2 & H3).
  destruct (decide (p < s0.2)) as [Hp|Hp].
  - exists 0. split; [exists s0; unfold in_span; split; [done|lia]|].
    intros [|k'] s' Hk' Hin; [done|]. simpl in Hk'.
    apply list_elem_of_lookup_2 in Hk'.
    destruct (tiles_bounds _ _ _ _ H3 Hk'). unfold in_span in Hin. lia.
  - destruct (IH _ _ H3 p) as (k & (s & Hk & Hs) & Huniq); [lia|done|].
    exists (S k). split; [by exists s|].
    intros [|k'] s' Hk' Hin; simpl in Hk'.
    + injection Hk' as <-. unfold in_span in Hin. lia.
    + f_equal. by eapply Huniq.
Qed.

Lemma complete_loop_length matches : ∀ ij len,
  length (complete_loop ij matches len) = 2 * length matches.
Proof.
  induction matches as [|m rest IH]; intros ij len; simpl; [done|].
  rewrite IH. lia.
Qed.

Lemma complete_loop_lookup matches : ∀ ij len k m,
  matches !! k = Some m →
  complete_loop ij matches len !! (2 * k + 1) = Some m ∧
  complete_loop ij matches len !! (2 * k)
  = Some (match k with
          | 0 => ij
          | S k' => (default 0 (snd <$> matches !! k'), m.1)
          end).
Proof.
  induction matches as [|m0 rest IH]; intros ij len k m Hk; [done|].
  destruct k as [|k]; simpl in Hk.
  { injection Hk as ->. done. }
  replace (2 * S k + 1) with (S (S (2 * k + 1))) by lia.
  replace (2 * S k) with (S (S (2 * k))) by lia.
  cbn [complete_loop lookup list_lookup].
  destruct (IH (m0.2, match rest with m' :: _ => m'.1 | [] => len end) len k m Hk)
    as [E1 E2].
  split; [done|]. etrans; [exact E2|]. destruct k as [|k]; simpl.
  - destruct rest; simpl in Hk; [done|]. by injection Hk as ->.
  - done.
Qed.

Lemma complete_loop_last matches : ∀ ij len d,
  matches ≠ [] →
  List.last (complete_loop ij matches len) d = List.last matches d.
Proof.
  induction matches as [|m rest IH]; intros ij len d Hne; [done|].
  cbn [complete_loop]. destruct rest as [|m' rest']; [done|].
  change (List.last (ij :: m :: ?l) d) with (List.last l d).
  rewrite IH; done.
Qed.

Lemma spans_ordered_last matches : ∀ lo len d,
  spans_ordered lo matches len → List.last matches d = (len, len).
Proof.
  induction matches as [|m rest IH]; intros lo len d H; [done|].
  destruct H as (_ & _ & H). destruct rest as [|m' rest']; [done|].
  change (List.last (m :: m' :: rest') d) with (List.last (m' :: rest') d).
  by eapply IH.
Qed.

(** [complete_modification_spans] on an ordered list of matches. *)
Lemma complete_modification_spans_spec matches len :
  spans_ordered 0 matches len →
  ∃ spans,
    complete_modification_spans matches len = Some spans ∧
    tiles 0 spans len ∧ covers_once spans len ∧ alternates spans matches len.
Proof.
  intros Ho. destruct matches as [|m0 rest]; [done|].
  exists (complete_loop (0, m0.1) (m0 :: rest) len). split; [done|].
  pose proof (complete_loop_tiles (m0 :: rest) 0 len Ho) as Ht.
  change (default 0 (fst <$> head (m0 :: rest))) with (m0.1) in Ht.
  set (matches := m0 :: rest) in *.
  split_and!.
  - done.
  - intros p Hp. eapply tiles_covers_once; [done|lia|done].
  - split_and!.
    + apply complete_loop_length.
    + intros k m Hk. by eapply complete_loop_lookup.
    + intros k m Hk.
      destruct (complete_loop_lookup _ (0, m0.1) len _ _ Hk) as [_ E].
      etrans; [exact E|]. destruct k; [|done]. by injection Hk as ->.
    + rewrite complete_loop_last by done.
      by eapply spans_ordered_last.
Qed.

(** ** C1: the aligner's span lists tile both sequences *)

Lemma get_match_info_lengths a b mms :
  length (get_match_info a b mms).1 = length (get_match_info a b mms).2.
Proof. unfold get_match_info. simpl. by rewrite !length_map. Qed.

Lemma get_match_info_ordered a b mms :
  spans_ordered 0 (get_match_info a b mms).1 (length a) ∧
  spans_ordered 0 (get_match_info a b mms).2 (length b).
Proof.
  unfold get_match_info. simpl.
  destruct (retained_blocks_spec a b mms) as (blocks & -> & Hch & _).
  split.
  - apply a_matches_ordered; [done|]. apply Forall_forall. intros; lia.
  - apply b_matches_ordered; [done|]. apply Forall_forall. intros; lia.
Qed.

(** Both completed span lists exist, tile their sequence and have the same
    number of spans. *)
Lemma align_returns_tiles (a b : list Z) (mms : nat) :
  ∃ a_spans b_spans,
    align a b mms = Some (a_spans, b_spans) ∧
    tiles 0 a_spans (length a) ∧ tiles 0 b_spans (length b) ∧
    length a_spans = length b_spans.
Proof.
  destruct (get_match_info_ordered a b mms) as [Ha Hb].
  pose proof (get_match_info_lengths a b mms) as Hlen.
  unfold align.
  destruct (get_match_info a b mms) as [a_matches b_matches]. simpl in *.
  destruct (complete_modification_spans_spec _ _ Ha)
    as (sa & -> & Hta & _ & (Hla & _)).
  destruct (complete_modification_spans_spec _ _ Hb)
    as (sb & -> & Htb & _ & (Hlb & _)).
  exists sa, sb. split_and!; [done|done|done|lia].
Qed.

(** C1. For every pair of sequences [a], [b] and every [min_match_size]
    (in particular every one [>= 1]), the aligner returns two span lists;
    each tiles its sequence (the first span starts at 0, every span is a
    range [start <= end] that starts where the previous one ends, the last
    ends at the length), every position of the sequence lies in exactly one
    span, and the lists alternate: modified span, matched span, ..., ending
    with the empty matched span of the sentinel. *)
Theorem align_tiles_both_sequences (a b : list Z) (min_match_size : nat) :
  ∃ a_spans b_spans,
    align a b min_match_size = Some (a_spans, b_spans) ∧
    tiles 0 a_spans (length a) ∧ tiles 0 b_spans (length b) ∧
    covers_once a_spans (length a) ∧ covers_once b_spans (length b) ∧
    alternates a_spans (get_match_info a b min_match_size).1 (length a) ∧
    alternates b_spans (get_match_info a b min_match_size).2 (length b).
Proof.
  destruct (get_match_info_ordered a b min_match_size) as [Ha Hb].
  unfold align.
  destruct (get_match_info a b min_match_size) as [a_matches b_matches].
  simpl in *.
  destruct (complete_modification_spans_spec _ _ Ha) as (sa & -> & ? & ? & ?).
  destruct (complete_modification_spans_spec _ _ Hb) as (sb & -> & ? & ? & ?).
  exists sa, sb. done.
Qed.

(** ** The index built by [__chain_b] *)

Lemma enumerate_snoc {A} (l : list A) (y : A) :
  enumerate (l ++ [y]) = enumerate l ++ [(length l, y)].
Proof.
  unfold enumerate. rewrite length_app. simpl.
  rewrite seq_app. simpl.
  rewrite zip_with_app by (by rewrite length_seq). done.
Qed.

Lemma index_b_snoc b y :
  index_b (b ++ [y]) = setdefault_append (index_b b) y (length b).
Proof. unfold index_b. by rewrite enumerate_snoc, foldl_app. Qed.

(** An element of [b] is always a key of the index. *)
Lemma index_b_key b x j : b !! j = Some x → is_Some (index_b b !! x).
Proof.
  revert j. induction b as [|z b IH] using rev_ind; intros j Hj; [done|].
  rewrite index_b_snoc. unfold setdefault_append.
  rewrite lookup_insert. destruct (decide (z = x)); [done|].
  apply lookup_snoc_Some in Hj as [[? ?]|[? ?]]; [by eapply IH|congruence].
Qed.

Lemma index_b_ok b : b2j_ok b (index_b b).
Proof.
  induction b as [|y b IH] using rev_ind.
  { intros x l. unfold index_b. simpl. by rewrite lookup_empty. }
  rewrite index_b_snoc. intros x l. unfold setdefault_append.
  rewrite lookup_insert. destruct (decide (y = x)) as [->|Hne].
  - intros [= <-].
    assert (StronglySorted lt (default [] (index_b b !! x)) ∧
            ∀ j, j ∈ default [] (index_b b !! x) ↔ b !! j = Some x) as [Hs Hm].
    { destruct (index_b b !! x) as [l0|] eqn:E; simpl.
      - by apply IH.
      - split; [constructor|]. intros j. split; [by intros ?%elem_of_nil|].
        intros Hj. apply index_b_key in Hj as [l0 Hl0]. congruence. }
    split.
    + apply StronglySorted_app. split_and!; [|done|repeat constructor].
      intros j1 j2 H1 ->%list_elem_of_singleton.
      apply Hm in H1. by apply lookup_lt_Some in H1.
    + intros j. rewrite elem_of_app, list_elem_of_singleton, Hm.
      rewrite lookup_snoc_Some. split.
      * intros [H| ->]; [left|by right]. split; [|done]. by eapply lookup_lt_Some.
      * intros [[? ?]|[? _]]; [by left|by right].
  - intros E. destruct (IH x l E) as [Hs Hm]. split; [done|].
    intros j. rewrite Hm, lookup_snoc_Some. split; [|intros [[? ?]|[_ ?]]; [done|congruence]].
    intros H. left. split; [|done]. by eapply lookup_lt_Some.
Qed.

Lemma lookup_foldr_delete (m : gmap Z (list nat)) (ks : list Z) x l :
  foldr delete m ks !! x = Some l → m !! x = Some l.
Proof.
  induction ks as [|k ks IH]; simpl; [done|].
  rewrite lookup_delete. destruct (decide (k = x)); [done|]. exact IH.
Qed.

Lemma chain_b_ok b : b2j_ok b (chain_b b).
Proof.
  intros x l H. apply lookup_foldr_delete in H. by apply index_b_ok.
Qed.

(** ** Matching a sequence against itself *)

Section self_match.
Context (a : list Z) (b2j : gmap Z (list nat)).
Hypothesis Hok : b2j_ok a b2j.

Local Abbreviation dr := (diag_run a b2j).

Lemma diag_run_kept i x :
  a !! i = Some x → kept b2j x = true → dr (S i) = S (dr i).
Proof. intros Hi Hk. simpl. by rewrite Hi, Hk. Qed.

Lemma j2lenget_below_diag i j2len j :
  runs_below_diag a b2j i j2len → j2lenget j2len j ≤ dr (min i j).
Proof.
  intros H1. destruct j as [|j']; simpl; [lia|].
  destruct (j2len !! j') as [k|] eqn:E; simpl; [|lia].
  by apply H1.
Qed.

(** One row whose element is a key of [b2j]. *)
Lemma scan_row_diag i x j2len :
  a !! i = Some x → kept b2j x = true →
  runs_below_diag a b2j i j2len → j2lenget j2len i = dr i →
  ∀ js new best,
    StronglySorted lt js → (∀ j, j ∈ js → a !! j = Some x) →
    runs_below_diag a b2j (S i) new →
    (i ∈ js ∨ (new !! i = Some (dr (S i)) ∧ dr (S i) ≤ msize best)) →
    best_covers_diag a b2j i best → ma best = mb best →
    let res := scan_row i 0 (length a) j2len js new best in
    runs_below_diag a b2j (S i) res.1 ∧ res.1 !! i = Some (dr (S i)) ∧
    best_covers_diag a b2j (S i) res.2 ∧ ma res.2 = mb res.2.
Proof.
  intros Hi Hk HP1 HP2.
  induction js as [|j js IH]; intros new best Hs Hjs HR1 HR2 HR3 HR4; simpl.
  { destruct HR2 as [?%elem_of_nil|[E Hle]]; [done|].
    split_and!; [done|done| |done].
    intros m Hm. destruct (decide (m = S i)) as [->|]; [done|].
    apply HR3. lia. }
  apply StronglySorted_inv in Hs as [Hs Hlt].
  assert (a !! j = Some x) as Hj by (apply Hjs, elem_of_cons; by left).
  pose proof (lookup_lt_Some _ _ _ Hj) as Hjn.
  destruct (decide (j < 0)); [lia|].
  destruct (decide ((length a) ≤ j)); [lia|].
  pose proof (j2lenget_below_diag i j2len j HP1) as Hget.
  set (k := j2lenget j2len j + 1).
  assert (dr (S (min i j)) = S (dr (min i j))) as Hmin.
  { destruct (Nat.min_spec i j) as [[_ ->]|[_ ->]]; by eapply diag_run_kept. }
  assert (k ≤ dr (min (S i) (S j))) as Hk1.
  { change (min (S i) (S j)) with (S (min i j)). rewrite Hmin. unfold k. lia. }
  assert (j = i → k = dr (S i)) as Hk2.
  { intros ->. unfold k. rewrite HP2. erewrite diag_run_kept by done. lia. }
  assert (msize best < k → j = i) as Hdiag.
  { intros Hlt'. destruct (lt_eq_lt_dec j i) as [[Hji| ->]|Hij]; [|done|].
    - exfalso. specialize (HR3 (S j)).
      replace (min (S i) (S j)) with (S j) in Hk1 by lia. lia.
    - exfalso. replace (min (S i) (S j)) with (S i) in Hk1 by lia.
      destruct HR2 as [Hin|[_ Hle]]; [|lia].
      apply elem_of_cons in Hin as [->|Hin]; [lia|].
      rewrite Forall_forall in Hlt. specialize (Hlt _ Hin). lia. }
  apply IH.
  - done.
  - intros j0 Hj0. apply Hjs, elem_of_cons. by right.
  - intros j0 k0. rewrite lookup_insert.
    destruct (decide (j = j0)) as [<-|]; [by intros [= <-]|]. apply HR1.
  - destruct (decide (j = i)) as [->|Hne].
    + right. rewrite lookup_insert_eq. rewrite <-Hk2 by done.
      split; [done|]. destruct (decide (msize best < k)); simpl; lia.
    + destruct (decide (msize best < k)) as [Hlt'|]; [by apply Hdiag in Hlt'|].
      destruct HR2 as [Hin|[E Hle]].
      * left. by apply elem_of_cons in Hin as [->|Hin].
      * right. by rewrite lookup_insert_ne.
  - destruct (decide (msize best < k)); [|done].
    intros m Hm. specialize (HR3 m Hm). simpl. lia.
  - destruct (decide (msize best < k)) as [Hlt'|]; [|done].
    apply Hdiag in Hlt' as ->. done.
Qed.

(** The rows from [i] on keep the best block on the diagonal. *)
Lemma scan_rows_diag len : ∀ i j2len best,
  i + len ≤ (length a) →
  runs_below_diag a b2j i j2len → j2lenget j2len i = dr i →
  best_covers_diag a b2j i best → ma best = mb best →
  ma (scan_rows a b2j 0 (length a) (seq i len) j2len best)
  = mb (scan_rows a b2j 0 (length a) (seq i len) j2len best).
Proof.
  induction len as [|len IH]; intros i j2len best Hn H1 H2 H3 H4; simpl; [done|].
  destruct (lookup_lt_is_Some_2 a i) as [x Hx]; [lia|].
  unfold row_indices. rewrite Hx. simpl.
  destruct (b2j !! x) as [js|] eqn:E; simpl.
  - destruct (Hok x js E) as [Hs Hm].
    assert (kept b2j x = true) as Hk.
    { unfold kept. apply bool_decide_eq_true. by rewrite E. }
    pose proof (scan_row_diag i x j2len Hx Hk H1 H2 js ∅ best Hs) as Hrow.
    destruct (scan_row i 0 (length a) j2len js ∅ best) as [new best'].
    destruct Hrow as (R1 & R2 & R3 & R4);
      [by intros j ?%Hm|by intros j k; rewrite lookup_empty
      |left; by apply Hm|done|done|].
    simpl in *. apply IH; [lia|done| |done|done].
    simpl. by rewrite R2.
  - assert (dr (S i) = 0) as Hz.
    { simpl. rewrite Hx. unfold kept. rewrite E.
      rewrite bool_decide_eq_false_2; [done|]. by intros [? ?]. }
    apply IH; [lia| | | |done].
    + intros j k. by rewrite lookup_empty.
    + simpl. by rewrite lookup_empty.
    + intros m Hm. destruct (decide (m = S i)) as [->|]; [lia|].
      apply H3. lia.
Qed.

Lemma same_at_diag i : i < (length a) → same_at a a i i = true.
Proof.
  intros Hi. unfold same_at.
  destruct (lookup_lt_is_Some_2 a i Hi) as [x ->].
  by apply bool_decide_eq_true.
Qed.

Lemma junk_ok_false i : i < (length a) → junk_ok false a i = true.
Proof.
  intros Hi. unfold junk_ok.
  by destruct (lookup_lt_is_Some_2 a i Hi) as [x ->].
Qed.

Lemma extend_left_diag s : ∀ k,
  s ≤ (length a) → extend_left false a a 0 0 s s k = mkMatch 0 0 (s + k).
Proof.
  induction s as [|s IH]; intros k Hs; simpl; [done|].
  rewrite same_at_diag, junk_ok_false by lia.
  rewrite ?bool_decide_eq_true_2 by lia. simpl.
  rewrite IH by lia. f_equal. lia.
Qed.

Lemma extend_right_loop_diag fuel : ∀ k,
  k ≤ (length a) → fuel = (length a) - k →
  extend_right_loop fuel false a a (length a) (length a) 0 0 k = (length a).
Proof.
  induction fuel as [|fuel IH]; intros k Hk Hf; simpl; [lia|].
  rewrite same_at_diag, junk_ok_false by lia.
  rewrite ?bool_decide_eq_true_2 by lia. simpl.
  apply IH; lia.
Qed.
End self_match.

Lemma junk_ok_true b j : junk_ok true b j = false.
Proof. unfold junk_ok. by destruct (b !! j). Qed.

(** With no junk, the two "suck up junk" loops change nothing. *)
Lemma extend_true_id a b alo ahi blo bhi m :
  extend true a b alo ahi blo bhi m = m.
Proof.
  unfold extend, extend_right.
  assert (extend_left true a b alo blo (ma m) (mb m) (msize m) = m) as ->.
  { destruct m as [[|i] [|j] k]; simpl; try done.
    by rewrite junk_ok_true, andb_false_r. }
  destruct m as [i j k]. simpl. f_equal.
  destruct (ahi - (i + k)); simpl; [done|].
  by rewrite junk_ok_true, andb_false_r.
Qed.

(** On a sequence against itself the longest match is the whole sequence,
    whatever elements [__chain_b] dropped as popular. *)
Lemma find_longest_match_self a b2j :
  b2j_ok a b2j →
  find_longest_match a a b2j 0 (length a) 0 (length a)
  = mkMatch 0 0 (length a).
Proof.
  intros Hok. unfold find_longest_match. rewrite extend_true_id.
  set (best := scan_rows a b2j 0 (length a) (seq 0 (length a - 0)) ∅
                 (mkMatch 0 0 0)).
  assert (ma best = mb best) as Hd.
  { unfold best. rewrite Nat.sub_0_r.
    apply scan_rows_diag; [done|lia| |done| |done].
    - intros j k. by rewrite lookup_empty.
    - intros m Hm. assert (m = 0) as -> by lia. simpl. lia. }
  assert (best_ok (root_region a a) (length a) best) as Hb.
  { unfold best. apply (scan_rows_ok a b2j (root_region a a)); simpl; try lia.
    - apply j2len_ok_empty.
    - unfold best_ok; simpl; lia. }
  destruct best as [s s' k]. simpl in Hd. subst s'.
  destruct Hb as (_ & Hb & _). simpl in Hb.
  unfold extend, extend_right. simpl.
  rewrite extend_left_diag by lia. simpl.
  f_equal. apply extend_right_loop_diag; lia.
Qed.

Lemma matching_loop_nil fuel a b b2j blocks :
  matching_loop fuel a b b2j [] blocks = blocks.
Proof. by destruct fuel. Qed.

Lemma get_matching_blocks_self a :
  get_matching_blocks a a
  = (if decide (length a = 0) then [] else [mkMatch 0 0 (length a)])
    ++ [mkMatch (length a) (length a) 0].
Proof.
  unfold get_matching_blocks. f_equal.
  replace (queue_weight [mkRegion 0 (length a) 0 (length a)])
    with (S (2 * length a)) by (unfold queue_weight, region_weight; simpl; lia).
  cbn [matching_loop alo ahi blo bhi].
  rewrite find_longest_match_self by apply chain_b_ok.
  cbn [msize]. destruct (decide (length a = 0)) as [E|E].
  - by rewrite matching_loop_nil.
  - unfold step_queue, push_if. cbn [ma mb msize alo ahi blo bhi].
    rewrite !bool_decide_eq_false_2 by lia. simpl.
    rewrite matching_loop_nil. simpl.
    unfold emit. simpl. by destruct (decide (length a = 0)).
Qed.

(** ** C6: aligning a sequence with itself *)

Lemma retained_blocks_self a mms :
  retained_blocks a a mms
  = (if decide (length a ≠ 0 ∧ mms ≤ length a)
     then [mkMatch 0 0 (length a)] else [])
    ++ [mkMatch (length a) (length a) 0].
Proof.
  unfold retained_blocks. rewrite get_matching_blocks_self.
  rewrite removelast_last, last_last. f_equal.
  destruct (decide (length a = 0)) as [E|E].
  - rewrite decide_False by tauto. done.
  - rewrite filter_cons, filter_nil. simpl.
    destruct (decide (mms ≤ length a)).
    + by rewrite decide_True.
    + by rewrite decide_False by tauto.
Qed.

Lemma get_match_info_self a mms :
  get_match_info a a mms
  = let ms := (if decide (length a ≠ 0 ∧ mms ≤ length a)
               then [(0, length a)] else []) ++ [(length a, length a)] in
    (ms, ms).
Proof.
  unfold get_match_info. rewrite retained_blocks_self.
  destruct (decide (length a ≠ 0 ∧ mms ≤ length a)); simpl;
    unfold a_match, b_match; simpl; by rewrite Nat.add_0_r.
Qed.

(** C6, amended. When [a] is empty or has at least [min_match_size]
    elements (the assembler uses 3), aligning [a] with itself gives only
    empty modified spans, the matched positions are [range(len(a))], and
    [get_diff_ids(a, a)] returns two empty lists. *)
Theorem self_alignment_is_clean (a : list Z) (min_match_size : nat) :
  length a = 0 ∨ min_match_size ≤ length a →
  self_aligned a min_match_size.
Proof.
  intros Hlen. unfold self_aligned, align, get_diff_ids,
    generate_modification_mapping.
  rewrite get_match_info_self. cbv zeta.
  destruct (decide (length a ≠ 0 ∧ min_match_size ≤ length a)) as [[Hn Hm]|Hno].
  - exists [(0, 0); (0, length a); (length a, length a); (length a, length a)].
    eexists. split; [done|]. simpl.
    split_and!; try by repeat constructor.
    + unfold spans2ids, range. simpl. by rewrite Nat.sub_diag, app_nil_r.
    + unfold spans2ids, range. simpl. by rewrite Nat.sub_diag, app_nil_r.
    + unfold generate_modification_mapping_impl. simpl.
      unfold span_not_empty. simpl.
      by rewrite !bool_decide_eq_true_2 by done.
  - assert (length a = 0) as E by (destruct Hlen; [done|];
      destruct (decide (length a = 0)); [done|]; exfalso; apply Hno; done).
    rewrite E. exists [(0, 0); (0, 0)]. eexists. split; [done|].
    split_and!; try done; by repeat constructor.
Qed.

(** The amended claim applies to the assembler's [min_match_size = 3]. *)
Lemma self_alignment_is_clean_witness :
  (length [5; 7; 11]%Z = 0 ∨ 3 ≤ length [5; 7; 11]%Z) ∧
  self_aligned [5; 7; 11]%Z 3.
Proof.
  split; [right; simpl; lia|].
  apply (self_alignment_is_clean [5; 7; 11]%Z 3). right. simpl. lia.
Defined.

(** C6 as stated fails on a sequence shorter than [min_match_size]: the
    only match is discarded and the whole sequence becomes one modified
    span, so [get_diff_ids([1, 2], [1, 2], 3)] is [([0, 1], [0, 1])]. *)
Lemma self_alignment_short_sequence :
  get_diff_ids [1; 2]%Z [1; 2]%Z 3 = Some ([0; 1], [0; 1]) ∧
  align [1; 2]%Z [1; 2]%Z 3 = Some ([(0, 2); (2, 2)], [(0, 2); (2, 2)]) ∧
  ¬ self_aligned [1; 2]%Z 3.
Proof.
  split; [by vm_compute|]. split; [by vm_compute|].
  intros (sa & sb & _ & _ & _ & _ & _ & H).
  vm_compute in H. discriminate H.
Qed.

(** ** [get_diff_ids] returns, and only positions inside the sequences *)

Lemma insert_id_elem x y l : x ∈ insert_id y l ↔ x = y ∨ x ∈ l.
Proof.
  induction l as [|z l IH]; simpl.
  { rewrite list_elem_of_singleton, elem_of_nil. tauto. }
  destruct (decide (y < z)); [by rewrite elem_of_cons|].
  destruct (decide (y = z)) as [->|].
  - rewrite elem_of_cons. tauto.
  - rewrite !elem_of_cons, IH. tauto.
Qed.

Lemma sorted_set_elem x ids : x ∈ sorted_set ids ↔ x ∈ ids.
Proof.
  induction ids as [|y ids IH]; simpl; [done|].
  rewrite insert_id_elem, elem_of_cons, IH. tauto.
Qed.

Lemma dict_set_elem d k v kv : kv ∈ dict_set d k v → kv = (k, v) ∨ kv ∈ d.
Proof.
  induction d as [|[k' v'] d IH]; simpl.
  { intros ->%list_elem_of_singleton. by left. }
  destruct (decide (k' = k)) as [->|].
  - rewrite !elem_of_cons. intros [->|?]; [by left|right; by right].
  - rewrite !elem_of_cons. intros [->|H]; [right; by left|].
    destruct (IH H); [by left|right; by right].
Qed.

Lemma mapping_loop_elem spans : ∀ idx acc kv,
  kv ∈ mapping_loop idx spans acc → kv ∈ acc ∨ kv ∈ spans.
Proof.
  induction spans as [|[sa sb] spans IH]; intros idx acc kv;
    cbn [mapping_loop]; [by left|].
  destruct (bool_decide (idx mod 2 = 1)).
  { intros H. destruct (IH _ _ _ H); [by left|right; by right]. }
  destruct (span_not_empty sa && span_not_empty sb).
  - intros H. destruct (IH _ _ _ H) as [H'|H']; [|right; by right].
    apply dict_set_elem in H' as [->|H']; [right; by left|by left].
  - intros H. destruct (IH _ _ _ H); [by left|right; by right].
Qed.

Lemma spans2ids_elem p spans :
  p ∈ spans2ids spans ↔ ∃ s, s ∈ spans ∧ in_span p s.
Proof.
  unfold spans2ids, range, in_span.
  induction spans as [|s0 spans IH]; simpl.
  { rewrite elem_of_nil. split; [done|]. by intros (s & ?%elem_of_nil & _). }
  rewrite elem_of_app, IH, elem_of_seq. split.
  - intros [Hp|(s & Hs & Hp)].
    + exists s0. split; [left|lia].
    + exists s. split; [by right|done].
  - intros (s & Hs & Hp). apply elem_of_cons in Hs as [->|Hs].
    + left. lia.
    + right. by exists s.
Qed.

(** The mapping is always produced, and it relates spans of the two
    completed span lists. *)
Lemma generate_modification_mapping_spec a b mms :
  ∃ a_spans b_spans mod_map,
    align a b mms = Some (a_spans, b_spans) ∧
    generate_modification_mapping a b mms = Some mod_map ∧
    mod_map = mapping_loop 0 (zip a_spans b_spans) [].
Proof.
  destruct (align_returns_tiles a b mms) as (sa & sb & Hal & _ & _ & Hlen).
  exists sa, sb, (mapping_loop 0 (zip sa sb) []). split; [done|]. split; [|done].
  unfold align in Hal. unfold generate_modification_mapping.
  destruct (get_match_info a b mms) as [am bm]. simpl in *.
  destruct (complete_modification_spans am (length a)) as [sa'|]; [|done].
  destruct (complete_modification_spans bm (length b)) as [sb'|]; [|done].
  simpl in *. injection Hal as -> ->.
  unfold generate_modification_mapping_impl.
  rewrite decide_True by done. done.
Qed.

Lemma get_diff_ids_in_range a b mms :
  ∃ a_ids b_ids,
    get_diff_ids a b mms = Some (a_ids, b_ids) ∧
    Forall (fun p => p < length a) a_ids ∧
    Forall (fun p => p < length b) b_ids.
Proof.
  destruct (generate_modification_mapping_spec a b mms)
    as (sa & sb & mod_map & Hal & Hmap & Hmm).
  destruct (align_returns_tiles a b mms) as (sa' & sb' & Hal' & Hta & Htb & _).
  rewrite Hal in Hal'. injection Hal' as <- <-.
  unfold get_diff_ids. rewrite Hmap. simpl. do 2 eexists. split; [done|].
  assert (∀ kv, kv ∈ mod_map → kv.1 ∈ sa ∧ kv.2 ∈ sb) as Hin.
  { intros kv Hkv. rewrite Hmm in Hkv.
    apply mapping_loop_elem in Hkv as [?%elem_of_nil|Hkv]; [done|].
    destruct kv as [k v]. simpl.
    split; [by eapply elem_of_zip_l|by eapply elem_of_zip_r]. }
  split; apply Forall_forall; intros p Hp;
    apply sorted_set_elem, spans2ids_elem in Hp as (s & Hs & Hps);
    apply list_elem_of_fmap in Hs as (kv & -> & Hkv);
    destruct (Hin kv Hkv) as [H1 H2].
  - destruct (tiles_bounds _ _ _ _ Hta H1). unfold in_span in Hps. lia.
  - destruct (tiles_bounds _ _ _ _ Htb H2). unfold in_span in Hps. lia.
Qed.

(** [sorted_set] is [sorted(set(ids))]: strictly increasing, with the
    elements of [ids]. *)
Lemma insert_id_sorted x l :
  StronglySorted lt l → StronglySorted lt (insert_id x l).
Proof.
  induction l as [|y l IH]; intros Hs; simpl.
  { repeat constructor. }
  apply StronglySorted_inv in Hs as [Hs Hy].
  destruct (decide (x < y)).
  - constructor; [by constructor|]. constructor; [done|].
    eapply Forall_impl; [exact Hy|]. intros z Hz. simpl in *. lia.
  - destruct (decide (x = y)); [by constructor|].
    constructor; [by apply IH|].
    apply Forall_forall. intros z [->|Hz]%insert_id_elem; [lia|].
    rewrite Forall_forall in Hy. by apply Hy.
Qed.

Lemma sorted_set_sorted ids : StronglySorted lt (sorted_set ids).
Proof.
  induction ids as [|x ids IH]; simpl; [constructor|].
  by apply insert_id_sorted.
Qed.

(** ** The positions [get_diff_ids] returns *)

Lemma span_not_empty_true s : span_not_empty s = true ↔ s.1 ≠ s.2.
Proof.
  unfold span_not_empty. rewrite negb_true_iff, bool_decide_eq_false. done.
Qed.

Lemma dict_set_has d k v : (k, v) ∈ dict_set d k v.
Proof.
  induction d as [|[k' v'] d IH]; simpl; [left|].
  destruct (decide (k' = k)) as [->|]; [left|by right].
Qed.

Lemma dict_set_keeps d k v kv : kv ∈ d → kv.1 ≠ k → kv ∈ dict_set d k v.
Proof.
  induction d as [|[k' v'] d IH]; simpl; [by intros ?%elem_of_nil|].
  intros [->|Hin]%elem_of_cons Hne.
  - simpl in Hne. rewrite decide_False by done. left.
  - destruct (decide (k' = k)) as [->|]; right; [done|by apply IH].
Qed.

Lemma tiles_ordered spans : ∀ lo hi i j s s',
  tiles lo spans hi → i < j →
  spans !! i = Some s → spans !! j = Some s' → s.2 ≤ s'.1.
Proof.
  induction spans as [|s0 rest IH]; intros lo hi i j s s' Ht Hij Hi Hj; [done|].
  destruct Ht as (_ & _ & Ht).
  destruct j as [|j]; [lia|]. simpl in Hj.
  destruct i as [|i]; simpl in Hi.
  - injection Hi as <-.
    destruct (tiles_bounds _ _ _ _ Ht (list_elem_of_lookup_2 _ _ _ Hj)). lia.
  - eapply IH; [done| |done|done]. lia.
Qed.

(** What the loop puts in [mod_map], and when an entry survives. *)
Lemma mapping_loop_from spans : ∀ idx acc k v,
  (k, v) ∈ mapping_loop idx spans acc →
  (k, v) ∈ acc ∨
  ∃ i, spans !! i = Some (k, v) ∧ (idx + i) mod 2 = 0 ∧ k.1 ≠ k.2 ∧ v.1 ≠ v.2.
Proof.
  induction spans as [|[s t] spans IH]; intros idx acc k v;
    cbn [mapping_loop]; [by left|].
  destruct (bool_decide (idx mod 2 = 1)) eqn:Ep.
  { intros [?|(i & Hi & Hp & ?)]%IH; [by left|right].
    exists (S i). split; [done|]. split; [|done].
    by replace (idx + S i) with (S idx + i) by lia. }
  apply bool_decide_eq_false in Ep.
  assert (idx mod 2 = 0) as Hev by (pose proof (Nat.mod_upper_bound idx 2); lia).
  destruct (span_not_empty s && span_not_empty t) eqn:En.
  - intros [Hin|(i & Hi & Hp & ?)]%IH.
    + apply dict_set_elem in Hin as [[= -> ->]|?]; [right|by left].
      apply andb_true_iff in En as [?%span_not_empty_true ?%span_not_empty_true].
      exists 0. by rewrite Nat.add_0_r.
    + right. exists (S i). split; [done|]. split; [|done].
      by replace (idx + S i) with (S idx + i) by lia.
  - intros [?|(i & Hi & Hp & ?)]%IH; [by left|right].
    exists (S i). split; [done|]. split; [|done].
    by replace (idx + S i) with (S idx + i) by lia.
Qed.

Lemma mapping_loop_keeps spans : ∀ idx acc kv,
  kv ∈ acc → (∀ j kv', spans !! j = Some kv' → kv'.1 ≠ kv.1) →
  kv ∈ mapping_loop idx spans acc.
Proof.
  induction spans as [|[s t] spans IH]; intros idx acc kv Hin Hfresh;
    cbn [mapping_loop]; [done|].
  assert (∀ j kv', spans !! j = Some kv' → kv'.1 ≠ kv.1) as Hfresh'
    by (intros j kv' Hj; by apply (Hfresh (S j))).
  destruct (bool_decide (idx mod 2 = 1)); [by apply IH|].
  destruct (span_not_empty s && span_not_empty t); [|by apply IH].
  apply IH; [|done]. apply dict_set_keeps; [done|].
  intros Heq. by apply (Hfresh 0 (s, t)).
Qed.

Lemma mapping_loop_to spans : ∀ idx acc i k v,
  spans !! i = Some (k, v) → (idx + i) mod 2 = 0 → k.1 ≠ k.2 → v.1 ≠ v.2 →
  (∀ j kv', i < j → spans !! j = Some kv' → kv'.1 ≠ k) →
  (k, v) ∈ mapping_loop idx spans acc.
Proof.
  induction spans as [|[s t] spans IH]; intros idx acc i k v Hi Hp Hk Hv Hfresh;
    [done|].
  cbn [mapping_loop]. destruct i as [|i]; simpl in Hi.
  - injection Hi as -> ->. rewrite Nat.add_0_r in Hp.
    rewrite bool_decide_eq_false_2 by lia.
    rewrite (proj2 (span_not_empty_true k) Hk), (proj2 (span_not_empty_true v) Hv).
    simpl. apply mapping_loop_keeps; [apply dict_set_has|].
    intros j kv' Hj. apply (Hfresh (S j)); [lia|done].
  - assert ((k, v) ∈ mapping_loop (S idx) spans acc ∧
            ∀ acc', (k, v) ∈ mapping_loop (S idx) spans acc') as [_ Hall].
    { split; [|intros acc']; (eapply IH; [done| |done|done|]);
        try (by replace (S idx + i) with (idx + S i) by lia);
        intros j kv' Hij Hj; apply (Hfresh (S j)); (lia || done). }
    destruct (bool_decide (idx mod 2 = 1)); [apply Hall|].
    destruct (span_not_empty s && span_not_empty t); apply Hall.
Qed.

(** [get_diff_ids] returns exactly the positions of the modified spans
    that are non-empty on both sides, in increasing order. *)
Lemma get_diff_ids_spec a b mms :
  ∃ a_ids b_ids,
    get_diff_ids a b mms = Some (a_ids, b_ids) ∧
    (∀ p, p ∈ a_ids ↔ modified_position true a b mms p) ∧
    (∀ p, p ∈ b_ids ↔ modified_position false a b mms p).
Proof.
  destruct (generate_modification_mapping_spec a b mms)
    as (sa & sb & mod_map & Hal & Hmap & Hmm).
  destruct (align_returns_tiles a b mms) as (sa' & sb' & Hal' & Hta & Htb & Hlen).
  rewrite Hal in Hal'. injection Hal' as <- <-.
  unfold get_diff_ids. rewrite Hmap. simpl. do 2 eexists. split; [done|].
  assert (∀ k v, (k, v) ∈ mod_map ↔
            ∃ i, sa !! (2 * i) = Some k ∧ sb !! (2 * i) = Some v ∧
                 k.1 ≠ k.2 ∧ v.1 ≠ v.2) as Hchar.
  { intros k v. rewrite Hmm. split.
    - intros [?%elem_of_nil|(i & Hi & Hp & Hk & Hv)]%mapping_loop_from; [done|].
      change (0 + i) with i in Hp. apply lookup_zip_with_Some in Hi as (s & t & [= <- <-] & Hs & Ht).
      exists (i / 2).
      replace (2 * (i / 2)) with i
        by (pose proof (Nat.div_mod_eq i 2); lia).
      done.
    - intros (i & Hs & Ht & Hk & Hv).
      apply (mapping_loop_to _ 0 [] (2 * i)); [| |done|done|].
      + apply lookup_zip_with_Some. by exists k, v.
      + change (0 + 2 * i) with (2 * i).
        replace (2 * i) with (i * 2) by lia. apply Nat.Div0.mod_mul.
      + intros j [s' t'] Hij Hj Heq. simpl in Heq. subst s'.
        apply lookup_zip_with_Some in Hj as (s & t & [= <- <-] & Hs' & _).
        pose proof (tiles_ordered _ _ _ _ _ _ _ Hta Hij Hs Hs').
        destruct (tiles_bounds _ _ _ _ Hta (list_elem_of_lookup_2 _ _ _ Hs)).
        assert (k.1 ≤ k.2).
        { clear -Hta Hs. revert Hs. generalize (2 * i). revert Hta.
          generalize 0 at 1. induction sa as [|s0 rest IH]; intros lo Ht n Hn;
            [done|].
          destruct Ht as (_ & Hle & Ht). destruct n; simpl in Hn.
          - by injection Hn as <-.
          - by eapply IH. }
        lia. }
  split; intros p; rewrite sorted_set_elem, spans2ids_elem.
  - split.
    + intros (s & (kv & -> & Hkv)%list_elem_of_fmap & Hp).
      destruct kv as [k v]. apply Hchar in Hkv as (i & ? & ? & ? & ?).
      by exists sa, sb, i, k, v.
    + intros (sa' & sb' & i & s & t & Hal' & Hs & Ht & ? & ? & Hp).
      rewrite Hal in Hal'. injection Hal' as <- <-.
      exists s. split; [|done]. apply list_elem_of_fmap. exists (s, t).
      split; [done|]. apply Hchar. by exists i.
  - split.
    + intros (s & (kv & -> & Hkv)%list_elem_of_fmap & Hp).
      destruct kv as [k v]. apply Hchar in Hkv as (i & ? & ? & ? & ?).
      by exists sa, sb, i, k, v.
    + intros (sa' & sb' & i & s & t & Hal' & Hs & Ht & ? & ? & Hp).
      rewrite Hal in Hal'. injection Hal' as <- <-.
      exists t. split; [|done]. apply list_elem_of_fmap. exists (s, t).
      split; [done|]. apply Hchar. by exists i.
Qed.

(** ** Padding and index assignment *)

Lemma max_len_ge {A} (rows : list (list A)) row :
  row ∈ rows → length row ≤ max_len rows.
Proof.
  induction rows as [|r rows IH]; [by intros ?%elem_of_nil|].
  intros [->|H]%elem_of_cons; simpl; [lia|]. specialize (IH H). lia.
Qed.

Lemma pad_sequence_lookup {A} (rows : list (list A)) v i :
  pad_sequence rows v !! i
  = (fun row => row ++ replicate (max_len rows - length row) v) <$> rows !! i.
Proof. unfold pad_sequence. apply list_lookup_fmap. Qed.

Lemma pad_sequence_row_length {A} (rows : list (list A)) v prow :
  prow ∈ pad_sequence rows v → length prow = max_len rows.
Proof.
  unfold pad_sequence. intros (row & -> & Hrow)%list_elem_of_fmap.
  rewrite length_app, length_replicate.
  pose proof (max_len_ge rows row Hrow). lia.
Qed.

Lemma pad_sequence_size1 {A} (rows : list (list A)) v :
  rows ≠ [] → size1 (pad_sequence rows v) = max_len rows.
Proof.
  intros Hne. destruct rows as [|row rows]; [done|].
  apply (pad_sequence_row_length (row :: rows) v). unfold pad_sequence.
  simpl. left.
Qed.

(** Positions past a row's own length hold the padding value. *)
Lemma pad_sequence_spec {A} (rows : list (list A)) v i row :
  rows !! i = Some row →
  ∃ prow, pad_sequence rows v !! i = Some prow ∧
    length prow = max_len rows ∧
    (∀ p, p < length row → prow !! p = row !! p) ∧
    (∀ p, length row ≤ p → p < max_len rows → prow !! p = Some v).
Proof.
  intros Hi. eexists. rewrite pad_sequence_lookup, Hi. split; [done|].
  pose proof (max_len_ge rows row (list_elem_of_lookup_2 _ _ _ Hi)) as Hle.
  split_and!.
  - rewrite length_app, length_replicate. lia.
  - intros p Hp. by rewrite lookup_app_l.
  - intros p Hp1 Hp2. rewrite lookup_app_r by done.
    apply lookup_replicate_2. lia.
Qed.

Section collator_facts.
Context {F : Type}.

Lemma index_assign_spec ids (v : F) : ∀ row : list F,
  Forall (fun p => p < length row) ids →
  ∃ row', index_assign row ids v = Some row' ∧
    length row' = length row ∧
    ∀ p, p < length row →
      row' !! p = if decide (p ∈ ids) then Some v else row !! p.
Proof.
  induction ids as [|i ids IH]; intros row Hall; cbn [index_assign].
  { exists row. split_and!; [done|done|]. intros p _.
    by rewrite decide_False by apply not_elem_of_nil. }
  apply Forall_cons in Hall as [Hi Hall].
  rewrite decide_True by done.
  destruct (IH (<[i := v]> row)) as (row' & -> & Hlen & Hrow').
  { by rewrite length_insert. }
  rewrite length_insert in Hlen, Hrow'.
  exists row'. split_and!; [done|done|].
  intros p Hp. rewrite (Hrow' p Hp).
  destruct (decide (p ∈ ids)) as [Hin|Hin].
  - rewrite decide_True; [done|]. by right.
  - destruct (decide (p = i)) as [->|Hne].
    + rewrite decide_True by left. by apply list_lookup_insert_eq.
    + rewrite decide_False by (by intros [?|?]%elem_of_cons).
      by apply list_lookup_insert_ne.
Qed.

Lemma index_assign_inv ids (v : F) : ∀ row row' : list F,
  index_assign row ids v = Some row' →
  Forall (fun p => p < length row) ids.
Proof.
  induction ids as [|i ids IH]; intros row row' H; simpl in H; [constructor|].
  destruct (decide (i < length row)); [|done].
  constructor; [done|]. apply IH in H. by rewrite length_insert in H.
Qed.

(** What the loop does to each row, when it returns. *)
Lemma weight_loop_lookup (mw : F) rows : ∀ ws idx w r ww0 rw0,
  weight_loop mw rows = Some ws →
  rows !! idx = Some ((w, r), (ww0, rw0)) →
  ∃ r_mod w_mod ww rw,
    get_diff_ids (drop 1 r) (drop 1 w) 3 = Some (r_mod, w_mod) ∧
    ws !! idx = Some (ww, rw) ∧
    index_assign ww0 w_mod mw = Some ww ∧
    index_assign rw0 r_mod mw = Some rw.
Proof.
  induction rows as [|[[w0 r0] [a0 b0]] rows IH];
    intros ws idx w r ww0 rw0 Hloop Hidx; [done|].
  cbn [weight_loop] in Hloop.
  destruct (get_diff_ids (drop 1 r0) (drop 1 w0) 3) as [[r_mod w_mod]|] eqn:Ed;
    [|done].
  cbn in Hloop.
  destruct (index_assign a0 w_mod mw) as [ww|] eqn:Ea; [|done].
  cbn in Hloop.
  destruct (index_assign b0 r_mod mw) as [rw|] eqn:Eb; [|done].
  cbn in Hloop.
  destruct (weight_loop mw rows) as [rest|] eqn:Er; [|done].
  cbn in Hloop. injection Hloop as <-.
  destruct idx as [|idx]; simpl in Hidx.
  - injection Hidx as -> -> -> ->. by exists r_mod, w_mod, ww, rw.
  - destruct (IH rest idx w r ww0 rw0 eq_refl Hidx)
      as (rm & wm & ww' & rw' & ? & ? & ? & ?).
    by exists rm, wm, ww', rw'.
Qed.

(** The loop raises no [IndexError] when each weight row is at least as
    long as its token row without the leading token. *)
Lemma weight_loop_total (mw : F) rows :
  Forall (fun row : (list Z * list Z) * (list F * list F) =>
            length row.1.1 - 1 ≤ length row.2.1 ∧
            length row.1.2 - 1 ≤ length row.2.2) rows →
  is_Some (weight_loop mw rows).
Proof.
  induction rows as [|[[w0 r0] [a0 b0]] rows IH]; intros Hall; [by eexists|].
  apply Forall_cons in Hall as [[Hw Hr] Hall]. simpl in Hw, Hr.
  cbn [weight_loop].
  destruct (get_diff_ids_in_range (drop 1 r0) (drop 1 w0) 3)
    as (r_mod & w_mod & -> & Hrm & Hwm).
  rewrite length_drop in Hrm, Hwm. cbn.
  destruct (index_assign_spec w_mod mw a0) as (ww & -> & _).
  { eapply Forall_impl; [exact Hwm|]. simpl. lia. }
  cbn.
  destruct (index_assign_spec r_mod mw b0) as (rw & -> & _).
  { eapply Forall_impl; [exact Hrm|]. simpl. lia. }
  cbn. destruct (IH Hall) as [rest ->]. by eexists.
Qed.
Lemma index_assign_values ids (v : F) (P : F → Prop) : ∀ row row' : list F,
  index_assign row ids v = Some row' → P v → Forall P row → Forall P row'.
Proof.
  induction ids as [|i ids IH]; intros row row' Ha Hv Hrow; simpl in Ha.
  { by injection Ha as <-. }
  destruct (decide (i < length row)); [|done].
  eapply IH; [done|done|]. by apply Forall_insert.
Qed.

(** Every weight the loop returns is a [1.0] it started from or the
    boost weight. *)
Lemma weight_loop_values (mw : F) (P : F → Prop) rows : ∀ ws,
  weight_loop mw rows = Some ws → P mw →
  Forall (fun row : (list Z * list Z) * (list F * list F) =>
            Forall P row.2.1 ∧ Forall P row.2.2) rows →
  Forall (fun wr : list F * list F => Forall P wr.1 ∧ Forall P wr.2) ws.
Proof.
  induction rows as [|[[w0 r0] [a0 b0]] rows IH]; intros ws Hloop Hmw Hall.
  { injection Hloop as <-. constructor. }
  apply Forall_cons in Hall as [[Ha0 Hb0] Hall]. simpl in Ha0, Hb0.
  cbn [weight_loop] in Hloop.
  destruct (get_diff_ids (drop 1 r0) (drop 1 w0) 3) as [[r_mod w_mod]|]; [|done].
  cbn in Hloop.
  destruct (index_assign a0 w_mod mw) as [ww|] eqn:Ea; [|done]. cbn in Hloop.
  destruct (index_assign b0 r_mod mw) as [rw|] eqn:Eb; [|done]. cbn in Hloop.
  destruct (weight_loop mw rows) as [rest|] eqn:Er; [|done]. cbn in Hloop.
  injection Hloop as <-. constructor; [|by apply IH].
  split; simpl; by eapply index_assign_values.
Qed.
End collator_facts.

(** ** C5 and C10: the weight tensors of a batch *)

Section collate_facts.
Context {F : Type} (one zero : F) (is_nan : F → bool).
Context (pad_token_id : Z) (mod_token_weight : F).
Context (instances : list (InstanceDict F * InstanceDict F)).

(** A returned batch comes from the loop over the padded rows, starting
    from rows of ones. *)
Lemma collate_token_weights_inv tw :
  collate_token_weights one zero is_nan pad_token_id mod_token_weight
    instances = Some tw →
  ∃ win_ones rej_ones weights,
    length win_ones = length instances ∧
    length rej_ones = length instances ∧
    Forall (Forall (fun x => x = one)) win_ones ∧
    Forall (Forall (fun x => x = one)) rej_ones ∧
    weight_loop mod_token_weight
      (zip (zip (pad_sequence (map input_ids instances.*2) pad_token_id)
                (pad_sequence (map input_ids instances.*1) pad_token_id))
           (zip win_ones rej_ones)) = Some weights ∧
    win_token_weight tw = weights.*1 ∧
    rej_token_weight tw = weights.*2 ∧
    concatenated_token_weight tw = concate_pad weights.*1 weights.*2 zero.
Proof.
  unfold collate_token_weights.
  destruct (decide (instances = [])); [done|].
  destruct (negb _); [done|]. destruct (negb _); [done|].
  match goal with
  | |- context [weight_loop _ (zip _ (zip ?wo ?ro))] =>
      set (win_ones := wo); set (rej_ones := ro)
  end.
  destruct (weight_loop _ _) as [weights|] eqn:E; [|done]. cbn.
  destruct (negb _); [done|].
  destruct (any_nan _ _); [done|]. destruct (any_nan _ _); [done|].
  intros [= <-]. exists win_ones, rej_ones, weights.
  split_and!; try done.
  - unfold win_ones, pad_sequence. by rewrite ?length_map, ?length_fmap.
  - unfold rej_ones, pad_sequence. by rewrite ?length_map, ?length_fmap.
  - unfold win_ones. rewrite Forall_map. apply Forall_forall. intros row _.
    rewrite Forall_map. by apply Forall_forall.
  - unfold rej_ones. rewrite Forall_map. apply Forall_forall. intros row _.
    rewrite Forall_map. by apply Forall_forall.
Qed.
(** The NaN guard of the collator: a batch whose token weights contain a
    NaN is never returned ([exit()]). *)
Lemma collate_token_weights_no_nan tw :
  collate_token_weights one zero is_nan pad_token_id mod_token_weight
    instances = Some tw →
  any_nan is_nan (win_token_weight tw) = false ∧
  any_nan is_nan (rej_token_weight tw) = false.
Proof.
  unfold collate_token_weights.
  destruct (decide (instances = [])); [done|].
  destruct (negb _); [done|]. destruct (negb _); [done|].
  destruct (weight_loop _ _) as [weights|]; [|done]. cbn.
  destruct (negb _); [done|].
  destruct (any_nan _ _) eqn:E1; [done|].
  destruct (any_nan _ weights.*2) eqn:E2; [done|].
  by intros [= <-].
Qed.

Lemma slice_to_length (row : list F) (n : nat) :
  (Z.of_nat n - 1 ≤ Z.of_nat (length row))%Z →
  n - 1 ≤ length (slice_to row (Z.of_nat n - 1)).
Proof.
  intros Hle. unfold slice_to.
  destruct (decide (Z.of_nat n - 1 < 0)%Z); rewrite length_take; lia.
Qed.

Lemma any_nan_false (t : list (list F)) :
  Forall (Forall (fun x => is_nan x = false)) t → any_nan is_nan t = false.
Proof.
  intros Hall. unfold any_nan. apply not_true_iff_false.
  intros (row & Hrow & (x & Hx & Hnan)%existsb_exists)%existsb_exists.
  rewrite Forall_forall in Hall.
  specialize (Hall row (proj2 (list_elem_of_In _ _) Hrow)).
  rewrite Forall_forall in Hall.
  specialize (Hall x (proj2 (list_elem_of_In _ _) Hx)). congruence.
Qed.

(** The collator builds the weights whenever its own guards pass: a
    non-empty batch, reference log-probabilities long enough for both
    sides, equal lengths of ids and labels, and weights that are not NaN.
    In particular the index assignments never leave the rows. *)
Lemma collate_token_weights_returns :
  instances ≠ [] →
  (Z.of_nat (max_len (map input_ids instances.*2)) - 1
   ≤ Z.of_nat (max_len (map ref_per_token_logp instances.*2)))%Z →
  (Z.of_nat (max_len (map input_ids instances.*1)) - 1
   ≤ Z.of_nat (max_len (map ref_per_token_logp instances.*1)))%Z →
  Forall (fun ins => length (input_ids ins) = length (labels ins))
    (instances.*2 ++ instances.*1) →
  is_nan one = false → is_nan mod_token_weight = false →
  is_Some (collate_token_weights one zero is_nan pad_token_id mod_token_weight
             instances).
Proof.
  intros Hne Hw Hr Hlab Hone Hmod. unfold collate_token_weights.
  rewrite decide_False by done.
  assert (instances.*2 ≠ []) as Hne2 by (by destruct instances).
  assert (instances.*1 ≠ []) as Hne1 by (by destruct instances).
  rewrite !pad_sequence_size1
    by (try (by destruct instances); intros ?%map_eq_nil; done).
  rewrite !bool_decide_eq_true_2 by done. cbn [negb].
  set (win_ids := pad_sequence (map input_ids instances.*2) pad_token_id).
  set (rej_ids := pad_sequence (map input_ids instances.*1) pad_token_id).
  match goal with
  | |- context [weight_loop _ (zip _ (zip ?wo ?ro))] =>
      set (win_ones := wo); set (rej_ones := ro)
  end.
  assert (Forall (fun ww => max_len (map input_ids instances.*2) - 1 ≤ length ww
                            ∧ Forall (fun x => x = one) ww) win_ones) as Hwo.
  { unfold win_ones. rewrite !Forall_map. apply Forall_forall. intros row Hrow.
    rewrite length_map. split.
    - apply slice_to_length. by rewrite (pad_sequence_row_length _ _ _ Hrow).
    - rewrite Forall_map. by apply Forall_forall. }
  assert (Forall (fun rw => max_len (map input_ids instances.*1) - 1 ≤ length rw
                            ∧ Forall (fun x => x = one) rw) rej_ones) as Hro.
  { unfold rej_ones. rewrite !Forall_map. apply Forall_forall. intros row Hrow.
    rewrite length_map. split.
    - apply slice_to_length. by rewrite (pad_sequence_row_length _ _ _ Hrow).
    - rewrite Forall_map. by apply Forall_forall. }
  assert (Forall (fun row : (list Z * list Z) * (list F * list F) =>
            (length row.1.1 - 1 ≤ length row.2.1 ∧
             length row.1.2 - 1 ≤ length row.2.2) ∧
            (Forall (fun x => is_nan x = false) row.2.1 ∧
             Forall (fun x => is_nan x = false) row.2.2))
          (zip (zip win_ids rej_ids) (zip win_ones rej_ones))) as Hrows.
  { apply Forall_forall. intros [[w r] [ww rw]] Hin.
    pose proof (elem_of_zip_l _ _ _ _ Hin) as Hwr.
    pose proof (elem_of_zip_r _ _ _ _ Hin) as Hww.
    pose proof (elem_of_zip_l _ _ _ _ Hwr) as Hw'.
    pose proof (elem_of_zip_r _ _ _ _ Hwr) as Hr'.
    pose proof (elem_of_zip_l _ _ _ _ Hww) as Hww'.
    pose proof (elem_of_zip_r _ _ _ _ Hww) as Hrw'.
    rewrite Forall_forall in Hwo, Hro.
    destruct (Hwo _ Hww') as [Hl1 Ho1]. destruct (Hro _ Hrw') as [Hl2 Ho2].
    simpl. rewrite (pad_sequence_row_length _ _ _ Hw'),
      (pad_sequence_row_length _ _ _ Hr').
    split; [done|].
    split; (eapply Forall_impl; [eassumption|]); intros x ->; done. }
  destruct (weight_loop_total mod_token_weight
              (zip (zip win_ids rej_ids) (zip win_ones rej_ones)))
    as [weights Hloop].
  { eapply Forall_impl; [exact Hrows|]. by intros row [? _]. }
  rewrite Hloop. cbn.
  assert (forallb
            (fun ins => bool_decide (length (input_ids ins) = length (labels ins)))
            (instances.*2 ++ instances.*1) = true) as ->.
  { apply forallb_forall. intros ins Hin%list_elem_of_In.
    rewrite Forall_forall in Hlab. by apply bool_decide_eq_true, Hlab. }
  cbn [negb].
  pose proof (weight_loop_values mod_token_weight (fun x => is_nan x = false)
                _ _ Hloop Hmod) as Hvals.
  rewrite !any_nan_false; [by eexists| |].
  - rewrite Forall_fmap. eapply Forall_impl; [apply Hvals|].
    + eapply Forall_impl; [exact Hrows|]. by intros row [_ ?].
    + by intros wr [_ ?].
  - rewrite Forall_fmap. eapply Forall_impl; [apply Hvals|].
    + eapply Forall_impl; [exact Hrows|]. by intros row [_ ?].
    + by intros wr [? _].
Qed.
End collate_facts.



Example example_collate_value : example_collate = Some example_weights.
Proof. vm_compute. reflexivity. Qed.



(** ** The subsampler of [dpo_loss] *)

Lemma floor_check_spec fuel : ∀ n,
  floor_check fuel n = true →
  ∀ z, (n ≤ z < n + Z.of_nat fuel)%Z → sample_num_Z z = (4 * z / 5)%Z.
Proof.
  induction fuel as [|fuel IH]; intros n Hc z Hz; [lia|].
  cbn [floor_check] in Hc. apply andb_true_iff in Hc as [H1 H2].
  destruct (decide (z = n)) as [->|Hne].
  - by apply Z.eqb_eq.
  - apply (IH (n + 1)%Z H2). lia.
Qed.

Lemma floor_check_100000 : floor_check (Z.to_nat 100001) 0 = true.
Proof. vm_compute. reflexivity. Qed.

(** Up to 100000 examples the binary64 product truncates to
    [floor(0.8 * n)]. *)
Lemma sample_num_of_floor n :
  (Z.of_nat n ≤ 100000)%Z → sample_num_of n = 4 * n / 5.
Proof.
  intros Hn. unfold sample_num_of.
  rewrite (floor_check_spec _ _ floor_check_100000)
    by (rewrite Z2Nat.id by done; lia).
  rewrite <-(Nat2Z.id (4 * n / 5)). f_equal.
  rewrite Nat2Z.inj_div, Nat2Z.inj_mul. done.
Qed.

Lemma selected_elem idx n p : p ∈ selected idx n ↔ p < n ∧ p ∈ idx.
Proof.
  unfold selected. rewrite list_elem_of_filter, elem_of_seq. split.
  - intros [? ?]. split; [lia|done].
  - intros [? ?]. split; [done|lia].
Qed.

(** Distinct positions select as many examples as were drawn. *)
Lemma selected_NoDup idx n :
  NoDup idx → Forall (fun i => i < n) idx → length (selected idx n) = length idx.
Proof.
  intros Hnd Hall. apply Permutation_length, NoDup_Permutation.
  - apply NoDup_filter, NoDup_seq.
  - done.
  - intros p. rewrite selected_elem. rewrite Forall_forall in Hall.
    split; [by intros [_ ?]|]. intros Hp. split; [by apply Hall|done].
Qed.

(** A draw never selects more examples than it has positions. *)
Lemma selected_le idx n : length (selected idx n) ≤ length (remove_dups idx).
Proof.
  apply submseteq_length, NoDup_submseteq.
  - apply NoDup_filter, NoDup_seq.
  - intros p [_ Hp]%selected_elem. by apply elem_of_remove_dups.
Qed.

Section subsample_facts.
Context {F : Type} `{Scalar F}.

Lemma subsample_inv (ws : list F) idx mask :
  subsample ws idx = Some mask →
  index_assign (map (fun _ => of_real 0) ws) idx (of_real 1) = Some mask ∧
  (degenerate ws = true ∨
   multinomial_ok ws (sample_num_of (length ws)) = true).
Proof.
  unfold subsample.
  destruct (degenerate ws) eqn:E1; simpl; [by intros ->; auto|].
  destruct (multinomial_ok ws _) eqn:E2; [by intros ->; auto|done].
Qed.

(** The mask holds 1 exactly at the drawn positions and 0 elsewhere. *)
Lemma subsample_mask (ws : list F) idx mask :
  subsample ws idx = Some mask →
  length mask = length ws ∧
  ∀ p, p < length ws →
    mask !! p = Some (if decide (p ∈ idx) then of_real 1 else of_real 0).
Proof.
  intros [Hm _]%subsample_inv.
  pose proof (index_assign_inv _ _ _ _ Hm) as Hin.
  destruct (index_assign_spec idx (of_real 1) _ Hin) as (mask' & Hm' & Hlen & Hsp).
  rewrite Hm in Hm'. injection Hm' as <-.
  rewrite length_map in Hlen, Hsp. split; [done|].
  intros p Hp. rewrite (Hsp p Hp).
  destruct (decide (p ∈ idx)); [done|].
  rewrite list_lookup_fmap.
  by destruct (lookup_lt_is_Some_2 ws p Hp) as [x ->].
Qed.

End subsample_facts.

(** ** The loss over the reals *)

Lemma fleb_R (x y : R) : fleb x y = true ↔ (x <= y)%R.
Proof. simpl. destruct (Rle_dec x y); split; (done || lra). Qed.

Lemma fltb_R (x y : R) : fltb x y = true ↔ (x < y)%R.
Proof. simpl. destruct (Rlt_dec x y); split; (done || lra). Qed.

Lemma tsum_R_cons (x : R) t : tsum (x :: t) = (x + tsum t)%R.
Proof. done. Qed.

Lemma tsum_R_nonneg (t : list R) : Forall (fun w => 0 < w)%R t → (0 <= tsum t)%R.
Proof.
  induction 1 as [|x t Hx _ IH]; [simpl; lra|].
  rewrite tsum_R_cons. lra.
Qed.

Lemma tsum_R_pos (t : list R) :
  Forall (fun w => 0 < w)%R t → t ≠ [] → (0 < tsum t)%R.
Proof.
  intros Hall Hne. destruct Hall as [|x t Hx Ht]; [done|].
  rewrite tsum_R_cons. pose proof (tsum_R_nonneg t Ht). lra.
Qed.

(** Positive real weights never take the fallback path, and
    [torch.multinomial] accepts them for any legal number of samples. *)
Lemma degenerate_R_pos (ws : list R) :
  Forall (fun w => 0 < w)%R ws → ws ≠ [] → degenerate ws = false.
Proof.
  intros Hall Hne. unfold degenerate. apply orb_false_iff. split.
  - simpl. apply bool_decide_eq_false. pose proof (tsum_R_pos ws Hall Hne).
    simpl in *. lra.
  - clear. induction ws as [|w ws IH]; [done|]. simpl. exact IH.
Qed.

Lemma multinomial_ok_R_pos (ws : list R) k :
  Forall (fun w => 0 < w)%R ws → 0 < k → k ≤ length ws →
  multinomial_ok ws k = true.
Proof.
  intros Hall Hk1 Hk2. unfold multinomial_ok.
  rewrite !bool_decide_eq_true_2 by done. simpl.
  assert (ws ≠ []) as Hne by (destruct ws; [simpl in *; lia|done]).
  apply andb_true_iff. split.
  - apply forallb_forall. intros w Hw%list_elem_of_In.
    rewrite Forall_forall in Hall. specialize (Hall w Hw).
    rewrite andb_true_r. destruct (Rle_dec 0 w); [done|lra].
  - pose proof (tsum_R_pos ws Hall Hne) as Hs. simpl in Hs.
    apply negb_true_iff, bool_decide_eq_false. lra.
Qed.

Lemma sigmoid_pos x : (0 < sigmoid x)%R.
Proof.
  unfold sigmoid. pose proof (exp_pos (- x)).
  apply Rdiv_lt_0_compat; lra.
Qed.

Lemma sigmoid_lt_1 x : (sigmoid x < 1)%R.
Proof.
  unfold sigmoid. pose proof (exp_pos (- x)) as He.
  unfold Rdiv. rewrite Rmult_1_l. rewrite <-Rinv_1 at 2.
  apply Rinv_lt_contravar; lra.
Qed.

Lemma sigmoid_0 : sigmoid 0 = (1 / 2)%R.
Proof. unfold sigmoid. rewrite Ropp_0, exp_0. lra. Qed.

Lemma sigmoid_increasing x y : (x < y)%R → (sigmoid x < sigmoid y)%R.
Proof.
  intros Hxy. unfold sigmoid.
  pose proof (exp_pos (- x)). pose proof (exp_pos (- y)).
  assert (exp (- y) < exp (- x))%R by (apply exp_increasing; lra).
  unfold Rdiv. rewrite !Rmult_1_l.
  apply Rinv_lt_contravar; [|lra].
  apply Rmult_lt_0_compat; lra.
Qed.

Lemma logsigmoid_increasing x y : (x < y)%R → (logsigmoid x < logsigmoid y)%R.
Proof.
  intros Hxy. unfold logsigmoid.
  apply ln_increasing; [apply sigmoid_pos|by apply sigmoid_increasing].
Qed.

Lemma clamp_min_R (c x : R) : clamp_min c x = Rmax c x.
Proof.
  unfold clamp_min. simpl. unfold Rmax.
  destruct (Rlt_dec x c), (Rle_dec c x); lra.
Qed.

Lemma clamp_min_R_ge (c x : R) : (c <= clamp_min c x)%R.
Proof. rewrite clamp_min_R. apply Rmax_l. Qed.

(** ** C2 and C4: how many examples the subsampler selects *)

Lemma unit_weights_pos n : Forall (fun w => 0 < w)%R (unit_weights n).
Proof. apply Forall_replicate. lra. Qed.

Lemma subsample_unit_weights n idx :
  0 < sample_num_of n → sample_num_of n ≤ n →
  subsample (unit_weights n) idx
  = index_assign (replicate n 0%R) idx 1%R.
Proof.
  intros H1 H2. unfold subsample, unit_weights.
  rewrite length_replicate.
  rewrite multinomial_ok_R_pos, orb_true_r;
    [|apply unit_weights_pos|done|by rewrite length_replicate].
  f_equal. induction n as [|n IH]; [done|]. simpl. f_equal.
  clear. induction n; simpl; by f_equal.
Qed.



Lemma degenerate_zero_weights n : degenerate (zero_weights n) = true.
Proof.
  unfold degenerate. apply orb_true_iff. left. simpl.
  apply bool_decide_eq_true.
  induction n as [|n IH]; [done|].
  unfold zero_weights in *. simpl in *. rewrite IH. lra.
Qed.

(** The fallback path raises nothing, whatever [random.choices] returns. *)
Lemma fallback_returns {F : Type} `{Scalar F} (ws : list F) idx :
  degenerate ws = true → possible_draw ws idx → is_Some (subsample ws idx).
Proof.
  intros Hd (_ & Hin & _). unfold subsample. rewrite Hd. simpl.
  destruct (index_assign_spec idx (of_real 1) (map (fun _ => of_real 0) ws))
    as (mask & -> & _); [by rewrite length_map|by eexists].
Qed.

(** C4 on the code: with all five weights zero the fallback draws four
    positions with [random.choices], which may repeat one; the draw
    [0, 0, 1, 2] gives a mask with three ones, not four. *)
Lemma fallback_draw_repeats_a_position :
  degenerate (zero_weights 5) = true ∧
  possible_draw (zero_weights 5) [0; 0; 1; 2] ∧
  subsample (zero_weights 5) [0; 0; 1; 2] = Some [1; 1; 1; 0; 0]%R ∧
  sample_num_of 5 = 4 ∧
  length (selected [0; 0; 1; 2] 5) = 3.
Proof.
  pose proof (degenerate_zero_weights 5) as Hd.
  split_and!.
  - done.
  - split_and!.
    + vm_compute. reflexivity.
    + repeat constructor.
    + intros Hn. rewrite Hd in Hn. discriminate.
  - unfold subsample. rewrite Hd. reflexivity.
  - vm_compute. reflexivity.
  - vm_compute. reflexivity.
Qed.

(** ** What [dpo_loss] returns *)

Lemma zip_with_map_same {A B C D} (f : B → C → D) (g : A → B) (h : A → C) l :
  zip_with f (map g l) (map h l) = map (fun x => f (g x) (h x)) l.
Proof. induction l as [|x l IH]; simpl; [done|]. by rewrite IH. Qed.

Section dpo_loss_facts.
Context {F : Type} `{Scalar F}.

(** A returned result comes from a successful subsampling, and its fields
    are the per-example formulas of the source. *)
Lemma dpo_loss_inv (batch : list (BatchRow F)) beta rank world_size peers
    gap_mean gap_std reference_free sample_index out :
  dpo_loss batch beta rank world_size peers gap_mean gap_std reference_free
    sample_index = Some out →
  let A := gathered batch rank world_size peers in
  ∃ sampled,
    subsample (weight_sample_of gap_mean A) sample_index
      = Some (global_mask out) ∧
    gather (map fsigmoid A) sample_index = Some sampled ∧
    A_sigmoid_average out = tmean sampled ∧
    beta_used out
      = map (fun e => clamp_min (of_real (1 / 1000))
                        (beta_before_clamp beta gap_mean sampled e)) batch ∧
    beta_clamped out
      = count_le (of_real (1 / 1000))
          (map (beta_before_clamp beta gap_mean sampled) batch) ∧
    losses out
      = map (fun e => fneg (flogsigmoid
                        (fmul (clamp_min (of_real (1 / 1000))
                                 (beta_before_clamp beta gap_mean sampled e))
                              (logits_of reference_free e)))) batch.
Proof.
  unfold dpo_loss, gathered. intros Hd.
  destruct (subsample _ sample_index) as [mask|]; [|done]. cbn in Hd.
  destruct (gather _ sample_index) as [sampled|]; [|done]. cbn in Hd.
  injection Hd as <-. exists sampled. cbn.
  split_and!; try done.
  - by rewrite !map_map.
  - by rewrite !map_map.
  - rewrite !map_map. by rewrite zip_with_map_same.
Qed.

(** [dpo_loss] returns whenever the subsampler does and the draw is in
    range. *)
Lemma dpo_loss_returns (batch : list (BatchRow F)) beta rank world_size peers
    gap_mean gap_std reference_free sample_index :
  let A := gathered batch rank world_size peers in
  is_Some (subsample (weight_sample_of gap_mean A) sample_index) →
  is_Some (dpo_loss batch beta rank world_size peers gap_mean gap_std
             reference_free sample_index).
Proof.
  unfold dpo_loss, gathered. intros [mask Hs]. rewrite Hs. cbn.
  apply subsample_inv in Hs as [Hm _]. apply index_assign_inv in Hm.
  rewrite length_map in Hm. unfold weight_sample_of in Hm.
  rewrite length_map in Hm.
  assert (is_Some (gather (map fsigmoid
            (all_gather_if_needed (map A_gap_of batch) rank world_size peers))
            sample_index)) as [sampled ->]; [|by eexists].
  unfold gather. clear -Hm.
  induction Hm as [|i idx Hi _ IH]; [by eexists|].
  destruct IH as [rest IH].
  destruct (lookup_lt_is_Some_2 (map fsigmoid
    (all_gather_if_needed (map A_gap_of batch) rank world_size peers)) i)
    as [x Hx]; [by rewrite length_map|].
  exists (x :: rest). cbn. rewrite Hx. cbn.
  change (mapM ?f idx) with (mapM f idx) in IH. rewrite IH. done.
Qed.
End dpo_loss_facts.

(** ** C7: the effective temperature *)

Lemma weight_sample_of_R_pos (mean : R) A :
  Forall (fun w => 0 < w)%R (weight_sample_of mean A).
Proof.
  unfold weight_sample_of. rewrite Forall_map. apply Forall_forall.
  intros x _. simpl. apply exp_pos.
Qed.

(** Over the reals [dpo_loss] returns for every draw in range, as soon as
    the sample size is legal for [torch.multinomial]. *)
Lemma dpo_loss_R_returns (batch : list (BatchRow R)) beta rank world_size peers
    gap_mean gap_std reference_free sample_index :
  let A := gathered batch rank world_size peers in
  Forall (fun i => i < length A) sample_index →
  0 < sample_num_of (length A) → sample_num_of (length A) ≤ length A →
  is_Some (dpo_loss batch beta rank world_size peers gap_mean gap_std
             reference_free sample_index).
Proof.
  intros A Hin H1 H2. apply dpo_loss_returns. fold A.
  unfold subsample.
  assert (length (weight_sample_of gap_mean A) = length A) as Hl
    by (unfold weight_sample_of; by rewrite length_map).
  rewrite Hl. rewrite multinomial_ok_R_pos, orb_true_r;
    [|apply weight_sample_of_R_pos|done|by rewrite Hl].
  destruct (index_assign_spec sample_index (1%R : R)
              (map (fun _ => (0%R : R)) (weight_sample_of gap_mean A)))
    as (mask & Hm & _); [by rewrite length_map, Hl|].
  exists mask. exact Hm.
Qed.

Lemma count_le_R_map {A} (f : A → R) (c : R) l :
  count_le c (map f l) = length (filter (fun x => (f x <= c)%R) l).
Proof.
  unfold count_le. induction l as [|x l IH]; [done|].
  rewrite map_cons, !filter_cons.
  destruct (decide (fleb (f x) c = true)) as [Ht|Hf].
  - apply fleb_R in Ht. rewrite decide_True by done. cbn [length]. by rewrite IH.
  - rewrite decide_False; [done|]. intros Hle. by apply Hf, fleb_R.
Qed.



(** ** C3: [reference_free] and the reference log-probabilities *)

Lemma tmean_R_singleton (x : R) : tmean [x] = x.
Proof. unfold tmean. simpl. lra. Qed.

(** The loss of the first example of a two-example batch, with the sample
    [0], in terms of its gap [a] and its logit [l]. *)
Lemma first_loss_R (e : BatchRow R) rf out :
  dpo_loss (replicate 2 e) 1%R 0 1 no_peers 0%R 0%R rf [0] = Some out →
  losses out !! 0
  = Some (- logsigmoid
            (Rmax (1 / 1000)
               (1 * (this_logits_of e * (sigmoid (A_gap_of e) / sigmoid 0)))
             * logits_of rf e))%R.
Proof.
  intros Hd.
  destruct (dpo_loss_inv _ _ _ _ _ _ _ _ _ _ Hd)
    as (sampled & _ & Hg & _ & _ & _ & Hl).
  cbn in Hg. injection Hg as <-.
  rewrite Hl. cbn [replicate map lookup list_lookup]. f_equal.
  rewrite clamp_min_R. unfold beta_before_clamp.
  rewrite tmean_R_singleton. reflexivity.
Qed.

(** C3 on the code: with [reference_free = True], the same policy
    log-probabilities, the same confidence scores and the same draw, the
    loss changes when only [reference_chosen_logps] changes from 0 to 1,
    because the gap [A] that sets the temperature still uses the
    reference. *)
Theorem reference_free_loss_depends_on_reference :
  ∃ out1 out2,
    dpo_loss zero_ref_batch 1%R 0 1 no_peers 0%R 0%R true [0] = Some out1 ∧
    dpo_loss other_ref_batch 1%R 0 1 no_peers 0%R 0%R true [0] = Some out2 ∧
    losses out1 ≠ losses out2.
Proof.
  destruct (dpo_loss_R_returns zero_ref_batch 1%R 0 1 no_peers 0%R 0%R true [0])
    as [out1 H1]; [repeat constructor|vm_compute; lia|vm_compute; lia|].
  destruct (dpo_loss_R_returns other_ref_batch 1%R 0 1 no_peers 0%R 0%R true [0])
    as [out2 H2]; [repeat constructor|vm_compute; lia|vm_compute; lia|].
  exists out1, out2. split; [done|]. split; [done|].
  intros Heq.
  pose proof (first_loss_R _ _ _ H1) as L1.
  pose proof (first_loss_R _ _ _ H2) as L2.
  rewrite Heq, L2 in L1. injection L1 as L.
  unfold this_logits_of, A_gap_of, logits_of in L. simpl in L.
  set (sk := sigmoid (482190464911681 / 10000000000000000)) in L.
  pose proof (sigmoid_pos (482190464911681 / 10000000000000000)) as Hk0.
  pose proof (sigmoid_lt_1 (482190464911681 / 10000000000000000)) as Hk1.
  fold sk in Hk0, Hk1.
  replace (0 - 0)%R with 0%R in L by lra.
  replace (1 - 0 - 1 + 0)%R with 0%R in L by lra.
  replace (1 - 0 - 0 + 0)%R with 1%R in L by lra.
  replace (1 - 0 - 0)%R with 1%R in L by lra.
  rewrite sigmoid_0 in L.
  assert (1 / 2 < sigmoid 1)%R as Hs1.
  { rewrite <-sigmoid_0. apply sigmoid_increasing. lra. }
  set (s1 := sigmoid 1) in *.
  assert (1 < / sk)%R as Hinv.
  { rewrite <-Rinv_1 at 1. apply Rinv_lt_contravar; lra. }
  set (p := (/ sk)%R) in *.
  assert (1 * (1 / 2 / sk * (1 / 2 / (1 / 2))) = 1 / 2 * p)%R as E2
    by (unfold p; field; lra).
  assert (1 * (1 / 2 / sk * (s1 / (1 / 2))) = p * s1)%R as E1
    by (unfold p; field; lra).
  rewrite E1, E2 in L.
  assert (1 / 2 * p < p * s1)%R as Hlt by nra.
  rewrite !Rmax_right in L by nra.
  assert (logsigmoid (1 / 2 * p * 1) < logsigmoid (p * s1 * 1))%R
    by (apply logsigmoid_increasing; lra).
  lra.
Qed.

(** ** C8: one update of the running statistics *)

Lemma ema_from_zero (batch_stat : R) :
  ema (9 / 10)%R 0%R batch_stat = (1 / 10 * batch_stat)%R.
Proof. unfold ema. simpl. lra. Qed.

(** C8. With one process, the four running statistics at zero and
    [gamma = 0.9], one call of [update_and_sync_tensor_mean] leaves each
    running statistic equal to 0.1 times the batch statistic: the mean and
    the standard deviation of the gaps, and of the losses. *)
Theorem first_update_is_tenth_of_batch_statistics (gap_local loss_local : list R)
    (rank : nat) (peers : nat → Stats R) :
  update_and_sync_tensor_mean (mkStats 0 0 0 0)%R gap_local loss_local
    (9 / 10)%R rank 1 peers
  = mkStats (1 / 10 * tmean gap_local)%R (1 / 10 * tstd gap_local)%R
            (1 / 10 * tmean loss_local)%R (1 / 10 * tstd loss_local)%R.
Proof.
  unfold update_and_sync_tensor_mean.
  rewrite decide_False by lia. cbn [gap_mean_ gap_std_ loss_mean_ loss_std_].
  by rewrite !ema_from_zero.
Qed.

(** ** C9: NaN in the inputs of the loss *)

Lemma tsum_NaN (ws : list (option R)) : None ∈ ws → tsum ws = None.
Proof.
  induction ws as [|w ws IH]; [by intros ?%elem_of_nil|].
  intros [<-|Hin]%elem_of_cons; [done|].
  unfold tsum in *. cbn [foldr]. rewrite (IH Hin). by destruct w.
Qed.

Lemma A_gap_of_NaN (e : BatchRow (option R)) :
  policy_chosen_logp e = None ∨ policy_rejected_logp e = None ∨
  reference_chosen_logp e = None ∨ reference_rejected_logp e = None →
  A_gap_of e = None.
Proof.
  unfold A_gap_of. simpl.
  destruct (policy_chosen_logp e), (policy_rejected_logp e),
    (reference_chosen_logp e), (reference_rejected_logp e); simpl;
    intros [?|[?|[?|?]]]; done.
Qed.

Lemma all_gather_includes {F} (values : list F) rank world_size peers x :
  world_size = 1 ∨ rank < world_size →
  x ∈ values → x ∈ all_gather_if_needed values rank world_size peers.
Proof.
  intros Hw Hx. unfold all_gather_if_needed.
  destruct (decide (world_size = 1)); [done|].
  destruct Hw as [?|Hr]; [done|].
  apply list_elem_of_In, in_concat. exists values. split; [|by apply list_elem_of_In].
  apply in_map_iff. exists rank. split; [by rewrite decide_True|].
  apply in_seq. lia.
Qed.

Lemma weight_sample_of_NaN (mean : option R) A :
  None ∈ A → None ∈ weight_sample_of mean A.
Proof.
  intros Hin. unfold weight_sample_of.
  apply list_elem_of_In, in_map_iff. exists None.
  split; [done|by apply list_elem_of_In].
Qed.

(** NaN weights do not take the fallback path, and [torch.multinomial]
    rejects them. *)
Lemma subsample_NaN (ws : list (option R)) idx :
  None ∈ ws → subsample ws idx = None.
Proof.
  intros Hin. unfold subsample.
  assert (degenerate ws = false) as ->.
  { unfold degenerate. rewrite (tsum_NaN ws Hin). simpl.
    clear. induction ws as [|w ws IH]; [done|]. exact IH. }
  assert (multinomial_ok ws (sample_num_of (length ws)) = false) as ->; [|done].
  unfold multinomial_ok. apply andb_false_iff. left.
  apply andb_false_iff. right.
  apply not_true_iff_false. intros Hall.
  rewrite forallb_forall in Hall.
  specialize (Hall None (proj1 (list_elem_of_In _ _) Hin)). done.
Qed.

(** C9, amended. If a policy or reference log-probability of the batch is
    NaN, the gathered gaps and the sampling weights contain a NaN,
    [torch.multinomial] rejects them and [dpo_loss] raises before any loss
    value exists. *)
Theorem nan_log_probability_raises (batch : list (BatchRow (option R)))
    (beta : option R) (rank world_size : nat) (peers : nat → list (option R))
    (gap_mean gap_std : option R) (reference_free : bool)
    (sample_index : list nat) :
  has_nan_logp batch →
  world_size = 1 ∨ rank < world_size →
  dpo_loss batch beta rank world_size peers gap_mean gap_std reference_free
    sample_index = None.
Proof.
  intros (e & He & Hnan) Hw. unfold dpo_loss.
  rewrite subsample_NaN; [done|].
  apply weight_sample_of_NaN, all_gather_includes; [done|].
  rewrite <-(A_gap_of_NaN e Hnan).
  apply list_elem_of_In, in_map, list_elem_of_In, He.
Qed.

Lemma nan_log_probability_raises_witness :
  has_nan_logp nan_logp_batch ∧ (1 = 1 ∨ 0 < 1) ∧
  dpo_loss nan_logp_batch (Some 1%R) 0 1 no_peers (Some 0%R) (Some 0%R) false [0]
  = None.
Proof.
  assert (has_nan_logp nan_logp_batch) as Hn.
  { eexists. split; [left|]. left. reflexivity. }
  split; [exact Hn|]. split; [by left|].
  apply (nan_log_probability_raises nan_logp_batch (Some 1%R) 0 1 no_peers
           (Some 0%R) (Some 0%R) false [0] Hn).
  by left.
Defined.

(** The NaN instance agrees with the reals on finite tensors. *)
Lemma tsum_Some (ws : list R) : tsum (map Some ws) = Some (tsum ws).
Proof.
  induction ws as [|w ws IH]; [done|].
  unfold tsum in *. cbn [map foldr]. by rewrite IH.
Qed.

Lemma degenerate_Some (ws : list R) : degenerate (map Some ws) = degenerate ws.
Proof.
  unfold degenerate. rewrite tsum_Some. f_equal.
  induction ws as [|w ws IH]; [done|]. exact IH.
Qed.

Lemma multinomial_ok_Some (ws : list R) k :
  multinomial_ok (map Some ws) k = multinomial_ok ws k.
Proof.
  unfold multinomial_ok. rewrite tsum_Some, length_map. f_equal. f_equal.
  induction ws as [|w ws IH]; [done|]. cbn [map forallb]. by rewrite IH.
Qed.

(** C9 as stated fails: with a NaN in the auxiliary confidence and finite
    log-probabilities, [dpo_loss] returns, the loss of the poisoned example
    is NaN, and [compute_loss] returns a NaN loss; nothing is raised. *)
Lemma nan_confidence_is_not_detected :
  has_nan nan_confidence_batch ∧
  (∃ out,
     dpo_loss nan_confidence_batch (Some 1%R) 0 1 no_peers (Some 0%R) (Some 0%R)
       false [0] = Some out ∧
     losses out !! 0 = Some None) ∧
  compute_loss nan_confidence_batch (Some 1%R) 0 1 no_peers (Some 0%R)
    (Some 0%R) [0] = Some None.
Proof.
  set (w := exp (- (1 / 2) * ((0 - 0 - 0 + 0 - 0) * (0 - 0 - 0 + 0 - 0)))).
  assert (subsample
            (weight_sample_of (Some 0%R)
               (gathered nan_confidence_batch 0 1 no_peers)) [0]
          = Some [Some 1%R; Some 0%R]) as Hs.
  { change (weight_sample_of _ _) with (map Some [w; w]).
    unfold subsample. rewrite multinomial_ok_Some, length_map.
    rewrite multinomial_ok_R_pos, orb_true_r; [done| | |].
    - repeat constructor; apply exp_pos.
    - vm_compute. lia.
    - vm_compute. lia. }
  unfold gathered in Hs.
  split_and!.
  - eexists. split; [left|]. do 4 right. left. reflexivity.
  - unfold dpo_loss. rewrite Hs. cbn. eexists. split; [reflexivity|]. done.
  - unfold compute_loss, dpo_loss. rewrite Hs. cbn.
    unfold masked_mean. cbn. done.
Qed.

(** ** The matcher only pairs equal elements *)

Section find_longest_match_true.
Context (a b : list Z) (b2j : gmap Z (list nat)).
Hypothesis Hb2j : b2j_ok b b2j.

Lemma row_indices_same i j :
  j ∈ row_indices a b2j i → ∃ x, a !! i = Some x ∧ b !! j = Some x.
Proof.
  unfold row_indices. destruct (a !! i) as [x|] eqn:Ea; simpl.
  - destruct (b2j !! x) as [l|] eqn:El; simpl.
    + intros Hj. exists x. split; [done|].
      by apply (proj2 (Hb2j x l El)).
    + by intros ?%elem_of_nil.
  - by intros ?%elem_of_nil.
Qed.

Lemma is_match_snoc i j k0 x :
  k0 ≤ i → k0 ≤ j →
  (k0 ≠ 0 → is_match a b (mkMatch (i - k0) (j - k0) k0)) →
  a !! i = Some x → b !! j = Some x →
  is_match a b (mkMatch (S i - (k0 + 1)) (S j - (k0 + 1)) (k0 + 1)).
Proof.
  intros Hi Hj Hm Ha Hb t Ht. cbn [ma mb msize] in *.
  destruct (decide (t = k0)) as [->|Hne].
  - exists x. split.
    + by replace (S i - (k0 + 1) + k0) with i by lia.
    + by replace (S j - (k0 + 1) + k0) with j by lia.
  - assert (Hk0 : k0 ≠ 0) by lia.
    destruct (Hm Hk0 t) as (y & Hy1 & Hy2); [simpl; lia|].
    cbn [ma mb msize] in *. exists y. split.
    + by replace (S i - (k0 + 1) + t) with (i - k0 + t) by lia.
    + by replace (S j - (k0 + 1) + t) with (j - k0 + t) by lia.
Qed.

Lemma j2lenget_true i j2len j :
  j2len_true a b i j2len →
  j2lenget j2len j ≤ i ∧ j2lenget j2len j ≤ j ∧
  (j2lenget j2len j ≠ 0 →
   is_match a b (mkMatch (i - j2lenget j2len j) (j - j2lenget j2len j)
                   (j2lenget j2len j))).
Proof.
  intros Hok. destruct j as [|j']; simpl; [split_and!; [lia|lia|done]|].
  destruct (j2len !! j') as [k|] eqn:E; simpl; [|split_and!; [lia|lia|done]].
  destruct (Hok _ _ E) as (? & ? & ?). split_and!; [done|lia|].
  intros _. done.
Qed.

Lemma scan_row_true i blo bhi j2len js : ∀ newj2len best,
  (∀ j, j ∈ js → ∃ x, a !! i = Some x ∧ b !! j = Some x) →
  j2len_true a b i j2len → j2len_true a b (S i) newj2len → is_match a b best →
  j2len_true a b (S i) (scan_row i blo bhi j2len js newj2len best).1 ∧
  is_match a b (scan_row i blo bhi j2len js newj2len best).2.
Proof.
  induction js as [|j js IH]; intros newj2len best Hjs Hprev Hnew Hbest;
    simpl; [done|].
  assert (Hjs' : ∀ j0, j0 ∈ js → ∃ x, a !! i = Some x ∧ b !! j0 = Some x).
  { intros j0 Hj0. apply Hjs. by right. }
  destruct (decide (j < blo)); [by apply IH|].
  destruct (decide (bhi ≤ j)); [done|].
  destruct (Hjs j ltac:(left)) as (x & Hax & Hbx).
  destruct (j2lenget_true i j2len j Hprev) as (Hk1 & Hk2 & Hk3).
  pose proof (is_match_snoc i j _ x Hk1 Hk2 Hk3 Hax Hbx) as Hrun.
  apply IH; [done|done| |].
  - intros j0 k0. rewrite lookup_insert.
    destruct (decide (j = j0)) as [->|]; [|by apply Hnew].
    intros [= <-]. split; [lia|]. split; [lia|]. done.
  - destruct (decide (msize best < j2lenget j2len j + 1)); [|done].
    by replace (i + 1 - (j2lenget j2len j + 1))
      with (S i - (j2lenget j2len j + 1)) by lia;
    replace (j + 1 - (j2lenget j2len j + 1))
      with (S j - (j2lenget j2len j + 1)) by lia.
Qed.

Lemma j2len_true_empty i : j2len_true a b i ∅.
Proof. intros j k. by rewrite lookup_empty. Qed.

Lemma scan_rows_true blo bhi rows : ∀ j2len best,
  match rows with
  | [] => True
  | i :: _ => j2len_true a b i j2len
  end →
  is_match a b best →
  (∀ k i i', rows !! k = Some i → rows !! S k = Some i' → i' = S i) →
  is_match a b (scan_rows a b2j blo bhi rows j2len best).
Proof.
  induction rows as [|i rows IH]; intros j2len best Hj Hbest Hrows; simpl;
    [done|].
  destruct (scan_row i blo bhi j2len (row_indices a b2j i) ∅ best)
    as [newj2len best'] eqn:E.
  destruct (scan_row_true i blo bhi j2len (row_indices a b2j i) ∅ best)
    as [H1 H2]; [apply row_indices_same|done|apply j2len_true_empty|done|].
  rewrite E in H1, H2. simpl in *.
  apply IH; [|done|].
  - destruct rows as [|i' rows']; [done|].
    by rewrite (Hrows 0 i i' eq_refl eq_refl).
  - intros k i1 i2 ??. by apply (Hrows (S k)).
Qed.

Lemma same_at_true i j :
  same_at a b i j = true → ∃ x, a !! i = Some x ∧ b !! j = Some x.
Proof.
  unfold same_at. destruct (a !! i) as [x|], (b !! j) as [y|]; try done.
  intros ->%bool_decide_eq_true. by exists y.
Qed.

Lemma extend_left_true wj alo blo besti : ∀ bestj bestsize,
  is_match a b (mkMatch besti bestj bestsize) →
  is_match a b (extend_left wj a b alo blo besti bestj bestsize).
Proof.
  induction besti as [|i' IH]; intros bestj bestsize Hb; simpl; [done|].
  destruct bestj as [|j']; [done|].
  destruct (bool_decide (alo < S i') && bool_decide (blo < S j')
            && junk_ok wj b j' && same_at a b i' j') eqn:E; [|done].
  apply IH. rewrite !andb_true_iff in E. destruct E as [_ Hsame].
  destruct (same_at_true _ _ Hsame) as (x & Hax & Hbx).
  intros t Ht. simpl in *. destruct t as [|t].
  - exists x. by rewrite !Nat.add_0_r.
  - destruct (Hb t) as (y & Hy1 & Hy2); [simpl in *; lia|]. simpl in *.
    exists y. split.
    + by replace (i' + S t) with (S i' + t) by lia.
    + by replace (j' + S t) with (S j' + t) by lia.
Qed.

Lemma extend_right_loop_true wj ahi bhi fuel : ∀ besti bestj bestsize,
  is_match a b (mkMatch besti bestj bestsize) →
  is_match a b
    (mkMatch besti bestj
       (extend_right_loop fuel wj a b ahi bhi besti bestj bestsize)).
Proof.
  induction fuel as [|fuel IH]; intros besti bestj bestsize Hb; simpl; [done|].
  destruct (bool_decide (besti + bestsize < ahi)
            && bool_decide (bestj + bestsize < bhi)
            && junk_ok wj b (bestj + bestsize)
            && same_at a b (besti + bestsize) (bestj + bestsize)) eqn:E; [|done].
  apply IH. rewrite !andb_true_iff in E. destruct E as [_ Hsame].
  destruct (same_at_true _ _ Hsame) as (x & Hax & Hbx).
  intros t Ht. simpl in *.
  destruct (decide (t = bestsize)) as [->|]; [by exists x|].
  apply Hb. simpl. lia.
Qed.

Lemma extend_true wj alo ahi blo bhi m :
  is_match a b m → is_match a b (extend wj a b alo ahi blo bhi m).
Proof.
  intros Hm. unfold extend, extend_right.
  apply extend_right_loop_true.
  pose proof (extend_left_true wj alo blo (ma m) (mb m) (msize m)) as H.
  destruct (extend_left wj a b alo blo (ma m) (mb m) (msize m)).
  apply H. by destruct m.
Qed.

Lemma find_longest_match_true alo ahi blo bhi :
  is_match a b (find_longest_match a b b2j alo ahi blo bhi).
Proof.
  unfold find_longest_match. do 2 apply extend_true.
  apply scan_rows_true.
  - destruct (seq alo (ahi - alo)); [done|apply j2len_true_empty].
  - intros t Ht. simpl in Ht. lia.
  - intros k i i' H1 H2.
    apply lookup_seq in H1 as [-> _]. apply lookup_seq in H2 as [-> _]. lia.
Qed.

Lemma matching_loop_true fuel : ∀ queue blocks,
  Forall (is_match a b) blocks →
  Forall (is_match a b) (matching_loop fuel a b b2j queue blocks).
Proof.
  induction fuel as [|fuel IH]; intros queue blocks Hb; cbn [matching_loop];
    [done|].
  destruct queue as [|r queue]; [done|].
  destruct (decide (msize (find_longest_match a b b2j (alo r) (ahi r) (blo r)
                             (bhi r)) = 0)); [by apply IH|].
  apply IH, Forall_app. split; [done|].
  apply Forall_singleton, find_longest_match_true.
Qed.
End find_longest_match_true.

Lemma is_match_join a b cur m2 :
  ma cur + msize cur = ma m2 → mb cur + msize cur = mb m2 →
  is_match a b cur → is_match a b m2 →
  is_match a b (mkMatch (ma cur) (mb cur) (msize cur + msize m2)).
Proof.
  intros Ha Hb Hc Hm t Ht. simpl in *.
  destruct (decide (t < msize cur)) as [Hlt|Hge]; [by apply Hc|].
  destruct (Hm (t - msize cur)) as (x & Hx1 & Hx2); [lia|].
  exists x. split.
  - by replace (ma cur + t) with (ma m2 + (t - msize cur)) by lia.
  - by replace (mb cur + t) with (mb m2 + (t - msize cur)) by lia.
Qed.

Lemma collapse_true a b blocks : ∀ cur,
  is_match a b cur → Forall (is_match a b) blocks →
  Forall (is_match a b) (collapse cur blocks).
Proof.
  induction blocks as [|m2 rest IH]; intros cur Hc Hb; simpl.
  { by apply Forall_emit. }
  apply Forall_cons in Hb as [Hm Hrest].
  destruct (bool_decide (ma cur + msize cur = ma m2)
            && bool_decide (mb cur + msize cur = mb m2)) eqn:E.
  - rewrite andb_true_iff, !bool_decide_eq_true in E. destruct E.
    apply IH; [by apply is_match_join|done].
  - apply Forall_app. split; [by apply Forall_emit|by apply IH].
Qed.

Lemma get_matching_blocks_true a b :
  Forall (is_match a b) (get_matching_blocks a b).
Proof.
  unfold get_matching_blocks. apply Forall_app. split.
  - apply collapse_true; [intros t Ht; simpl in Ht; lia|].
    rewrite sort_blocks_perm.
    apply matching_loop_true; [apply chain_b_ok|done].
  - apply Forall_singleton. intros t Ht; simpl in Ht; lia.
Qed.

Lemma is_match_slice a b m :
  is_match a b m → slice a (a_match m) = slice b (b_match m).
Proof.
  intros Hm. unfold slice, a_match, b_match. simpl.
  replace (ma m + msize m - ma m) with (msize m) by lia.
  replace (mb m + msize m - mb m) with (msize m) by lia.
  apply list_eq. intros t.
  destruct (decide (t < msize m)) as [Ht|Ht].
  - rewrite !lookup_take_lt, !lookup_drop by done.
    destruct (Hm t Ht) as (x & -> & ->). done.
  - rewrite !lookup_take_ge by lia. done.
Qed.

Lemma retained_blocks_true a b mms :
  ∃ blocks,
    retained_blocks a b mms = blocks ++ [mkMatch (length a) (length b) 0] ∧
    Forall (fun m => 0 < msize m ∧ mms ≤ msize m ∧
                     within (root_region a b) m ∧ is_match a b m) blocks.
Proof.
  destruct (get_matching_blocks_spec a b) as (blocks & Heq & Hch & Hw).
  pose proof (get_matching_blocks_true a b) as Ht.
  unfold retained_blocks. rewrite Heq in Ht |- *.
  rewrite removelast_last, last_last.
  eexists. split; [done|].
  apply Forall_app in Ht as [Ht _].
  apply Forall_forall. intros m Hm. apply list_elem_of_filter in Hm as [Hm1 Hm2].
  rewrite Forall_forall in Hw, Ht. destruct (Hw m Hm2). split_and!; auto.
Qed.

(** X1. [get_match_info] pairs spans that hold the same tokens: the k-th
    span of [a_seq] and the k-th span of [b_seq] lie inside their
    sequences, have the same length, and the two slices are equal.  Every
    span but the last is at least [min_match_size] long and not empty; the
    last pair is the empty sentinel [(len(a), len(a))], [(len(b), len(b))]. *)
Theorem matched_spans_hold_equal_tokens (a b : list Z) (min_match_size : nat) :
  let a_matches := (get_match_info a b min_match_size).1 in
  let b_matches := (get_match_info a b min_match_size).2 in
  Forall2 (fun sa sb : Span =>
             sa.1 ≤ sa.2 ∧ sa.2 ≤ length a ∧ sb.1 ≤ sb.2 ∧ sb.2 ≤ length b ∧
             sa.2 - sa.1 = sb.2 - sb.1 ∧ slice a sa = slice b sb)
          a_matches b_matches ∧
  Forall (fun sa : Span => 0 < sa.2 - sa.1 ∧ min_match_size ≤ sa.2 - sa.1)
         (removelast a_matches) ∧
  last a_matches = Some (length a, length a) ∧
  last b_matches = Some (length b, length b).
Proof.
  destruct (retained_blocks_true a b min_match_size) as (blocks & Heq & Hall).
  unfold get_match_info. cbn zeta. cbn [fst snd]. rewrite Heq, !map_app.
  cbn [map]. rewrite removelast_last, !last_snoc.
  split_and!;
    [| |unfold a_match; simpl; by rewrite Nat.add_0_r
       |unfold b_match; simpl; by rewrite Nat.add_0_r].
  - apply Forall2_app.
    + clear Heq. induction Hall as [|m l (Hpos & Hmin & Hin & Hm) _ IH]; [constructor|].
      constructor; [|exact IH].
      destruct Hin as (? & ? & ? & ?). unfold root_region in *. simpl in *.
      split_and!; try lia. by apply is_match_slice.
    + constructor; [|constructor]. unfold a_match, b_match, slice. simpl.
      rewrite !Nat.add_0_r, !Nat.sub_diag. split_and!; try lia. done.
  - apply Forall_fmap. eapply Forall_impl; [exact Hall|].
    intros m (Hpos & Hmin & _). simpl. lia.
Qed.

(** ** The modification map of an alignment *)

Lemma tiles_le spans : ∀ lo hi, tiles lo spans hi → lo ≤ hi.
Proof.
  induction spans as [|s rest IH]; intros lo hi Ht; simpl in Ht; [lia|].
  destruct Ht as (<- & Hle & Ht). apply IH in Ht. lia.
Qed.

Lemma dict_set_fresh d k v :
  Forall (fun kv : Span * Span => kv.1 ≠ k) d → dict_set d k v = d ++ [(k, v)].
Proof.
  induction d as [|[k' v'] d IH]; intros Hd; simpl; [done|].
  apply Forall_cons in Hd as [Hk Hd]. simpl in Hk.
  rewrite decide_False by done. by rewrite IH.
Qed.

Lemma StronglySorted_snoc {A} (R : A → A → Prop) l x :
  StronglySorted R l → Forall (fun y => R y x) l → StronglySorted R (l ++ [x]).
Proof.
  induction l as [|y l IH]; intros Hs Hx; simpl.
  { repeat constructor. }
  apply StronglySorted_inv in Hs as [Hs Hy].
  apply Forall_cons in Hx as [Hyx Hx].
  constructor; [by apply IH|].
  apply Forall_app. split; [done|]. by apply Forall_singleton.
Qed.

Lemma entry_ok_mono la lb la' lb' kv :
  la ≤ la' → lb ≤ lb' → entry_ok la lb kv → entry_ok la' lb' kv.
Proof. unfold entry_ok. lia. Qed.

(** Over two tilings the loop never overwrites a key: the entries come
    out in increasing order, disjoint on both sides. *)
Lemma mapping_loop_sorted a_spans : ∀ b_spans idx acc lo_a lo_b hi_a hi_b,
  tiles lo_a a_spans hi_a → tiles lo_b b_spans hi_b →
  StronglySorted entry_before acc → Forall (entry_ok lo_a lo_b) acc →
  StronglySorted entry_before (mapping_loop idx (zip a_spans b_spans) acc) ∧
  Forall (entry_ok hi_a hi_b) (mapping_loop idx (zip a_spans b_spans) acc).
Proof.
  induction a_spans as [|s a_spans IH];
    intros b_spans idx acc lo_a lo_b hi_a hi_b Hta Htb Hs Hok.
  { simpl. split; [done|]. apply tiles_le in Hta, Htb.
    eapply Forall_impl; [exact Hok|]. intros kv. by apply entry_ok_mono. }
  destruct b_spans as [|t b_spans].
  { simpl. split; [done|]. apply tiles_le in Hta, Htb.
    eapply Forall_impl; [exact Hok|]. intros kv. by apply entry_ok_mono. }
  destruct Hta as (Hs1 & Hs2 & Hta). destruct Htb as (Ht1 & Ht2 & Htb).
  assert (Hok' : Forall (entry_ok s.2 t.2) acc).
  { eapply Forall_impl; [exact Hok|]. intros kv. apply entry_ok_mono; lia. }
  cbn [zip zip_with mapping_loop].
  destruct (bool_decide (idx mod 2 = 1)); [by eapply IH|].
  destruct (span_not_empty s && span_not_empty t) eqn:E; [|by eapply IH].
  apply andb_true_iff in E as [Es Et].
  apply span_not_empty_true in Es, Et.
  rewrite dict_set_fresh.
  2:{ eapply Forall_impl; [exact Hok|]. intros [k v] (H1 & H2 & _) Heq.
      simpl in *. subst k. lia. }
  eapply IH; [done|done| |].
  - apply StronglySorted_snoc; [done|].
    eapply Forall_impl; [exact Hok|]. intros [k v] (H1 & H2 & H3 & H4).
    unfold entry_before. simpl in *. lia.
  - apply Forall_app. split; [done|]. apply Forall_singleton.
    unfold entry_ok. simpl. lia.
Qed.

Lemma generate_modification_mapping_sorted a b mms :
  ∃ mod_map,
    generate_modification_mapping a b mms = Some mod_map ∧
    StronglySorted entry_before mod_map ∧
    Forall (entry_ok (length a) (length b)) mod_map.
Proof.
  destruct (generate_modification_mapping_spec a b mms)
    as (sa & sb & mod_map & Hal & Hmap & ->).
  destruct (align_returns_tiles a b mms) as (sa' & sb' & Hal' & Hta & Htb & _).
  rewrite Hal in Hal'. injection Hal' as <- <-.
  eexists. split; [done|].
  eapply mapping_loop_sorted; [done|done|constructor|constructor].
Qed.

(** X2. [generate_modification_mapping] never raises, and its map lists
    the two-sided modifications from left to right: both spans of every
    entry are non-empty and inside their sequences, and each entry ends,
    in [a_seq] and in [b_seq], before the next one starts. *)
Theorem modification_map_is_ordered (a b : list Z) (min_match_size : nat) :
  ∃ mod_map,
    generate_modification_mapping a b min_match_size = Some mod_map ∧
    Forall (entry_ok (length a) (length b)) mod_map ∧
    StronglySorted entry_before mod_map ∧
    NoDup mod_map.*1.
Proof.
  destruct (generate_modification_mapping_sorted a b min_match_size)
    as (mod_map & Hmap & Hs & Hok).
  exists mod_map. split_and!; [done..|].
  clear Hmap. induction Hs as [|kv l Hs IH Hkv]; simpl; [constructor|].
  apply Forall_cons in Hok as [Hk Hok].
  constructor; [|by apply IH].
  intros (kv' & Heq & Hin)%list_elem_of_fmap.
  rewrite Forall_forall in Hkv, Hok.
  destruct (Hkv _ Hin) as [H1 _]. destruct (Hok _ Hin) as (H2 & _).
  destruct Hk as (H3 & _). rewrite Heq in H1, H3. lia.
Qed.

(** X3. [get_diff_ids] never raises; both lists are strictly increasing
    (so free of duplicates) and hold valid positions of their sequence;
    and one list is empty exactly when the other is, since every entry of
    the map has two non-empty sides. *)
Theorem diff_ids_sorted_and_paired (a b : list Z) (min_match_size : nat) :
  ∃ a_ids b_ids,
    get_diff_ids a b min_match_size = Some (a_ids, b_ids) ∧
    StronglySorted lt a_ids ∧ StronglySorted lt b_ids ∧
    Forall (fun p => p < length a) a_ids ∧
    Forall (fun p => p < length b) b_ids ∧
    (a_ids = [] ↔ b_ids = []).
Proof.
  destruct (get_diff_ids_in_range a b min_match_size)
    as (a_ids & b_ids & Hd & Ha & Hb).
  exists a_ids, b_ids. split; [done|].
  destruct (generate_modification_mapping_sorted a b min_match_size)
    as (mod_map & Hmap & _ & Hok).
  unfold get_diff_ids in Hd. rewrite Hmap in Hd. simpl in Hd.
  injection Hd as <- <-.
  split_and!; [apply sorted_set_sorted|apply sorted_set_sorted|done|done|].
  destruct mod_map as [|[k v] rest]; [done|].
  apply Forall_cons in Hok as [(Hk & _ & Hv & _) _]. simpl in Hk, Hv.
  split; intros Hnil; exfalso.
  - assert (k.1 ∈ sorted_set (spans2ids ((k, v) :: rest).*1)) as Hin.
    { apply sorted_set_elem, spans2ids_elem. exists k.
      split; [by left|]. unfold in_span. lia. }
    rewrite Hnil in Hin. by apply elem_of_nil in Hin.
  - assert (v.1 ∈ sorted_set (spans2ids ((k, v) :: rest).*2)) as Hin.
    { apply sorted_set_elem, spans2ids_elem. exists v.
      split; [by left|]. unfold in_span. lia. }
    rewrite Hnil in Hin. by apply elem_of_nil in Hin.
Qed.

(** ** [SFT_collator_fn] and [preference_collator_fn] *)

Lemma max_len_app {A} (rows1 rows2 : list (list A)) :
  max_len (rows1 ++ rows2) = max (max_len rows1) (max_len rows2).
Proof.
  induction rows1 as [|row rows1 IH]; simpl; [done|].
  unfold max_len in *. simpl. rewrite IH. lia.
Qed.

Lemma max_len_le {A} (rows : list (list A)) m :
  Forall (fun row => length row ≤ m) rows → max_len rows ≤ m.
Proof.
  induction 1 as [|row rows Hrow _ IH]; unfold max_len in *; simpl; lia.
Qed.

Lemma max_len_pad_sequence {A} (rows : list (list A)) v :
  max_len (pad_sequence rows v) = max_len rows.
Proof.
  apply Nat.le_antisymm.
  - apply max_len_le, Forall_forall. intros prow Hp.
    by rewrite (pad_sequence_row_length _ _ _ Hp).
  - apply max_len_le, Forall_forall. intros row Hrow.
    apply list_elem_of_lookup in Hrow as [i Hi].
    destruct (pad_sequence_spec rows v i row Hi) as (prow & Hp & Hlen & _).
    pose proof (max_len_ge _ _ (list_elem_of_lookup_2 _ _ _ Hp)) as Hge.
    pose proof (max_len_ge _ _ (list_elem_of_lookup_2 _ _ _ Hi)). lia.
Qed.

(** Padding two padded batches together is padding all the rows at once. *)
Lemma concate_pad_pad_sequence {A} (rows1 rows2 : list (list A)) v :
  concate_pad (pad_sequence rows1 v) (pad_sequence rows2 v) v
  = pad_sequence (rows1 ++ rows2) v.
Proof.
  unfold concate_pad.
  assert (∀ rows m, max_len rows ≤ m →
            map (fun row => row ++ replicate (m - length row) v)
                (pad_sequence rows v)
            = map (fun row => row ++ replicate (m - length row) v) rows) as Hre.
  { intros rows m Hm. unfold pad_sequence at 1. rewrite map_map.
    apply Forall_fmap_ext, Forall_forall. intros row Hrow.
    pose proof (max_len_ge _ _ Hrow).
    rewrite <- app_assoc, <- replicate_add. f_equal. f_equal.
    rewrite length_app, length_replicate. lia. }
  unfold pad_sequence at 1.
  rewrite max_len_app, !max_len_pad_sequence, <- max_len_app, map_app.
  rewrite !Hre by (rewrite max_len_app; lia).
  unfold pad_sequence. by rewrite map_app.
Qed.

Section collators_facts.
Context {F : Type} (IGNORE_INDEX pad_token_id : Z).
Context (instances : list (InstanceDict F * InstanceDict F)).

Lemma preference_collator_fn_inv batch :
  preference_collator_fn IGNORE_INDEX instances pad_token_id = Some batch →
  instances ≠ [] ∧
  batch =
    let win_ids := pad_sequence (map input_ids instances.*2) pad_token_id in
    let rej_ids := pad_sequence (map input_ids instances.*1) pad_token_id in
    let win_lab := pad_sequence (map labels instances.*2) IGNORE_INDEX in
    let rej_lab := pad_sequence (map labels instances.*1) IGNORE_INDEX in
    mkPreferenceBatch
      (concate_pad win_ids rej_ids pad_token_id)
      (concate_pad win_lab rej_lab (-100)%Z)
      (ne (concate_pad win_ids rej_ids pad_token_id) pad_token_id)
      win_ids rej_ids win_lab rej_lab
      (ne win_ids pad_token_id) (ne rej_ids pad_token_id).
Proof.
  unfold preference_collator_fn, SFT_collator_fn.
  destruct (decide (instances = [])) as [|Hne]; [done|].
  destruct instances as [|p rest]; [done|]. simpl.
  intros [= <-]. done.
Qed.

Lemma ne_lookup (t : list (list Z)) i row :
  t !! i = Some row →
  ne t pad_token_id !! i
  = Some (map (fun x => negb (bool_decide (x = pad_token_id))) row).
Proof. intros Hi. unfold ne. by rewrite list_lookup_fmap, Hi. Qed.
End collators_facts.

(** X4. The concatenated batch of [preference_collator_fn] is one padding
    of all the sequences: the chosen ones first, then the rejected ones,
    each copied in place and right-padded with [pad_token_id] to the
    longest of them all; the attention mask is true exactly on the
    positions that do not hold [pad_token_id], so it is false on all the
    padding. *)
Theorem concatenated_batch_is_one_padding {F : Type} (IGNORE_INDEX : Z)
    (pad_token_id : Z) (instances : list (InstanceDict F * InstanceDict F))
    (batch : PreferenceBatch) :
  preference_collator_fn IGNORE_INDEX instances pad_token_id = Some batch →
  let rows := map input_ids instances.*2 ++ map input_ids instances.*1 in
  concatenated_input_ids batch = pad_sequence rows pad_token_id ∧
  length (concatenated_input_ids batch) = 2 * length instances ∧
  length (concatenated_attention_mask batch) = 2 * length instances ∧
  ∀ i row, rows !! i = Some row →
    ∃ ids mask,
      concatenated_input_ids batch !! i = Some ids ∧
      concatenated_attention_mask batch !! i = Some mask ∧
      length ids = max_len rows ∧ length mask = max_len rows ∧
      (∀ p, p < length row → ids !! p = row !! p) ∧
      (∀ p, length row ≤ p → p < max_len rows →
         ids !! p = Some pad_token_id ∧ mask !! p = Some false) ∧
      (∀ p x, row !! p = Some x →
         mask !! p = Some (negb (bool_decide (x = pad_token_id)))).
Proof.
  intros [Hne ->]%preference_collator_fn_inv. cbn zeta.
  cbn [concatenated_input_ids concatenated_attention_mask].
  rewrite concate_pad_pad_sequence.
  set (rows := map input_ids instances.*2 ++ map input_ids instances.*1).
  assert (Hlen : length (pad_sequence rows pad_token_id) = 2 * length instances).
  { unfold pad_sequence, rows.
    rewrite length_map, length_app, !length_map, ?length_fmap. lia. }
  split_and!; [done|done|by unfold ne; rewrite length_map|].
  intros i row Hi.
  destruct (pad_sequence_spec rows pad_token_id i row Hi)
    as (ids & Hids & Hl & Hin & Hout).
  exists ids, (map (fun x => negb (bool_decide (x = pad_token_id))) ids).
  split_and!; [done|by apply ne_lookup|done|by rewrite length_map|done| |].
  - intros p Hp1 Hp2. rewrite list_lookup_fmap, (Hout p Hp1 Hp2). simpl.
    by rewrite bool_decide_eq_true_2.
  - intros p x Hx. rewrite list_lookup_fmap, Hin, Hx; [done|].
    by eapply lookup_lt_Some.
Qed.

Lemma concatenated_batch_is_one_padding_witness :
  ∃ batch, example_batch = Some batch ∧
    let rows := map input_ids example_instances.*2
                ++ map input_ids example_instances.*1 in
    concatenated_input_ids batch = pad_sequence rows 0%Z ∧
    length (concatenated_input_ids batch) = 2 * length example_instances ∧
    length (concatenated_attention_mask batch) = 2 * length example_instances ∧
    ∀ i row, rows !! i = Some row →
      ∃ ids mask,
        concatenated_input_ids batch !! i = Some ids ∧
        concatenated_attention_mask batch !! i = Some mask ∧
        length ids = max_len rows ∧ length mask = max_len rows ∧
        (∀ p, p < length row → ids !! p = row !! p) ∧
        (∀ p, length row ≤ p → p < max_len rows →
           ids !! p = Some 0%Z ∧ mask !! p = Some false) ∧
        (∀ p x, row !! p = Some x →
           mask !! p = Some (negb (bool_decide (x = 0%Z)))).
Proof.
  eexists. split; [vm_compute; reflexivity|].
  apply (concatenated_batch_is_one_padding (-100)%Z 0%Z example_instances).
  vm_compute. reflexivity.
Defined.

(** X5. With [IGNORE_INDEX = -100], and ids and labels of equal length in
    every instance (the collator asserts it), the concatenated labels have
    the shape of the concatenated ids, every row is the instance's labels
    followed by [-100] only, and the chosen rows come first. *)
Theorem concatenated_labels_follow_the_ids {F : Type} (pad_token_id : Z)
    (instances : list (InstanceDict F * InstanceDict F))
    (batch : PreferenceBatch) :
  preference_collator_fn (-100)%Z instances pad_token_id = Some batch →
  Forall (fun ins => length (input_ids ins) = length (labels ins))
    (instances.*2 ++ instances.*1) →
  Forall2 (fun ids labs : list Z => length ids = length labs)
    (concatenated_input_ids batch) (concatenated_labels batch) ∧
  ∀ i ins, (instances.*2 ++ instances.*1) !! i = Some ins →
    ∃ labs, concatenated_labels batch !! i = Some labs ∧
      (∀ p, p < length (labels ins) → labs !! p = labels ins !! p) ∧
      (∀ p, length (labels ins) ≤ p → p < length labs →
         labs !! p = Some (-100)%Z).
Proof.
  intros [Hne ->]%preference_collator_fn_inv Hlen. cbn zeta.
  cbn [concatenated_input_ids concatenated_labels].
  rewrite !concate_pad_pad_sequence, <- !map_app.
  set (all := instances.*2 ++ instances.*1) in *.
  assert (Hm : max_len (map input_ids all) = max_len (map labels all)).
  { clearbody all. induction Hlen as [|ins l Hi _ IH]; [done|].
    unfold max_len in *. simpl. by rewrite Hi, IH. }
  split.
  - apply Forall2_same_length_lookup_2.
    { unfold pad_sequence. by rewrite !length_map. }
    intros i ids labs Hids Hlabs.
    rewrite (pad_sequence_row_length _ _ _ (list_elem_of_lookup_2 _ _ _ Hids)).
    rewrite (pad_sequence_row_length _ _ _ (list_elem_of_lookup_2 _ _ _ Hlabs)).
    done.
  - intros i ins Hi.
    destruct (pad_sequence_spec (map labels all) (-100)%Z i (labels ins))
      as (labs & Hl & Hlab & Hin & Hout).
    { by rewrite list_lookup_fmap, Hi. }
    exists labs. split_and!; [done|done|].
    intros p Hp1 Hp2. apply Hout; [done|]. by rewrite <- Hlab.
Qed.

Lemma concatenated_labels_follow_the_ids_witness :
  ∃ batch, example_batch = Some batch ∧
    Forall (fun ins => length (input_ids ins) = length (labels ins))
      (example_instances.*2 ++ example_instances.*1) ∧
    Forall2 (fun ids labs : list Z => length ids = length labs)
      (concatenated_input_ids batch) (concatenated_labels batch) ∧
    ∀ i ins, (example_instances.*2 ++ example_instances.*1) !! i = Some ins →
      ∃ labs, concatenated_labels batch !! i = Some labs ∧
        (∀ p, p < length (labels ins) → labs !! p = labels ins !! p) ∧
        (∀ p, length (labels ins) ≤ p → p < length labs →
           labs !! p = Some (-100)%Z).
Proof.
  assert (Forall (fun ins : InstanceDict float =>
                    length (input_ids ins) = length (labels ins))
            (example_instances.*2 ++ example_instances.*1)) as Hlen.
  { repeat constructor. }
  eexists. split; [vm_compute; reflexivity|]. split; [exact Hlen|].
  apply (concatenated_labels_follow_the_ids 0%Z example_instances);
    [vm_compute; reflexivity|exact Hlen].
Defined.

(** ** Shape and guards of the weight tensors *)

Section collate_shape.
Context {F : Type} (one zero : F) (is_nan : F → bool).
Context (pad_token_id : Z) (mod_token_weight : F).
Context (instances : list (InstanceDict F * InstanceDict F)).

Lemma index_assign_length ids (v : F) (row row' : list F) :
  index_assign row ids v = Some row' → length row' = length row.
Proof.
  intros Hrow. pose proof (index_assign_inv _ _ _ _ Hrow) as Hin.
  destruct (index_assign_spec ids v row Hin) as (row'' & Heq & Hlen & _).
  congruence.
Qed.

Lemma weight_loop_lengths (mw : F) rows : ∀ ws,
  weight_loop mw rows = Some ws →
  Forall2 (fun (row : (list Z * list Z) * (list F * list F))
               (wr : list F * list F) =>
             length wr.1 = length row.2.1 ∧ length wr.2 = length row.2.2)
          rows ws.
Proof.
  induction rows as [|[[w r] [ww rw]] rows IH]; intros ws Hws; simpl in Hws.
  { injection Hws as <-. constructor. }
  destruct (get_diff_ids _ _ _) as [[r_mod w_mod]|]; [|done]. simpl in Hws.
  destruct (index_assign ww w_mod mw) as [ww'|] eqn:E1; [|done]. simpl in Hws.
  destruct (index_assign rw r_mod mw) as [rw'|] eqn:E2; [|done]. simpl in Hws.
  destruct (weight_loop mw rows) as [rest|]; [|done]. simpl in Hws.
  injection Hws as <-. constructor; [|by apply IH]. simpl.
  split; by eapply index_assign_length.
Qed.

Lemma slice_to_width (row : list F) (size : nat) :
  (Z.of_nat size - 1 ≤ Z.of_nat (length row))%Z →
  length (slice_to row (Z.of_nat size - 1)) = sliced_width size (length row).
Proof.
  intros Hle. unfold slice_to, sliced_width.
  destruct (decide (Z.of_nat size - 1 < 0)%Z), (decide (size = 0));
    rewrite length_take; lia.
Qed.

(** What a returned batch went through: the guards, and rows of ones of
    the sliced width. *)
Lemma collate_token_weights_guards tw :
  collate_token_weights one zero is_nan pad_token_id mod_token_weight
    instances = Some tw →
  collator_guards instances ∧
  Forall (fun row => length row
                     = sliced_width (max_len (map input_ids instances.*2))
                         (max_len (map ref_per_token_logp instances.*2)))
         (win_token_weight tw) ∧
  Forall (fun row => length row
                     = sliced_width (max_len (map input_ids instances.*1))
                         (max_len (map ref_per_token_logp instances.*1)))
         (rej_token_weight tw) ∧
  length (win_token_weight tw) = length instances ∧
  length (rej_token_weight tw) = length instances.
Proof.
  unfold collate_token_weights.
  destruct (decide (instances = [])) as [|Hne]; [done|].
  assert (instances.*2 ≠ []) as Hne2 by (by destruct instances).
  assert (instances.*1 ≠ []) as Hne1 by (by destruct instances).
  rewrite !pad_sequence_size1
    by (try (by destruct instances); intros ?%map_eq_nil; done).
  destruct (bool_decide _) eqn:Ew; [|done].
  destruct (bool_decide _) eqn:Er in |- *; [|done].
  apply bool_decide_eq_true in Ew, Er. cbn [negb].
  match goal with
  | |- context [weight_loop _ (zip (zip ?wi ?ri) (zip ?wo ?ro))] =>
      set (win_ids := wi); set (rej_ids := ri);
      set (win_ones := wo); set (rej_ones := ro)
  end.
  destruct (weight_loop _ _) as [weights|] eqn:E; [|done]. cbn.
  destruct (forallb _ _) eqn:Elab; [|done]. cbn [negb].
  destruct (any_nan _ _); [done|]. destruct (any_nan _ _); [done|].
  intros [= <-]. cbn [win_token_weight rej_token_weight].
  assert (length win_ids = length instances) as L1.
  { unfold win_ids, pad_sequence. by rewrite ?length_map, ?length_fmap. }
  assert (length rej_ids = length instances) as L2.
  { unfold rej_ids, pad_sequence. by rewrite ?length_map, ?length_fmap. }
  assert (length win_ones = length instances) as L3.
  { unfold win_ones, pad_sequence. by rewrite ?length_map, ?length_fmap. }
  assert (length rej_ones = length instances) as L4.
  { unfold rej_ones, pad_sequence. by rewrite ?length_map, ?length_fmap. }
  assert (Forall (fun row => length row
                     = sliced_width (max_len (map input_ids instances.*2))
                         (max_len (map ref_per_token_logp instances.*2)))
            win_ones) as Hwo.
  { unfold win_ones. rewrite !Forall_map. apply Forall_forall. intros row Hrow.
    rewrite length_map, <- (pad_sequence_row_length _ _ _ Hrow).
    apply slice_to_width. by rewrite (pad_sequence_row_length _ _ _ Hrow). }
  assert (Forall (fun row => length row
                     = sliced_width (max_len (map input_ids instances.*1))
                         (max_len (map ref_per_token_logp instances.*1)))
            rej_ones) as Hro.
  { unfold rej_ones. rewrite !Forall_map. apply Forall_forall. intros row Hrow.
    rewrite length_map, <- (pad_sequence_row_length _ _ _ Hrow).
    apply slice_to_width. by rewrite (pad_sequence_row_length _ _ _ Hrow). }
  pose proof (weight_loop_lengths _ _ _ E) as Hlens.
  pose proof (Forall2_length _ _ _ Hlens) as Hn.
  rewrite !length_zip_with in Hn.
  split.
  { split_and!; [done|done|done|].
    apply Forall_forall. intros ins Hins.
    rewrite forallb_forall in Elab.
    apply list_elem_of_In, Elab in Hins. by apply bool_decide_eq_true in Hins. }
  split_and!.
  - apply Forall_fmap, Forall_forall. intros wr Hwr.
    apply list_elem_of_lookup in Hwr as [i Hi].
    destruct (Forall2_lookup_r _ _ _ _ _ Hlens Hi) as ([[w r] [ww rw]] & Hrow & Hl1 & _).
    simpl in *. rewrite Hl1.
    apply list_elem_of_lookup_2, elem_of_zip_r, elem_of_zip_l in Hrow.
    rewrite Forall_forall in Hwo. by apply Hwo.
  - apply Forall_fmap, Forall_forall. intros wr Hwr.
    apply list_elem_of_lookup in Hwr as [i Hi].
    destruct (Forall2_lookup_r _ _ _ _ _ Hlens Hi) as ([[w r] [ww rw]] & Hrow & _ & Hl2).
    simpl in *. rewrite Hl2.
    apply list_elem_of_lookup_2, elem_of_zip_r, elem_of_zip_r in Hrow.
    rewrite Forall_forall in Hro. by apply Hro.
  - rewrite length_fmap. lia.
  - rewrite length_fmap. lia.
Qed.
End collate_shape.

Lemma max_len_const {A} (rows : list (list A)) w :
  rows ≠ [] → Forall (fun row => length row = w) rows → max_len rows = w.
Proof.
  intros Hne Hall. apply Nat.le_antisymm.
  - apply max_len_le. eapply Forall_impl; [exact Hall|]. simpl. lia.
  - destruct rows as [|row rows]; [done|].
    apply Forall_cons in Hall as [<- _]. apply max_len_ge. by left.
Qed.

(** X6. The weight tensors of a returned batch have one row per pair and
    one column fewer than the padded ids of their side (the width of
    [w[1:]], on which the diff ids are computed); when all ids of a side
    are empty the stop [-1] of the slice leaves one column fewer than the
    reference log-probabilities.  The concatenated tensor has two rows per
    pair and the larger of the two widths. *)
Theorem token_weights_have_shifted_shape {F : Type} (one zero : F)
    (is_nan : F → bool) (pad_token_id : Z) (mod_token_weight : F)
    (instances : list (InstanceDict F * InstanceDict F)) (tw : TokenWeights) :
  collate_token_weights one zero is_nan pad_token_id mod_token_weight
    instances = Some tw →
  let win_width := sliced_width (max_len (map input_ids instances.*2))
                     (max_len (map ref_per_token_logp instances.*2)) in
  let rej_width := sliced_width (max_len (map input_ids instances.*1))
                     (max_len (map ref_per_token_logp instances.*1)) in
  length (win_token_weight tw) = length instances ∧
  length (rej_token_weight tw) = length instances ∧
  length (concatenated_token_weight tw) = 2 * length instances ∧
  Forall (fun row => length row = win_width) (win_token_weight tw) ∧
  Forall (fun row => length row = rej_width) (rej_token_weight tw) ∧
  Forall (fun row => length row = max win_width rej_width)
    (concatenated_token_weight tw).
Proof.
  intros Htw. cbn zeta.
  destruct (collate_token_weights_guards _ _ _ _ _ _ _ Htw)
    as ((Hne & _) & Hw & Hr & Lw & Lr).
  destruct (collate_token_weights_inv _ _ _ _ _ _ _ Htw)
    as (_ & _ & weights & _ & _ & _ & _ & _ & Ew & Er & Ec).
  rewrite Ec, <- Ew, <- Er. unfold concate_pad.
  split_and!; [done|done| |done|done|].
  - unfold pad_sequence. rewrite length_map, length_app. lia.
  - apply Forall_forall. intros row Hrow.
    rewrite (pad_sequence_row_length _ _ _ Hrow), max_len_app.
    assert (win_token_weight tw ≠ []) as Nw.
    { intros H0. rewrite H0 in Lw. simpl in Lw. by destruct instances. }
    assert (rej_token_weight tw ≠ []) as Nr.
    { intros H0. rewrite H0 in Lr. simpl in Lr. by destruct instances. }
    by rewrite (max_len_const _ _ Nw Hw), (max_len_const _ _ Nr Hr).
Qed.

Lemma token_weights_have_shifted_shape_witness :
  example_collate = Some example_weights ∧
  length (win_token_weight example_weights) = length example_instances ∧
  length (rej_token_weight example_weights) = length example_instances ∧
  length (concatenated_token_weight example_weights)
  = 2 * length example_instances ∧
  Forall (fun row => length row = 8) (win_token_weight example_weights) ∧
  Forall (fun row => length row = 9) (rej_token_weight example_weights) ∧
  Forall (fun row => length row = 9)
    (concatenated_token_weight example_weights).
Proof.
  split; [vm_compute; reflexivity|].
  apply (token_weights_have_shifted_shape 1%float 0%float PrimFloat.is_nan
           0%Z 3%float example_instances example_weights).
  vm_compute. reflexivity.
Defined.

(** X7. When neither [1.0] nor [mod_token_weight] is a NaN, the collator
    returns the weights exactly when its guards pass: the batch is not
    empty, the padded reference log-probabilities are at most one column
    narrower than the padded ids on both sides, and every instance has as
    many labels as ids.  Otherwise it raises. *)
Theorem collator_returns_iff_guards_pass {F : Type} (one zero : F)
    (is_nan : F → bool) (pad_token_id : Z) (mod_token_weight : F)
    (instances : list (InstanceDict F * InstanceDict F)) :
  is_nan one = false → is_nan mod_token_weight = false →
  is_Some (collate_token_weights one zero is_nan pad_token_id mod_token_weight
             instances)
  ↔ collator_guards instances.
Proof.
  intros Hone Hmod. split.
  - intros [tw Htw].
    by destruct (collate_token_weights_guards _ _ _ _ _ _ _ Htw) as [? _].
  - intros (Hne & Hw & Hr & Hlab).
    by apply collate_token_weights_returns.
Qed.

Lemma collator_returns_iff_guards_pass_witness :
  PrimFloat.is_nan 1%float = false ∧ PrimFloat.is_nan 3%float = false ∧
  is_Some example_collate ∧
  (is_Some example_collate ↔ collator_guards example_instances).
Proof.
  split; [reflexivity|]. split; [reflexivity|].
  split; [by rewrite example_collate_value|].
  apply (collator_returns_iff_guards_pass 1%float 0%float PrimFloat.is_nan
           0%Z 3%float example_instances); reflexivity.
Defined.

(** ** The per-example losses and rewards over the reals *)

Lemma logsigmoid_neg x : (logsigmoid x < 0)%R.
Proof.
  unfold logsigmoid. rewrite <- ln_1.
  apply ln_increasing; [apply sigmoid_pos|apply sigmoid_lt_1].
Qed.

Lemma logsigmoid_0 : logsigmoid 0 = (- ln 2)%R.
Proof.
  unfold logsigmoid. rewrite sigmoid_0.
  replace (1 / 2)%R with (/ 2)%R by lra. apply ln_Rinv. lra.
Qed.

Lemma logsigmoid_above_0 x : (logsigmoid 0 < logsigmoid x)%R ↔ (0 < x)%R.
Proof.
  split; [|apply logsigmoid_increasing].
  intros Hlt. destruct (Rlt_le_dec 0 x) as [|Hle]; [done|].
  destruct Hle as [Hneg| ->]; [|lra].
  pose proof (logsigmoid_increasing _ _ Hneg). lra.
Qed.

Lemma logits_of_R_gap (e : BatchRow R) : logits_of false e = A_gap_of e.
Proof. unfold logits_of, A_gap_of. simpl. lra. Qed.



(** ** The masked mean of [compute_loss] *)

Lemma tsum_R_app (l1 l2 : list R) : tsum (l1 ++ l2) = (tsum l1 + tsum l2)%R.
Proof.
  induction l1 as [|x l1 IH].
  - unfold tsum at 2. simpl. lra.
  - rewrite <- app_comm_cons, !tsum_R_cons, IH. lra.
Qed.

Lemma tsum_masked (f : nat → R) (P : nat → Prop) `{!∀ p, Decision (P p)} l :
  tsum (map (fun p => f p * (if decide (P p) then 1 else 0))%R l)
  = tsum (map f (filter P l)).
Proof.
  induction l as [|p l IH]; [done|].
  rewrite map_cons, tsum_R_cons, IH, filter_cons.
  destruct (decide (P p)); [rewrite map_cons, tsum_R_cons|]; lra.
Qed.

Lemma tsum_mask_count (P : nat → Prop) `{!∀ p, Decision (P p)} l :
  tsum (map (fun p => if decide (P p) then 1 else 0)%R l)
  = INR (length (filter P l)).
Proof.
  induction l as [|p l IH]; [done|].
  rewrite map_cons, tsum_R_cons, IH, filter_cons.
  destruct (decide (P p)); [cbn [length]; rewrite S_INR|]; lra.
Qed.

Lemma list_as_map_seq {A} (d : A) (l : list A) :
  l = map (fun p => default d (l !! p)) (seq 0 (length l)).
Proof.
  apply list_eq. intros i. rewrite list_lookup_fmap.
  destruct (decide (i < length l)) as [Hi|Hi].
  - rewrite lookup_seq_lt by done. simpl.
    destruct (lookup_lt_is_Some_2 l i Hi) as [x Hx]. by rewrite Hx.
  - rewrite lookup_seq_ge by lia. simpl. apply lookup_ge_None. lia.
Qed.

Lemma tsum_R_nonneg' (t : list R) : Forall (fun w => 0 <= w)%R t → (0 <= tsum t)%R.
Proof.
  induction 1 as [|x t Hx _ IH]; [unfold tsum; simpl; lra|].
  rewrite tsum_R_cons. lra.
Qed.

Lemma masked_mean_R (out : DpoOut R) (idx : list nat) (rank world_size n : nat) :
  rank < world_size →
  length (global_mask out) = world_size * n →
  length (losses out) = n →
  (∀ p, p < world_size * n →
     global_mask out !! p = Some (if decide (p ∈ idx) then 1 else 0)%R) →
  masked_mean out rank world_size
  = let sel := local_selected idx rank n in
    if decide (sel = []) then 0%R
    else (tsum (map (fun p => default 0%R (losses out !! p)) sel)
          / INR (length sel))%R.
Proof.
  intros Hr Hm Hl Hmask. unfold masked_mean.
  replace (length (global_mask out) / world_size) with n
    by (rewrite Hm, Nat.mul_comm, Nat.div_mul; lia).
  assert (take n (drop (rank * n) (global_mask out))
          = map (fun p => if decide (rank * n + p ∈ idx) then 1%R else 0%R)
                (seq 0 n)) as ->.
  { apply list_eq. intros i. rewrite list_lookup_fmap.
    destruct (decide (i < n)) as [Hi|Hi].
    - rewrite lookup_take_lt, lookup_drop, lookup_seq_lt by done. simpl.
      apply Hmask. nia.
    - rewrite lookup_take_ge, lookup_seq_ge by lia. done. }
  rewrite (list_as_map_seq 0%R (losses out)) at 1. rewrite Hl.
  rewrite zip_with_map_same. cbn zeta. unfold local_selected.
  change (@fmul R R_scalar) with Rmult. change (@fdiv R R_scalar) with Rdiv.
  rewrite (tsum_masked (fun p => default 0%R (losses out !! p))
             (fun p => rank * n + p ∈ idx)).
  rewrite (tsum_mask_count (fun p => rank * n + p ∈ idx)).
  set (sel := filter _ _).
  destruct (decide (sel = [])) as [->|Hne].
  - simpl.
    destruct (fltb (of_real 0) (INR 0)) eqn:E.
    + apply fltb_R in E. simpl in E. lra.
    + simpl. unfold tsum. simpl. lra.
  - assert (0 < length sel) as Hpos by (destruct sel; [done|simpl; lia]).
    apply lt_INR in Hpos. simpl in Hpos.
    destruct (fltb (of_real 0) (INR (length sel))) eqn:E; [done|].
    exfalso. apply not_true_iff_false in E. apply E. by apply fltb_R.
Qed.

Lemma dpo_loss_R_losses_pos (batch : list (BatchRow R)) beta rank world_size
    peers gap_mean gap_std reference_free sample_index out :
  dpo_loss batch beta rank world_size peers gap_mean gap_std reference_free
    sample_index = Some out →
  length (losses out) = length batch ∧ Forall (fun l => 0 < l)%R (losses out).
Proof.
  intros Hd.
  destruct (dpo_loss_inv _ _ _ _ _ _ _ _ _ _ Hd)
    as (sampled & _ & _ & _ & _ & _ & Hl).
  rewrite Hl, length_map, Forall_map. split; [done|].
  apply Forall_forall. intros e _. simpl.
  match goal with |- (0 < - logsigmoid ?x)%R =>
    pose proof (logsigmoid_neg x) end. lra.
Qed.



(** ** A batch of one example *)

Lemma sample_num_of_1 : sample_num_of 1 = 0.
Proof. vm_compute. reflexivity. Qed.



(** ** The running statistics *)

Lemma tsum_R_const (x : R) (l : list nat) (f : nat → R) :
  Forall (fun r => f r = x) l → tsum (map f l) = (INR (length l) * x)%R.
Proof.
  induction 1 as [|r l Hr _ IH]; [unfold tsum; simpl; lra|].
  rewrite map_cons, tsum_R_cons, IH, Hr. cbn [length]. rewrite S_INR. lra.
Qed.

Lemma all_reduce_mean_agree (x : R) rank world_size (peers : nat → R) :
  0 < world_size → (∀ r, r < world_size → r ≠ rank → peers r = x) →
  all_reduce_mean x rank world_size peers = x.
Proof.
  intros Hw Hp. unfold all_reduce_mean.
  rewrite (tsum_R_const x).
  - rewrite length_seq. simpl. apply lt_INR in Hw. simpl in Hw.
    field. lra.
  - apply Forall_forall. intros r Hr%elem_of_seq.
    destruct (decide (r = rank)); [done|]. apply Hp; lia.
Qed.

(** X11. Over the reals, when every other rank holds the statistics this
    rank holds after its own moving-average step (all ranks start equal
    and see the same gathered gaps), the all-reduce leaves them unchanged:
    the result on [world_size] processes is the result of one process. *)
Theorem sync_keeps_agreeing_ranks (st : Stats R) (gap_local loss_local : list R)
    (gamma : R) (rank world_size : nat) (peers : nat → Stats R) :
  0 < world_size →
  (∀ r, r < world_size → r ≠ rank →
     peers r = update_and_sync_tensor_mean st gap_local loss_local gamma
                 rank 1 peers) →
  update_and_sync_tensor_mean st gap_local loss_local gamma rank world_size
    peers
  = update_and_sync_tensor_mean st gap_local loss_local gamma rank 1 peers.
Proof.
  intros Hw Hp. unfold update_and_sync_tensor_mean in *.
  rewrite (decide_False (P := 1 < 1)) in * by lia.
  destruct (decide (1 < world_size)); [|done].
  cbn [gap_mean_ gap_std_ loss_mean_ loss_std_].
  rewrite !all_reduce_mean_agree; [done|done| |done| |done| |done|];
    intros r Hr Hne; by rewrite (Hp r Hr Hne).
Qed.

Lemma sync_keeps_agreeing_ranks_witness :
  let local := update_and_sync_tensor_mean (mkStats 0 0 0 0)%R [1; 3]%R
                 [2; 4]%R (9 / 10)%R 0 1 (fun _ => mkStats 0 0 0 0)%R in
  0 < 2 ∧
  update_and_sync_tensor_mean (mkStats 0 0 0 0)%R [1; 3]%R [2; 4]%R
    (9 / 10)%R 0 2 (fun _ => local)
  = update_and_sync_tensor_mean (mkStats 0 0 0 0)%R [1; 3]%R [2; 4]%R
      (9 / 10)%R 0 1 (fun _ => local).
Proof.
  intros local. split; [lia|].
  apply (sync_keeps_agreeing_ranks (mkStats 0 0 0 0)%R [1; 3]%R [2; 4]%R
           (9 / 10)%R 0 2 (fun _ => local)); [lia|].
  intros r _ _. reflexivity.
Defined.

Lemma ema_n_step (gamma : R) n running batch_stat :
  ema gamma (ema_n gamma n running batch_stat) batch_stat
  = ema_n gamma (S n) running batch_stat.
Proof. unfold ema, ema_n. simpl. lra. Qed.

(** X12. Over the reals, [n] updates by a single process on the same
    batch move each running statistic the fraction [1 - gamma^n] of the
    way to the batch statistic:
    [running_n = gamma^n * running_0 + (1 - gamma^n) * batch_stat]. *)
Theorem repeated_updates_close_geometrically (n : nat) (st : Stats R)
    (gap_local loss_local : list R) (gamma : R) :
  repeat_update n st gap_local loss_local gamma
  = mkStats (ema_n gamma n (gap_mean_ st) (tmean gap_local))
            (ema_n gamma n (gap_std_ st) (tstd gap_local))
            (ema_n gamma n (loss_mean_ st) (tmean loss_local))
            (ema_n gamma n (loss_std_ st) (tstd loss_local)).
Proof.
  induction n as [|n IH]; cbn [repeat_update].
  - destruct st. unfold ema_n. simpl. f_equal; lra.
  - rewrite IH. unfold update_and_sync_tensor_mean.
    rewrite decide_False by lia.
    cbn [gap_mean_ gap_std_ loss_mean_ loss_std_].
    by rewrite !ema_n_step.
Qed.

(** X13. With a NaN in the element type: the unbiased standard deviation
    of a single value is NaN (0/0), so an update by one process on a
    batch of one example makes [gap_std] and [loss_std] NaN, and every
    later update, on any batch, leaves them NaN. *)
Theorem single_example_poisons_std (st : Stats (option R)) (gap loss : option R)
    (gamma : option R) (rank : nat) (peers : nat → Stats (option R)) :
  let st1 := update_and_sync_tensor_mean st [gap] [loss] gamma rank 1 peers in
  gap_std_ st1 = None ∧ loss_std_ st1 = None ∧
  ∀ gap_local loss_local,
    let st2 := update_and_sync_tensor_mean st1 gap_local loss_local gamma
                 rank 1 peers in
    gap_std_ st2 = None ∧ loss_std_ st2 = None.
Proof.
  assert (∀ x : option R, tstd [x] = None) as Hstd.
  { intros x. unfold tstd, tmean, tsum. simpl.
    replace (1 - 1)%R with 0%R by lra.
    destruct x as [x|]; simpl; [|done].
    destruct (decide (1%R = 0%R)); [lra|]. simpl.
    by rewrite decide_True. }
  assert (∀ g r : option R, ema g r None = None) as Hnew.
  { intros g r. unfold ema. simpl. destruct g, r; done. }
  assert (∀ g b : option R, ema g None b = None) as Hold.
  { intros g b. unfold ema. simpl. destruct g, b; done. }
  cbn zeta. unfold update_and_sync_tensor_mean.
  rewrite !(decide_False (P := 1 < 1)) by lia.
  cbn [gap_mean_ gap_std_ loss_mean_ loss_std_].
  rewrite !Hstd, !Hnew. split_and!; [done|done|].
  intros gap_local loss_local. by rewrite !Hold.
Qed.

(** ** [get_batch_logps] over the reals *)

Lemma exp_le_tsum (xs : list R) x :
  x ∈ xs → (exp x <= tsum (map exp xs))%R.
Proof.
  induction xs as [|y xs IH]; [by intros ?%elem_of_nil|].
  rewrite map_cons, tsum_R_cons.
  assert (0 <= tsum (map exp xs))%R as Hsum.
  { apply tsum_R_nonneg'. rewrite Forall_map. apply Forall_forall.
    intros z _. apply Rlt_le, exp_pos. }
  pose proof (exp_pos y).
  intros [->|Hin]%elem_of_cons; [lra|]. apply IH in Hin. lra.
Qed.

Lemma log_softmax_R_nonpos (xs : list R) y :
  y ∈ log_softmax xs → (y <= 0)%R.
Proof.
  unfold log_softmax. intros (x & -> & Hx)%list_elem_of_fmap. simpl.
  pose proof (exp_le_tsum xs x Hx) as Hle. pose proof (exp_pos x) as Hpos.
  assert (ln (exp x) <= ln (tsum (map exp xs)))%R as Hln.
  { destruct Hle as [Hlt|Heq]; [|rewrite Heq; lra].
    apply Rlt_le, ln_increasing; lra. }
  rewrite ln_exp in Hln. unfold fsub. lra.
Qed.

Lemma gather_label_elem {F} (logp : list F) label x :
  gather_label logp label = Some x → x ∈ logp.
Proof.
  unfold gather_label. destruct (decide (0 ≤ label)%Z); [|done].
  apply list_elem_of_lookup_2.
Qed.

Lemma per_token_logps_of_R (logits : list (list R)) (labels : list Z) row :
  per_token_logps_of logits labels = Some row →
  length logits = length labels →
  length row = length labels - 1 ∧ Forall (fun x => x <= 0)%R row.
Proof.
  unfold per_token_logps_of. intros Hm Hlen.
  pose proof (length_mapM _ _ _ Hm) as Hl.
  rewrite length_zip_with, length_take, length_map, length_drop in Hl.
  split; [lia|].
  apply mapM_Some_1 in Hm. apply Forall_forall. intros x Hx.
  apply list_elem_of_lookup in Hx as [i Hi].
  destruct (Forall2_lookup_r _ _ _ _ _ Hm Hi) as ([xs l] & _ & Hg).
  eapply log_softmax_R_nonpos, gather_label_elem, Hg.
Qed.

Lemma masked_sum_R (row : list R) : ∀ mask,
  masked_sum row mask
  = tsum (filter (fun p : R * bool => p.2 = true) (zip row mask)).*1.
Proof.
  unfold masked_sum.
  induction row as [|x row IH]; intros [|b mask]; try done.
  cbn [zip_with zip]. rewrite tsum_R_cons, IH, filter_cons.
  destruct b.
  - rewrite decide_True by done. rewrite fmap_cons, tsum_R_cons.
    unfold of_bool. simpl. lra.
  - rewrite decide_False by done. unfold of_bool. simpl. lra.
Qed.

Lemma mask_count_kept (row : list R) : ∀ mask,
  length row = length mask →
  length (filter (fun b => b = true) mask)
  = length (filter (fun p : R * bool => p.2 = true) (zip row mask)).*1.
Proof.
  induction row as [|x row IH]; intros [|b mask] Hlen; try done.
  cbn [zip_with zip]. rewrite !filter_cons. simpl in Hlen.
  destruct b.
  - rewrite !decide_True by done. rewrite fmap_cons. cbn [length].
    f_equal. apply IH. lia.
  - rewrite !decide_False by done. apply IH. lia.
Qed.

Lemma tsum_R_nonpos (t : list R) : Forall (fun w => w <= 0)%R t → (tsum t <= 0)%R.
Proof.
  induction 1 as [|x t Hx _ IH]; [unfold tsum; simpl; lra|].
  rewrite tsum_R_cons. lra.
Qed.

Lemma kept_logps_sub {F} (row : list F) labels x :
  x ∈ kept_logps row labels → x ∈ row.
Proof.
  unfold kept_logps. intros ([y b] & -> & Hin)%list_elem_of_fmap.
  apply list_elem_of_filter in Hin as [_ Hin]. by eapply elem_of_zip_l.
Qed.

(** What a returned triple is made of, row by row. *)
Lemma get_batch_logps_inv {F} `{ScalarLog F} (logits : list (list (list F)))
    (labels : list (list Z)) ptl lp avg :
  get_batch_logps logits labels = Some (ptl, lp, avg) →
  map length logits = map length labels ∧
  length ptl = length labels ∧ length lp = length labels ∧
  length avg = length labels ∧
  ∀ b lab, labels !! b = Some lab →
    ∃ lg row,
      logits !! b = Some lg ∧ length lg = length lab ∧
      ptl !! b = Some row ∧ per_token_logps_of lg lab = Some row ∧
      lp !! b = Some (masked_sum row (loss_mask_of lab)) ∧
      avg !! b = Some (fdiv (masked_sum row (loss_mask_of lab))
                            (mask_count (loss_mask_of lab))).
Proof.
  unfold get_batch_logps.
  destruct (bool_decide _) eqn:Esh; [|done]. apply bool_decide_eq_true in Esh.
  cbn [negb].
  destruct (mapM _ _) as [ptl'|] eqn:Em; [|done]. simpl.
  intros [= <- <- <-].
  assert (length logits = length labels) as Hn.
  { by rewrite <- (length_map length logits), Esh, length_map. }
  pose proof (length_mapM _ _ _ Em) as Hl. rewrite length_zip_with in Hl.
  split; [done|]. split; [lia|].
  split; [rewrite length_zip_with, length_map; lia|].
  split; [rewrite !length_zip_with, length_map; lia|].
  intros b lab Hb.
  destruct (lookup_lt_is_Some_2 logits b) as [lg Hlg].
  { rewrite Hn. by eapply lookup_lt_Some. }
  assert (length lg = length lab) as Hlen.
  { assert (map length logits !! b = map length labels !! b) as E
      by (by rewrite Esh).
    rewrite !list_lookup_fmap, Hlg, Hb in E. by injection E. }
  apply mapM_Some_1 in Em.
  destruct (Forall2_lookup_l _ _ _ b (lg, lab) Em) as (row & Hrow & Hp).
  { apply lookup_zip_with_Some. by exists lg, lab. }
  simpl in Hp. exists lg, row. split_and!; [done|done|done|done| |].
  - apply lookup_zip_with_Some. exists row, (loss_mask_of lab).
    split_and!; [done|done|]. by rewrite list_lookup_fmap, Hb.
  - apply lookup_zip_with_Some.
    exists (masked_sum row (loss_mask_of lab)), (loss_mask_of lab).
    split_and!; [done| |].
    + apply lookup_zip_with_Some. exists row, (loss_mask_of lab).
      split_and!; [done|done|]. by rewrite list_lookup_fmap, Hb.
    + by rewrite list_lookup_fmap, Hb.
Qed.

(** X14. Over the reals, [get_batch_logps] returns one row per row of
    labels; the per-token log-probabilities of a row are one fewer than
    its labels and never positive; [log_prob] is the sum of those at the
    positions whose next label is not [-100]; it is never positive; and
    [average_log_prob] is that sum divided by the number of such
    positions. *)
Theorem log_prob_sums_kept_tokens (logits : list (list (list R)))
    (labels : list (list Z)) (per_token_logps : list (list R))
    (log_prob average_log_prob : list R) :
  get_batch_logps logits labels
    = Some (per_token_logps, log_prob, average_log_prob) →
  length per_token_logps = length labels ∧
  ∀ b lab, labels !! b = Some lab →
    ∃ row s a,
      per_token_logps !! b = Some row ∧ log_prob !! b = Some s ∧
      average_log_prob !! b = Some a ∧
      length row = length lab - 1 ∧ Forall (fun x => x <= 0)%R row ∧
      s = tsum (kept_logps row lab) ∧ (s <= 0)%R ∧
      a = (s / INR (length (kept_logps row lab)))%R.
Proof.
  intros (Hsh & Hn & _ & _ & Hrows)%get_batch_logps_inv. split; [done|].
  intros b lab Hb.
  destruct (Hrows b lab Hb) as (lg & row & Hlg & Hlen & Hrow & Hp & Hs & Ha).
  destruct (per_token_logps_of_R _ _ _ Hp Hlen) as [Hl Hneg].
  do 3 eexists. split_and!; [done|done|done|done|done| | |].
  - apply masked_sum_R.
  - rewrite masked_sum_R. apply tsum_R_nonpos, Forall_forall.
    intros x Hx. rewrite Forall_forall in Hneg.
    by apply Hneg, (kept_logps_sub row lab).
  - unfold mask_count. simpl. rewrite masked_sum_R. unfold kept_logps.
    rewrite (mask_count_kept row); [done|].
    unfold loss_mask_of. rewrite length_map, length_drop. lia.
Qed.

Section logps_returns.
Context {F : Type} `{ScalarLog F}.

Lemma gather_label_is_Some (xs : list F) (l : Z) :
  is_Some (gather_label (log_softmax xs) l)
  ↔ (0 ≤ l)%Z ∧ Z.to_nat l < length xs.
Proof.
  unfold gather_label, log_softmax.
  destruct (decide (0 ≤ l)%Z) as [Hl|Hl].
  - rewrite lookup_lt_is_Some, length_map. tauto.
  - split; [by intros [? ?]|tauto].
Qed.

Lemma per_token_logps_of_is_Some (logits : list (list F)) (labels : list Z) :
  is_Some (per_token_logps_of logits labels) ↔ labels_in_vocab logits labels.
Proof.
  unfold per_token_logps_of, labels_in_vocab. rewrite mapM_is_Some.
  apply Forall_proper; [|done]. intros [xs l]. simpl.
  apply gather_label_is_Some.
Qed.
End logps_returns.

Lemma get_batch_logps_rows {F : Type} `{ScalarLog F}
    (logits : list (list (list F))) (labels : list (list Z)) :
  length logits = length labels →
  is_Some (mapM (fun p : list (list F) * list Z =>
                   per_token_logps_of p.1 p.2) (zip logits labels))
  ↔ Forall2 labels_in_vocab logits labels.
Proof.
  intros Hn. rewrite mapM_is_Some. split.
  - intros Hall. apply Forall2_same_length_lookup_2; [done|].
    intros i lg lab Hlg Hlab. rewrite Forall_forall in Hall.
    apply per_token_logps_of_is_Some.
    apply (Hall (lg, lab)). apply list_elem_of_lookup. exists i.
    apply lookup_zip_with_Some. by exists lg, lab.
  - intros Hall. apply Forall_forall. intros [lg lab] Hin.
    apply list_elem_of_lookup in Hin as [i Hi].
    apply lookup_zip_with_Some in Hi as (lg' & lab' & [= <- <-] & Hlg & Hlab).
    apply per_token_logps_of_is_Some.
    by eapply Forall2_lookup_lr.
Qed.

(** [get_batch_logps] returns when the shapes agree and the labels index
    the vocabulary. *)
Lemma get_batch_logps_returns {F : Type} `{ScalarLog F}
    (logits : list (list (list F))) (labels : list (list Z)) :
  map length logits = map length labels →
  Forall2 labels_in_vocab logits labels →
  is_Some (get_batch_logps logits labels).
Proof.
  intros Esh Hall. unfold get_batch_logps.
  rewrite bool_decide_eq_true_2 by done. cbn [negb].
  apply get_batch_logps_rows in Hall as [ptl ->]; [by eexists|].
  by rewrite <- (length_map length logits), Esh, length_map.
Qed.

(** X15. [get_batch_logps] returns exactly when [logits.shape[:-1]]
    equals [labels.shape] and, in every row, each label from the second
    one on ([-100] read as 0) indexes the vocabulary of the logits one
    position earlier; otherwise the [assert] or [torch.gather] raises.
    The first label of a row and the logits of its last position are
    never read. *)
Theorem get_batch_logps_returns_iff {F : Type} `{ScalarLog F}
    (logits : list (list (list F))) (labels : list (list Z)) :
  is_Some (get_batch_logps logits labels)
  ↔ map length logits = map length labels ∧
    Forall2 labels_in_vocab logits labels.
Proof.
  split; [|intros [Esh Hall]; by apply get_batch_logps_returns].
  unfold get_batch_logps.
  destruct (bool_decide _) eqn:Esh; cbn [negb]; [|by intros [? ?]].
  apply bool_decide_eq_true in Esh.
  destruct (mapM _ _) as [ptl|] eqn:Em; [|by intros [? ?]].
  intros _. split; [done|]. apply get_batch_logps_rows.
  - by rewrite <- (length_map length logits), Esh, length_map.
  - by rewrite Em.
Qed.

Lemma log_prob_sums_kept_tokens_witness :
  ∃ per_token_logps log_prob average_log_prob,
    get_batch_logps [[[0; 0]; [0; 0]]]%R [[5; 1]]%Z
      = Some (per_token_logps, log_prob, average_log_prob) ∧
    length per_token_logps = length [[5; 1]]%Z ∧
    ∀ b lab, [[5; 1]]%Z !! b = Some lab →
      ∃ row s a,
        per_token_logps !! b = Some row ∧ log_prob !! b = Some s ∧
        average_log_prob !! b = Some a ∧
        length row = length lab - 1 ∧ Forall (fun x => x <= 0)%R row ∧
        s = tsum (kept_logps row lab) ∧ (s <= 0)%R ∧
        a = (s / INR (length (kept_logps row lab)))%R.
Proof.
  destruct (get_batch_logps_returns [[[0; 0]; [0; 0]]]%R [[5; 1]]%Z)
    as [[[ptl lp] avg] Hout];
    [reflexivity|repeat constructor; simpl; lia|].
  exists ptl, lp, avg. split; [exact Hout|].
  exact (log_prob_sums_kept_tokens _ _ ptl lp avg Hout).
Defined.

(** ** [compute_weighted_logp] after [get_batch_logps] *)

Lemma unit_weighted_row (row : list R) : ∀ mask : list bool,
  zip_with Rmult row
    (zip_with (fun w b => w * of_bool b)%R (map (fun _ => 1%R) row) mask)
  = zip_with (fun x b => x * of_bool b)%R row mask.
Proof.
  induction row as [|x row IH]; intros [|b mask]; try done.
  cbn [map zip_with]. rewrite IH. f_equal. lra.
Qed.

Lemma unit_weighted_count (row : list R) : ∀ mask : list bool,
  length row = length mask →
  tsum (zip_with (fun w b => w * of_bool b)%R (map (fun _ => 1%R) row) mask)
  = INR (length (filter (fun b => b = true) mask)).
Proof.
  induction row as [|x row IH]; intros [|b mask] Hlen; try done.
  cbn [map zip_with]. rewrite tsum_R_cons, IH by (simpl in Hlen; lia).
  rewrite filter_cons. destruct b.
  - rewrite decide_True by done. cbn [length]. rewrite S_INR.
    unfold of_bool. simpl. lra.
  - rewrite decide_False by done. unfold of_bool. simpl. lra.
Qed.

(** X16. Over the reals, [compute_weighted_logp] with token weights
    [ones_like(per_token_logps)] gives back what [get_batch_logps]
    computed from the same labels: [log_prob] without [use_average], and
    [average_log_prob] with it. *)
Theorem unit_weights_give_log_prob (logits : list (list (list R)))
    (labels : list (list Z)) (per_token_logps : list (list R))
    (log_prob average_log_prob : list R) :
  get_batch_logps logits labels
    = Some (per_token_logps, log_prob, average_log_prob) →
  compute_weighted_logp per_token_logps labels (ones_like per_token_logps)
    false = log_prob ∧
  compute_weighted_logp per_token_logps labels (ones_like per_token_logps)
    true = average_log_prob.
Proof.
  intros (Hsh & Hn & Hnl & Hna & Hrows)%get_batch_logps_inv.
  assert (∀ b, zip_with (fun lp wm => tsum (zip_with fmul lp wm))
                 per_token_logps
                 (zip_with (zip_with (fun w b => fmul w (of_bool b)))
                    (ones_like per_token_logps) (map loss_mask_of labels)) !! b
               = log_prob !! b) as Hlogp.
  { intros b. destruct (labels !! b) as [lab|] eqn:Hb.
    - destruct (Hrows b lab Hb) as (lg & row & Hlg & Hlen & Hrow & Hp & Hs & Ha).
      rewrite Hs. apply lookup_zip_with_Some.
      exists row, (zip_with (fun w b => fmul w (of_bool b))
                     (map (fun _ => 1%R) row) (loss_mask_of lab)).
      split_and!; [|done|].
      + unfold masked_sum. by rewrite <- unit_weighted_row.
      + apply lookup_zip_with_Some.
        exists (map (fun _ => 1%R) row), (loss_mask_of lab).
        split_and!; [done| |by rewrite list_lookup_fmap, Hb].
        unfold ones_like. by rewrite list_lookup_fmap, Hrow.
    - apply lookup_ge_None in Hb.
      rewrite (proj2 (lookup_ge_None log_prob b)) by lia.
      apply lookup_ge_None. rewrite length_zip_with. lia. }
  split; unfold compute_weighted_logp; cbn zeta.
  - by apply list_eq.
  - apply list_eq. intros b. destruct (labels !! b) as [lab|] eqn:Hb.
    + destruct (Hrows b lab Hb) as (lg & row & Hlg & Hlen & Hrow & Hp & Hs & Ha).
      rewrite Ha. apply lookup_zip_with_Some.
      exists (masked_sum row (loss_mask_of lab)),
        (zip_with (fun w b => fmul w (of_bool b))
                     (map (fun _ => 1%R) row) (loss_mask_of lab)).
      split_and!; [|by rewrite Hlogp|].
      * f_equal. unfold mask_count. simpl.
        destruct (per_token_logps_of_R _ _ _ Hp Hlen) as [Hl _].
        rewrite unit_weighted_count; [done|].
        unfold loss_mask_of. rewrite length_map, length_drop. lia.
      * apply lookup_zip_with_Some.
        exists (map (fun _ => 1%R) row), (loss_mask_of lab).
        split_and!; [done| |by rewrite list_lookup_fmap, Hb].
        unfold ones_like. by rewrite list_lookup_fmap, Hrow.
    + apply lookup_ge_None in Hb.
      rewrite (proj2 (lookup_ge_None average_log_prob b)) by lia.
      apply lookup_ge_None. rewrite !length_zip_with. lia.
Qed.

Lemma unit_weights_give_log_prob_witness :
  ∃ per_token_logps log_prob average_log_prob,
    get_batch_logps [[[0; 0]; [0; 0]]]%R [[5; 1]]%Z
      = Some (per_token_logps, log_prob, average_log_prob) ∧
    compute_weighted_logp per_token_logps [[5; 1]]%Z
      (ones_like per_token_logps) false = log_prob ∧
    compute_weighted_logp per_token_logps [[5; 1]]%Z
      (ones_like per_token_logps) true = average_log_prob.
Proof.
  destruct (get_batch_logps_returns [[[0; 0]; [0; 0]]]%R [[5; 1]]%Z)
    as [[[ptl lp] avg] Hout];
    [reflexivity|repeat constructor; simpl; lia|].
  exists ptl, lp, avg. split; [exact Hout|].
  exact (unit_weights_give_log_prob _ _ ptl lp avg Hout).
Defined.

(** ** [get_batch_logps] with a NaN in the element type *)

Lemma fdiv_NaN_zero (x : option R) : fdiv x (of_real 0) = None.
Proof. destruct x; simpl; [by rewrite decide_True|done]. Qed.

Lemma loss_mask_of_ignored (lab : list Z) :
  Forall (fun l => l = (-100)%Z) (drop 1 lab) →
  filter (fun b => b = true) (loss_mask_of lab) = [].
Proof.
  unfold loss_mask_of. induction 1 as [|l ls -> _ IH]; [done|].
  rewrite map_cons, filter_cons, bool_decide_eq_true_2 by done.
  by rewrite decide_False.
Qed.

(** X17. With a NaN in the element type: for a row whose labels from the
    second one on are all [-100] (or that has at most one label), the
    masked count is 0 and [average_log_prob] of the row is NaN. *)
Theorem ignored_row_has_nan_average (logits : list (list (list (option R))))
    (labels : list (list Z)) (per_token_logps : list (list (option R)))
    (log_prob average_log_prob : list (option R)) (b : nat) (lab : list Z) :
  get_batch_logps logits labels
    = Some (per_token_logps, log_prob, average_log_prob) →
  labels !! b = Some lab →
  Forall (fun l => l = (-100)%Z) (drop 1 lab) →
  average_log_prob !! b = Some None.
Proof.
  intros (_ & _ & _ & _ & Hrows)%get_batch_logps_inv Hb Hall.
  destruct (Hrows b lab Hb) as (lg & row & _ & _ & _ & _ & _ & Ha).
  rewrite Ha. f_equal. unfold mask_count.
  rewrite (loss_mask_of_ignored lab Hall). apply fdiv_NaN_zero.
Qed.

Lemma ignored_row_has_nan_average_witness :
  ∃ per_token_logps log_prob average_log_prob,
    get_batch_logps [[[Some 0%R]; [Some 0%R]]] [[7; -100]]%Z
      = Some (per_token_logps, log_prob, average_log_prob) ∧
    [[7; -100]]%Z !! 0 = Some [7; -100]%Z ∧
    Forall (fun l => l = (-100)%Z) (drop 1 [7; -100]%Z) ∧
    average_log_prob !! 0 = Some None.
Proof.
  destruct (get_batch_logps_returns [[[Some 0%R]; [Some 0%R]]] [[7; -100]]%Z)
    as [[[ptl lp] avg] Hout];
    [reflexivity|repeat constructor; simpl; lia|].
  assert (Forall (fun l => l = (-100)%Z) (drop 1 [7; -100]%Z)) as Hall
    by (repeat constructor).
  exists ptl, lp, avg. split; [exact Hout|]. split; [reflexivity|].
  split; [exact Hall|].
  exact (ignored_row_has_nan_average _ _ ptl lp avg 0 [7; -100]%Z Hout
           eq_refl Hall).
Defined.

Lemma masked_sum_NaN (row : list (option R)) : ∀ (mask : list bool) t,
  row !! t = Some None → t < length mask → masked_sum row mask = None.
Proof.
  unfold masked_sum. intros mask t Ht Hlt. apply tsum_NaN.
  apply list_elem_of_lookup. exists t.
  destruct (lookup_lt_is_Some_2 mask t Hlt) as [m Hm].
  apply lookup_zip_with_Some. exists None, m. done.
Qed.

(** X18. With a NaN in the element type: the mask is applied by
    multiplication, so a NaN among the per-token log-probabilities of a
    row makes [log_prob] and [average_log_prob] of the row NaN, also at a
    position whose label is [-100]. *)
Theorem nan_token_poisons_masked_sum (logits : list (list (list (option R))))
    (labels : list (list Z)) (per_token_logps : list (list (option R)))
    (log_prob average_log_prob : list (option R)) (b t : nat)
    (row : list (option R)) :
  get_batch_logps logits labels
    = Some (per_token_logps, log_prob, average_log_prob) →
  per_token_logps !! b = Some row → row !! t = Some None →
  log_prob !! b = Some None ∧ average_log_prob !! b = Some None.
Proof.
  intros (Hsh & Hn & _ & _ & Hrows)%get_batch_logps_inv Hrow Ht.
  destruct (lookup_lt_is_Some_2 labels b) as [lab Hb].
  { rewrite <- Hn. by eapply lookup_lt_Some. }
  destruct (Hrows b lab Hb) as (lg & row' & _ & Hlen & Hrow' & Hp & Hs & Ha).
  rewrite Hrow in Hrow'. injection Hrow' as <-.
  assert (masked_sum row (loss_mask_of lab) = None) as Hnan.
  { apply (masked_sum_NaN row _ t Ht).
    pose proof (length_mapM _ _ _ Hp) as Hl.
    rewrite length_zip_with, length_take, length_map, length_drop in Hl.
    unfold loss_mask_of. rewrite length_map, length_drop.
    apply lookup_lt_Some in Ht. lia. }
  rewrite Hs, Ha, Hnan. done.
Qed.

Lemma nan_token_poisons_masked_sum_witness :
  ∃ per_token_logps log_prob average_log_prob row,
    get_batch_logps [[[None]; [Some 0%R]]] [[7; -100]]%Z
      = Some (per_token_logps, log_prob, average_log_prob) ∧
    per_token_logps !! 0 = Some row ∧ row !! 0 = Some None ∧
    log_prob !! 0 = Some None ∧ average_log_prob !! 0 = Some None.
Proof.
  destruct (get_batch_logps [[[None]; [Some 0%R]]] [[7; -100]]%Z)
    as [[[ptl lp] avg]|] eqn:Hout.
  2:{ exfalso. revert Hout. vm_compute. discriminate. }
  assert (ptl = [[None]]) as ->.
  { revert Hout. vm_compute. by intros [= <- _ _]. }
  exists [[None]], lp, avg, [None]. split; [reflexivity|].
  split; [reflexivity|]. split; [reflexivity|].
  exact (nan_token_poisons_masked_sum _ _ [[None]] lp avg 0 0 [None] Hout
           eq_refl eq_refl).
Defined.

(** ** [find_all_linear_names] *)

Lemma prefix_dot_head c s :
  String.prefix "." (String c s) = bool_decide (c = "."%char).
Proof.
  change (String.prefix "." (String c s))
    with (if Ascii.ascii_dec "." c then String.prefix "" s else false).
  destruct (Ascii.ascii_dec "." c) as [<-|Hne].
  - rewrite bool_decide_eq_true_2 by done. by destruct s.
  - rewrite bool_decide_eq_false_2; [done|]. by intros ->.
Qed.

Lemma str_in_dot_cons c s :
  str_in "." (String c s) = bool_decide (c = "."%char) || str_in "." s.
Proof. cbn [str_in]. by rewrite prefix_dot_head. Qed.

Lemma split_dot_nonempty s : split_dot s ≠ [].
Proof.
  destruct s as [|c s]; simpl; [done|].
  destruct (decide _); [done|]. by destruct (split_dot s).
Qed.

(** No piece of [s.split('.')] contains a dot. *)
Lemma split_dot_no_dot s : Forall (fun piece => str_in "." piece = false) (split_dot s).
Proof.
  induction s as [|c s IH]; simpl.
  { by constructor. }
  destruct (decide (c = "."%char)) as [->|Hne].
  - by constructor.
  - destruct (split_dot s) as [|piece pieces].
    { constructor; [|constructor].
      by rewrite str_in_dot_cons, bool_decide_eq_false_2. }
    apply Forall_cons in IH as [Hp Hps]. constructor; [|done].
    rewrite str_in_dot_cons, Hp. by rewrite bool_decide_eq_false_2.
Qed.

(** Joining the pieces with dots gives the name back. *)
Lemma join_dot_split_dot s : join_dot (split_dot s) = s.
Proof.
  induction s as [|c s IH]; simpl; [done|].
  pose proof (split_dot_nonempty s).
  destruct (split_dot s) as [|piece pieces] eqn:E; [done|].
  destruct (decide (c = "."%char)) as [->|Hne].
  - change (join_dot ("" :: piece :: pieces))
      with ("" +:+ "." +:+ join_dot (piece :: pieces)).
    by rewrite IH.
  - destruct pieces as [|piece' pieces'].
    + change (join_dot [piece]) with piece in IH. by rewrite <- IH.
    + change (join_dot (piece :: piece' :: pieces'))
        with (piece +:+ "." +:+ join_dot (piece' :: pieces')) in IH.
      change (join_dot (String c piece :: piece' :: pieces'))
        with (String c (piece +:+ "." +:+ join_dot (piece' :: pieces'))).
      by rewrite IH.
Qed.

Lemma string_app_assoc (s1 s2 s3 : string) :
  (s1 +:+ s2) +:+ s3 = s1 +:+ (s2 +:+ s3).
Proof.
  induction s1 as [|c s1 IH]; [done|].
  change (String c ((s1 +:+ s2) +:+ s3) = String c (s1 +:+ (s2 +:+ s3))).
  by rewrite IH.
Qed.

(** The name ends with its last piece, and what precedes it is empty or
    ends with a dot. *)
Lemma join_dot_last pieces piece :
  last pieces = Some piece →
  ∃ before,
    join_dot pieces = before +:+ piece ∧
    (before = EmptyString ∨ ∃ b, before = b +:+ ".").
Proof.
  induction pieces as [|p ps IH]; [done|].
  destruct ps as [|p' ps'].
  - intros [= ->]. exists EmptyString. split; [done|by left].
  - rewrite last_cons. intros Hl.
    destruct (proj2 (last_is_Some (p' :: ps'))) as [q E]; [done|].
    rewrite E in Hl. injection Hl as ->.
    destruct (IH E) as (before & Hj & Hb).
    exists (p +:+ "." +:+ before). split.
    + change (join_dot (p :: p' :: ps'))
        with (p +:+ "." +:+ join_dot (p' :: ps')).
      rewrite Hj. by rewrite !string_app_assoc.
    + right. destruct Hb as [->|[b ->]].
      * by exists p.
      * exists (p +:+ "." +:+ b). by rewrite !string_app_assoc.
Qed.

Lemma linear_name_last name :
  last (split_dot name) = Some (linear_name name).
Proof.
  unfold linear_name. pose proof (split_dot_nonempty name).
  destruct (split_dot name) as [|p ps] eqn:E; [done|].
  destruct (decide (length (p :: ps) = 1)) as [Hl|Hl].
  - destruct ps; [done|simpl in Hl; lia].
  - destruct (proj2 (last_is_Some (p :: ps))) as [q ->]; done.
Qed.

Lemma linear_name_spec name :
  str_in "." (linear_name name) = false ∧
  ∃ before,
    name = before +:+ linear_name name ∧
    (before = EmptyString ∨ ∃ b, before = b +:+ ".").
Proof.
  pose proof (linear_name_last name) as Hl. split.
  - pose proof (split_dot_no_dot name) as Hnd. rewrite Forall_forall in Hnd.
    by apply Hnd, last_Some_elem_of.
  - destruct (join_dot_last _ _ Hl) as (before & Hj & Hb).
    rewrite join_dot_split_dot in Hj. by exists before.
Qed.

Lemma existsb_keywords name :
  existsb (fun mm_keyword => str_in mm_keyword name) multimodal_keywords = false
  ↔ not_multimodal name.
Proof.
  unfold not_multimodal. generalize multimodal_keywords as kws.
  induction kws as [|kw kws IH]; simpl.
  - split; [constructor|done].
  - rewrite orb_false_iff, Forall_cons, IH. done.
Qed.

Lemma linear_names_fold (named_modules : list (string * bool)) :
  ∀ (acc : gset string) s,
    s ∈ foldl (fun (acc : gset string) (m : string * bool) =>
                if existsb (fun mm_keyword => str_in mm_keyword m.1)
                     multimodal_keywords
                then acc
                else if m.2 then {[ linear_name m.1 ]} ∪ acc else acc)
              acc named_modules
    ↔ s ∈ acc ∨
      ∃ name, (name, true) ∈ named_modules ∧ not_multimodal name ∧
              linear_name name = s.
Proof.
  induction named_modules as [|[name is_linear] rest IH]; intros acc s.
  { simpl. split; [by left|]. intros [?|(? & ?%elem_of_nil & _)]; done. }
  cbn [foldl]. rewrite IH. cbn [fst snd].
  destruct (existsb _ _) eqn:Ekw.
  - split.
    + intros [?|(n & Hn & Hk & Hs)]; [by left|].
      right. exists n. split; [by right|done].
    + intros [?|(n & Hn & Hk & Hs)]; [by left|].
      apply elem_of_cons in Hn as [[= -> _]|Hn].
      * apply existsb_keywords in Hk. congruence.
      * right. by exists n.
  - apply existsb_keywords in Ekw. destruct is_linear.
    + rewrite elem_of_union, elem_of_singleton. split.
      * intros [[->|?]|(n & Hn & Hk & Hs)]; [|by left|].
        -- right. exists name. split; [by left|done].
        -- right. exists n. split; [by right|done].
      * intros [?|(n & Hn & Hk & Hs)]; [by left; right|].
        apply elem_of_cons in Hn as [[= -> ]|Hn].
        -- by left; left.
        -- right. by exists n.
    + split.
      * intros [?|(n & Hn & Hk & Hs)]; [by left|].
        right. exists n. split; [by right|done].
      * intros [?|(n & Hn & Hk & Hs)]; [by left|].
        apply elem_of_cons in Hn as [Heq|Hn]; [by injection Heq|].
        right. by exists n.
Qed.

Lemma find_all_linear_names_elem (named_modules : list (string * bool)) s :
  s ∈ find_all_linear_names named_modules
  ↔ s ≠ "lm_head"%string ∧
    ∃ name, (name, true) ∈ named_modules ∧ not_multimodal name ∧
            linear_name name = s.
Proof.
  unfold find_all_linear_names. cbn zeta.
  destruct (decide _) as [Hin|Hnin].
  - rewrite elem_of_difference, elem_of_singleton, linear_names_fold.
    rewrite elem_of_empty. tauto.
  - rewrite linear_names_fold, elem_of_empty. split.
    + intros [[]|Hex]. split; [|done]. intros ->.
      apply Hnin, linear_names_fold. by right.
    + intros [_ Hex]. by right.
Qed.

(** X19. [find_all_linear_names] returns exactly the last dotted
    components of the names of the [Linear] modules whose name contains
    none of [mm_projector], [vision_tower], [vision_resampler], except
    [lm_head].  So no returned name contains a dot, each is what follows
    the last dot of a module name (or the whole name), and [lm_head] is
    never returned. *)
Theorem linear_names_are_last_components
    (named_modules : list (string * bool)) :
  (∀ s, s ∈ find_all_linear_names named_modules →
     s ≠ "lm_head"%string ∧ str_in "." s = false ∧
     ∃ name before,
       (name, true) ∈ named_modules ∧ not_multimodal name ∧
       name = before +:+ s ∧
       (before = EmptyString ∨ ∃ b, before = b +:+ ".")) ∧
  (∀ name, (name, true) ∈ named_modules → not_multimodal name →
     linear_name name ≠ "lm_head"%string →
     linear_name name ∈ find_all_linear_names named_modules).
Proof.
  split.
  - intros s (Hne & name & Hin & Hk & <-)%find_all_linear_names_elem.
    destruct (linear_name_spec name) as (Hnd & before & Hname & Hb).
    split_and!; [done|done|]. by exists name, before.
  - intros name Hin Hk Hne. apply find_all_linear_names_elem.
    split; [done|]. by exists name.
Qed.

(** ** The saved state dictionaries *)

Lemma prefix_length s : ∀ p,
  String.prefix p s = true → String.length p ≤ String.length s.
Proof.
  induction s as [|c s IH]; intros [|a p]; simpl; try done; try lia.
  destruct (Ascii.ascii_dec a c); [|done].
  intros Hp%IH. lia.
Qed.

Lemma str_in_length p s :
  str_in p s = true → String.length p ≤ String.length s.
Proof.
  induction s as [|c s IH]; cbn [str_in].
  - rewrite orb_false_r. apply prefix_length.
  - intros [Hp|Hin]%orb_true_iff; [by apply prefix_length|].
    apply IH in Hin. simpl. lia.
Qed.

(** A key that contains ["bias"] cannot be unpacked into two names. *)
Lemma unpack2_bias key : str_in "bias" key = true → unpack2 key = None.
Proof.
  intros Hlen%str_in_length. simpl in Hlen.
  destruct key as [|a [|b [|c key]]]; simpl in *; try done; lia.
Qed.

Section peft_facts.
Context {T : Type} (maybe_zero_3 cpu : T → T) (requires_grad : T → bool).

Lemma dict_of_snoc {V} (items : list (string * V)) k v :
  dict_of (items ++ [(k, v)]) = <[k := v]> (dict_of items).
Proof. unfold dict_of. by rewrite foldl_app. Qed.

Lemma lora_only_first_loop_spec (named_params : list (string * T)) :
  let st := lora_only_first_loop named_params in
  to_return st
  = dict_of (filter (fun kt => str_in "lora_" kt.1 = true) named_params) ∧
  Forall (fun k => str_in "bias" k = true) (maybe_lora_bias st) ∧
  (maybe_lora_bias st = [] ↔ has_plain_bias named_params = false).
Proof.
  induction named_params as [|[k t] l IH] using rev_ind.
  { cbn. split_and!; [done|constructor|done]. }
  cbn zeta in *. destruct IH as (Hret & Hkeys & Hnil).
  assert (lora_only_first_loop (l ++ [(k, t)])
          = lora_only_step (lora_only_first_loop l) (k, t)) as ->
    by (unfold lora_only_first_loop; by rewrite foldl_app).
  set (st := lora_only_first_loop l) in *.
  unfold has_plain_bias in *. rewrite existsb_app, filter_app. cbn [existsb fst].
  rewrite filter_cons, filter_nil. cbn [fst].
  unfold lora_only_step. cbn [fst snd].
  destruct (str_in "lora_" k) eqn:El.
  - rewrite decide_True by done. cbn [to_return maybe_lora_bias negb andb].
    rewrite dict_of_snoc, Hret, !orb_false_r. done.
  - rewrite decide_False by done. rewrite app_nil_r. cbn [negb andb].
    destruct (str_in "bias" k) eqn:Eb.
    + cbn [to_return maybe_lora_bias]. rewrite orb_true_r.
      split_and!; [done| |].
      * unfold add_key. destruct (decide _); [done|].
        apply Forall_app. split; [done|]. by apply Forall_singleton.
      * split; [|done]. unfold add_key.
        destruct (decide _) as [Hin|_]; [by intros Hn; rewrite Hn in Hin; apply elem_of_nil in Hin|].
        by intros [_ ?]%app_eq_nil.
    + rewrite !orb_false_r. done.
Qed.

Lemma lora_only_second_loop_bias keys bn names :
  Forall (fun k => str_in "bias" k = true) keys →
  lora_only_second_loop keys bn names
  = match keys with [] => Some () | _ => None end.
Proof.
  intros Hkeys. destruct keys as [|key keys]; [done|].
  apply Forall_cons in Hkeys as [Hb _]. simpl.
  by rewrite (unpack2_bias key Hb).
Qed.

(** X20. With [bias = "lora_only"], [get_peft_state_maybe_zero_3] raises
    as soon as some parameter name contains ["bias"] and not ["lora_"]:
    its second loop iterates over the keys of [maybe_lora_bias] and
    unpacks each key, a string of at least four characters, into two
    names.  Otherwise it returns what [bias = "none"] returns; no bias is
    ever added. *)
Theorem lora_only_raises_on_plain_bias (named_params : list (string * T)) :
  get_peft_state_maybe_zero_3 maybe_zero_3 named_params "lora_only"
  = if has_plain_bias named_params then None
    else get_peft_state_maybe_zero_3 maybe_zero_3 named_params "none".
Proof.
  unfold get_peft_state_maybe_zero_3, peft_to_return.
  rewrite !(decide_False (P := "lora_only"%string = _)) by done.
  rewrite decide_True by done. rewrite (decide_True (P := "none"%string = _)) by done.
  destruct (lora_only_first_loop_spec named_params) as (Hret & Hkeys & Hnil).
  cbn zeta in *. rewrite (lora_only_second_loop_bias _ _ _ Hkeys).
  destruct (maybe_lora_bias (lora_only_first_loop named_params)) as [|k ks].
  - rewrite (proj1 Hnil eq_refl). by rewrite Hret.
  - destruct (has_plain_bias named_params) eqn:E; [done|].
    discriminate (proj2 Hnil eq_refl).
Qed.
End peft_facts.


Lemma dict_of_filter_lookup {V} (P : string → bool) (items : list (string * V)) k :
  dict_of (filter (fun kt => P kt.1 = true) items) !! k
  = if P k then dict_of items !! k else None.
Proof.
  induction items as [|[k' v] l IH] using rev_ind.
  { unfold dict_of. simpl. rewrite lookup_empty. by destruct (P k). }
  rewrite filter_app, filter_cons, filter_nil, dict_of_snoc. cbn [fst].
  destruct (decide (k' = k)) as [->|Hne].
  - rewrite lookup_insert_eq. destruct (P k) eqn:E.
    + rewrite decide_True by done. by rewrite dict_of_snoc, lookup_insert_eq.
    + rewrite decide_False by congruence. by rewrite app_nil_r, IH.
  - rewrite lookup_insert_ne by done. destruct (P k') eqn:E.
    + rewrite decide_True by done.
      by rewrite dict_of_snoc, lookup_insert_ne, IH.
    + rewrite decide_False by congruence. by rewrite app_nil_r, IH.
Qed.

(** X21. With [bias = "none"], [get_peft_state_maybe_zero_3] keeps
    exactly the parameters whose name contains ["lora_"] and
    [get_peft_state_non_lora_maybe_zero_3] without [require_grad_only]
    exactly the others, each with (a copy of) the last tensor bound to
    the name: every parameter is saved in exactly one of the two.  With
    [require_grad_only] the second one keeps only those whose tensor
    requires a gradient. *)
Theorem lora_and_non_lora_split_the_parameters {T : Type}
    (maybe_zero_3 cpu : T → T) (requires_grad : T → bool)
    (named_params : list (string * T)) :
  ∃ lora,
    get_peft_state_maybe_zero_3 maybe_zero_3 named_params "none" = Some lora ∧
    let non_lora := get_peft_state_non_lora_maybe_zero_3 maybe_zero_3 cpu
                      requires_grad named_params false in
    let trainable := get_peft_state_non_lora_maybe_zero_3 maybe_zero_3 cpu
                       requires_grad named_params true in
    ∀ k,
      lora !! k = (if str_in "lora_" k
                   then maybe_zero_3 <$> dict_of named_params !! k else None) ∧
      non_lora !! k
      = (if str_in "lora_" k then None
         else (fun v => cpu (maybe_zero_3 v)) <$> dict_of named_params !! k) ∧
      trainable !! k
      = (if str_in "lora_" k then None
         else (fun v => cpu (maybe_zero_3 v))
                <$> (dict_of named_params !! k
                     ≫= fun v => if requires_grad v then Some v else None)) ∧
      (is_Some (dict_of named_params !! k) →
       is_Some (lora !! k) ∧ non_lora !! k = None ∨
       lora !! k = None ∧ is_Some (non_lora !! k)).
Proof.
  unfold get_peft_state_maybe_zero_3, peft_to_return,
    get_peft_state_non_lora_maybe_zero_3.
  rewrite decide_True by done. eexists. split; [done|]. cbn zeta.
  intros k. rewrite !lookup_fmap.
  rewrite (dict_of_filter_lookup (fun k => str_in "lora_" k)).
  assert (dict_of (filter (fun kt : string * T => str_in "lora_" kt.1 = false)
                     named_params)
          = dict_of (filter (fun kt : string * T =>
                               negb (str_in "lora_" kt.1) = true) named_params))
    as ->.
  { f_equal. apply list_filter_iff. intros [k' v]. simpl.
    by destruct (str_in "lora_" k'). }
  rewrite map_lookup_filter.
  rewrite (dict_of_filter_lookup (fun k => negb (str_in "lora_" k))).
  destruct (str_in "lora_" k) eqn:E; cbn [negb].
  - split_and!; [done|done|done|]. intros [v Hv]. left. rewrite Hv. by eexists.
  - split_and!; [done|done| |].
    + destruct (dict_of named_params !! k) as [v|]; simpl; [|done].
      by destruct (requires_grad v) eqn:Eg.
    + intros [v Hv]. right. rewrite Hv. split; [done|by eexists].
Qed.

(** ** [_mask_targets] *)

Lemma slice_assign_lookup {A} (t : list A) start stop v p :
  slice_assign t start stop v !! p
  = (fun x => if decide (start ≤ p < stop) then v else x) <$> t !! p.
Proof. unfold slice_assign. by rewrite list_lookup_imap. Qed.

Lemma slice_assign_length {A} (t : list A) start stop v :
  length (slice_assign t start stop v) = length t.
Proof. unfold slice_assign. by rewrite length_imap. Qed.

Section mask_targets_facts.
Context (IGNORE_INDEX : Z).

Lemma mask_turns_length turns : ∀ target cur_idx,
  length (mask_turns IGNORE_INDEX target cur_idx turns) = length target.
Proof.
  induction turns as [|[len speaker] turns IH]; intros target cur; simpl;
    [done|].
  rewrite IH. destruct (decide _); [apply slice_assign_length|done].
Qed.

Lemma mask_turns_either turns : ∀ target cur_idx p,
  p < length target →
  mask_turns IGNORE_INDEX target cur_idx turns !! p = Some IGNORE_INDEX ∨
  mask_turns IGNORE_INDEX target cur_idx turns !! p = target !! p.
Proof.
  induction turns as [|[len speaker] turns IH]; intros target cur p Hp;
    cbn [mask_turns]; [by right|].
  destruct (decide (speaker = "human"%string)) as [->|Hs]; [|by apply IH].
  destruct (IH (slice_assign target (cur + 2) (cur + len) IGNORE_INDEX)
              (cur + len) p) as [->| ->];
    [by rewrite slice_assign_length|by left|].
  rewrite slice_assign_lookup.
  destruct (lookup_lt_is_Some_2 target p Hp) as [x ->]. simpl.
  destruct (decide _); [by left|by right].
Qed.

(** The loop from [cur_idx] on: a position is overwritten exactly when it
    is past the first two tokens of a later ["human"] turn. *)
Lemma mask_turns_lookup turns : ∀ target cur_idx p,
  p < length target →
  ((∃ k tokenized_len,
      turns !! k = Some (tokenized_len, "human"%string) ∧
      turn_start cur_idx turns k + 2 ≤ p ∧
      p < turn_start cur_idx turns k + tokenized_len) →
   mask_turns IGNORE_INDEX target cur_idx turns !! p = Some IGNORE_INDEX) ∧
  (¬ (∃ k tokenized_len,
        turns !! k = Some (tokenized_len, "human"%string) ∧
        turn_start cur_idx turns k + 2 ≤ p ∧
        p < turn_start cur_idx turns k + tokenized_len) →
   mask_turns IGNORE_INDEX target cur_idx turns !! p = target !! p).
Proof.
  induction turns as [|[len speaker] turns IH]; intros target cur p Hp.
  { simpl. split; [by intros (k & l & ? & _)|done]. }
  cbn [mask_turns].
  set (target' := if decide (speaker = "human"%string)
                  then slice_assign target (cur + 2) (cur + len) IGNORE_INDEX
                  else target).
  assert (length target' = length target) as Hlen.
  { unfold target'. destruct (decide _); [apply slice_assign_length|done]. }
  assert (p < length target') as Hp' by lia.
  destruct (IH target' (cur + len) p Hp') as [IH1 IH2].
  assert (∀ k, turn_start cur ((len, speaker) :: turns) (S k)
               = turn_start (cur + len) turns k) as Hstart.
  { intros k. unfold turn_start. rewrite fmap_cons. cbn [fst take].
    change (sum_list (len :: take k turns.*1))
      with (len + sum_list (take k turns.*1)). lia. }
  assert (turn_start cur ((len, speaker) :: turns) 0 = cur) as Hstart0.
  { unfold turn_start. rewrite take_0. simpl. lia. }
  assert (target' !! p
          = if decide (speaker = "human"%string ∧ cur + 2 ≤ p < cur + len)
            then Some IGNORE_INDEX else target !! p) as Hnow.
  { unfold target'. destruct (decide (speaker = "human"%string)) as [->|Hs].
    - rewrite slice_assign_lookup.
      destruct (lookup_lt_is_Some_2 target p Hp) as [x ->]. simpl.
      destruct (decide (cur + 2 ≤ p < cur + len)).
      + by rewrite decide_True.
      + rewrite decide_False; [done|tauto].
    - rewrite decide_False; [done|tauto]. }
  split.
  - intros (k & l & Hk & H1 & H2). destruct k as [|k].
    + simpl in Hk. injection Hk as <- Hsp. rewrite Hstart0 in H1, H2.
      rewrite decide_True in Hnow by done.
      destruct (mask_turns_either turns target' (cur + len) p Hp')
        as [->| ->]; done.
    + apply IH1. exists k, l. rewrite Hstart in H1, H2. done.
  - intros Hno. rewrite IH2, Hnow.
    + rewrite decide_False; [done|].
      intros [-> Hin]. apply Hno. exists 0, len. rewrite Hstart0. done.
    + intros (k & l & Hk & H1 & H2). apply Hno.
      exists (S k), l. rewrite Hstart. done.
Qed.
End mask_targets_facts.

(** X22. [_mask_targets] raises on an empty [tokenized_lens]; otherwise
    it keeps the length of [target] and overwrites with [IGNORE_INDEX]
    exactly the header (the first [tokenized_lens[0]] positions) and, of
    every turn whose speaker is ["human"], all but its first two positions;
    every other label is left as it was.  Turns are the pairs of
    [zip(tokenized_lens[1:], speakers)], laid out one after the other from
    the end of the header. *)
Theorem mask_targets_masks_header_and_human_turns (IGNORE_INDEX : Z)
    (target : list Z) (tokenized_lens : list nat) (speakers : list string) :
  match tokenized_lens with
  | [] => _mask_targets IGNORE_INDEX target tokenized_lens speakers = None
  | header_len :: lens =>
      ∃ masked,
        _mask_targets IGNORE_INDEX target tokenized_lens speakers = Some masked ∧
        length masked = length target ∧
        ∀ p, p < length target →
          (masked_target header_len (zip lens speakers) p →
           masked !! p = Some IGNORE_INDEX) ∧
          (¬ masked_target header_len (zip lens speakers) p →
           masked !! p = target !! p)
  end.
Proof.
  destruct tokenized_lens as [|header_len lens]; [done|].
  eexists. split; [done|]. split.
  { by rewrite mask_turns_length, slice_assign_length. }
  intros p Hp.
  set (target0 := slice_assign target 0 header_len IGNORE_INDEX).
  assert (p < length target0) as Hp0
    by (unfold target0; by rewrite slice_assign_length).
  destruct (mask_turns_lookup IGNORE_INDEX (zip lens speakers) target0
              header_len p Hp0) as [H1 H2].
  assert (target0 !! p
          = if decide (p < header_len) then Some IGNORE_INDEX else target !! p)
    as H0.
  { unfold target0. rewrite slice_assign_lookup.
    destruct (lookup_lt_is_Some_2 target p Hp) as [x ->]. simpl.
    destruct (decide (p < header_len)).
    - rewrite decide_True; [done|lia].
    - rewrite decide_False; [done|lia]. }
  unfold masked_target. split.
  - intros [Hh|Hturn]; [|by apply H1].
    rewrite decide_True in H0 by done.
    destruct (mask_turns_either IGNORE_INDEX (zip lens speakers) target0
                header_len p Hp0) as [->| ->]; done.
  - intros Hno. rewrite H2 by tauto. rewrite H0.
    rewrite decide_False; [done|tauto].
Qed.

(** ** Sequences without a common token *)

Lemma sorted_set_sorted_id ids : StronglySorted lt ids → sorted_set ids = ids.
Proof.
  induction 1 as [|x l Hs IH Hx]; [done|].
  cbn [sorted_set foldr]. fold (sorted_set l). rewrite IH.
  destruct l as [|y l']; [done|].
  apply Forall_cons in Hx as [Hxy _]. simpl. by rewrite decide_True.
Qed.

Lemma seq_sorted lo n : StronglySorted lt (seq lo n).
Proof.
  revert lo. induction n as [|n IH]; intros lo; simpl; [constructor|].
  constructor; [apply IH|]. apply Forall_forall. intros x Hx%elem_of_seq. lia.
Qed.

Lemma get_matching_blocks_disjoint (a b : list Z) :
  (∀ x, x ∈ a → x ∉ b) →
  get_matching_blocks a b = [mkMatch (length a) (length b) 0].
Proof.
  intros Hdis.
  destruct (get_matching_blocks_spec a b) as (blocks & Heq & _ & Hw).
  pose proof (get_matching_blocks_true a b) as Ht. rewrite Heq in Ht |- *.
  destruct blocks as [|m blocks]; [done|]. exfalso.
  apply Forall_cons in Hw as [[Hpos _] _].
  apply Forall_cons in Ht as [Hm _].
  destruct (Hm 0 Hpos) as (x & Ha & Hb).
  apply (Hdis x); by eapply list_elem_of_lookup_2.
Qed.

(** X23. When no token of [a_seq] occurs in [b_seq], the matcher finds
    no block and [get_diff_ids] marks every position of both sequences;
    unless one of the two is empty, in which case it marks nothing. *)
Theorem disjoint_sequences_are_all_modified (a b : list Z)
    (min_match_size : nat) :
  (∀ x, x ∈ a → x ∉ b) →
  get_diff_ids a b min_match_size
  = Some (if decide (a = [] ∨ b = []) then ([], [])
          else (seq 0 (length a), seq 0 (length b))).
Proof.
  intros Hdis.
  assert (get_match_info a b min_match_size
          = ([(length a, length a)], [(length b, length b)])) as Hinfo.
  { unfold get_match_info, retained_blocks.
    rewrite (get_matching_blocks_disjoint a b Hdis).
    cbn [removelast List.last]. rewrite filter_nil.
    unfold a_match, b_match. simpl. by rewrite !Nat.add_0_r. }
  unfold get_diff_ids, generate_modification_mapping. rewrite Hinfo.
  cbn [complete_modification_spans complete_loop fst snd mbind option_bind].
  unfold generate_modification_mapping_impl.
  rewrite decide_True by done. cbn [zip zip_with mapping_loop].
  rewrite (bool_decide_eq_false_2 (0 mod 2 = 1)) by (cbn; lia).
  rewrite (bool_decide_eq_true_2 (1 mod 2 = 1)) by done.
  unfold span_not_empty. cbn [fst snd].
  destruct (decide (a = [] ∨ b = [])) as [[->| ->]|Hne].
  - cbn [length]. rewrite (bool_decide_eq_true_2 (0 = 0)) by done. done.
  - cbn [length]. rewrite (bool_decide_eq_true_2 (0 = 0)) by done.
    rewrite andb_false_r. done.
  - rewrite !bool_decide_eq_false_2.
    2:{ destruct b; [tauto|simpl; lia]. }
    2:{ destruct a; [tauto|simpl; lia]. }
    cbn [negb andb dict_set mbind option_bind].
    unfold spans2ids. cbn [fmap list_fmap map concat fst snd].
    rewrite ?app_nil_r. unfold range. rewrite !Nat.sub_0_r.
    by rewrite !sorted_set_sorted_id by apply seq_sorted.
Qed.


Lemma disjoint_sequences_are_all_modified_witness :
  (∀ x, x ∈ [1; 2]%Z → x ∉ [3]%Z) ∧
  get_diff_ids [1; 2]%Z [3]%Z 3 = Some ([0; 1], [0]).
Proof.
  assert (∀ x, x ∈ [1; 2]%Z → x ∉ [3]%Z) as Hdis.
  { intros x Hx Hx'. apply list_elem_of_singleton in Hx'. subst x.
    apply elem_of_cons in Hx as [?|Hx]; [done|].
    apply list_elem_of_singleton in Hx. done. }
  split; [exact Hdis|].
  exact (disjoint_sequences_are_all_modified [1; 2]%Z [3]%Z 3 Hdis).
Defined.

(** ** A pair of identical sequences in the collator *)

Lemma get_diff_ids_self (a : list Z) (mms : nat) :
  get_diff_ids a a mms
  = Some (if decide (0 < length a < mms)
          then (seq 0 (length a), seq 0 (length a)) else ([], [])).
Proof.
  unfold get_diff_ids, generate_modification_mapping.
  rewrite get_match_info_self. cbv zeta.
  destruct (decide (length a ≠ 0 ∧ mms ≤ length a)) as [[Hn Hm]|Hno].
  - rewrite decide_False by lia.
    cbn [app complete_modification_spans complete_loop fst snd mbind
         option_bind].
    unfold generate_modification_mapping_impl.
    rewrite decide_True by done. cbn [zip zip_with mapping_loop].
    rewrite (bool_decide_eq_false_2 (0 mod 2 = 1)) by (cbn; lia).
    rewrite (bool_decide_eq_true_2 (1 mod 2 = 1)) by done.
    rewrite (bool_decide_eq_false_2 (2 mod 2 = 1)) by (cbn; lia).
    rewrite (bool_decide_eq_true_2 (3 mod 2 = 1)) by done.
    unfold span_not_empty. cbn [fst snd].
    rewrite !bool_decide_eq_true_2 by done. done.
  - cbn [app complete_modification_spans complete_loop fst snd mbind
         option_bind].
    unfold generate_modification_mapping_impl.
    rewrite decide_True by done. cbn [zip zip_with mapping_loop].
    rewrite (bool_decide_eq_false_2 (0 mod 2 = 1)) by (cbn; lia).
    rewrite (bool_decide_eq_true_2 (1 mod 2 = 1)) by done.
    unfold span_not_empty. cbn [fst snd].
    destruct (decide (length a = 0)) as [E|E].
    + rewrite E, decide_False by lia.
      rewrite (bool_decide_eq_true_2 (0 = 0)) by done. done.
    + rewrite decide_True by lia.
      rewrite !bool_decide_eq_false_2 by lia.
      cbn [negb andb dict_set mbind option_bind].
      unfold spans2ids. cbn [fmap list_fmap map concat fst snd].
      rewrite ?app_nil_r. unfold range. rewrite !Nat.sub_0_r.
      by rewrite !sorted_set_sorted_id by apply seq_sorted.
Qed.

Lemma index_assign_all {F} (v : F) : ∀ (row : list F),
  index_assign row (seq 0 (length row)) v = Some (replicate (length row) v).
Proof.
  intros row.
  destruct (index_assign_spec (seq 0 (length row)) v row) as (row' & -> & Hl & Hp).
  { apply Forall_forall. intros p Hp%elem_of_seq. lia. }
  f_equal. apply list_eq. intros p.
  destruct (decide (p < length row)) as [Hlt|Hge].
  - rewrite (Hp p Hlt), decide_True by (apply elem_of_seq; lia).
    by rewrite lookup_replicate_2.
  - rewrite lookup_ge_None_2 by lia.
    symmetry. apply lookup_replicate_None. lia.
Qed.

Lemma Forall_eq_replicate {A} (x : A) (l : list A) :
  Forall (fun y => y = x) l → l = replicate (length l) x.
Proof. induction 1 as [|y l -> _ IH]; simpl; [done|]. by rewrite <- IH. Qed.

(** X25. In a returned batch, a pair whose padded chosen and rejected ids
    are the same row of [n + 1 > 0] tokens gets weights that are all
    [1.0] when [n >= 3], the least length the collator matches on, or
    [n = 0]; and that are all [mod_token_weight] when [n] is 1 or 2,
    because the only match is then shorter than [min_match_size = 3] and
    is discarded. *)
Theorem identical_pair_has_uniform_weights {F : Type} (one zero : F)
    (is_nan : F → bool) (pad_token_id : Z) (mod_token_weight : F)
    (instances : list (InstanceDict F * InstanceDict F)) (tw : TokenWeights)
    (idx : nat) (w : list Z) :
  collate_token_weights one zero is_nan pad_token_id mod_token_weight
    instances = Some tw →
  pad_sequence (map input_ids instances.*2) pad_token_id !! idx = Some w →
  pad_sequence (map input_ids instances.*1) pad_token_id !! idx = Some w →
  0 < length w →
  let n := length w - 1 in
  let weights := replicate n (if decide (0 < n < 3) then mod_token_weight
                              else one) in
  win_token_weight tw !! idx = Some weights ∧
  rej_token_weight tw !! idx = Some weights.
Proof.
  intros Htw Hw Hr Hpos n weights.
  destruct (collate_token_weights_inv _ _ _ _ _ _ _ Htw)
    as (win_ones & rej_ones & ws & Lw & Lr & Ow & Or & Hloop & Ew & Er & _).
  destruct (collate_token_weights_guards _ _ _ _ _ _ _ Htw)
    as (_ & Hww & Hrw & _ & _).
  assert (idx < length instances) as Hidx.
  { apply lookup_lt_Some in Hw. unfold pad_sequence in Hw.
    by rewrite length_map, length_map, length_fmap in Hw. }
  destruct (lookup_lt_is_Some_2 win_ones idx) as [ww0 Hww0]; [lia|].
  destruct (lookup_lt_is_Some_2 rej_ones idx) as [rw0 Hrw0]; [lia|].
  destruct (weight_loop_lookup _ _ _ idx w w ww0 rw0 Hloop)
    as (r_mod & w_mod & ww & rw & Hd & Hws & Hiw & Hir).
  { apply lookup_zip_with_Some. exists (w, w), (ww0, rw0).
    split_and!; [done| |]; apply lookup_zip_with_Some; eauto. }
  assert (win_token_weight tw !! idx = Some ww) as Hwin
    by (by rewrite Ew, list_lookup_fmap, Hws).
  assert (rej_token_weight tw !! idx = Some rw) as Hrej
    by (by rewrite Er, list_lookup_fmap, Hws).
  assert (length w = max_len (map input_ids instances.*2)) as Lw2
    by (by eapply pad_sequence_row_length, list_elem_of_lookup_2).
  assert (length w = max_len (map input_ids instances.*1)) as Lw1
    by (by eapply pad_sequence_row_length, list_elem_of_lookup_2).
  assert (length ww = n) as Hlw.
  { rewrite Forall_forall in Hww.
    rewrite (Hww ww (list_elem_of_lookup_2 _ _ _ Hwin)), <- Lw2.
    unfold sliced_width. rewrite decide_False by lia. done. }
  assert (length rw = n) as Hlr.
  { rewrite Forall_forall in Hrw.
    rewrite (Hrw rw (list_elem_of_lookup_2 _ _ _ Hrej)), <- Lw1.
    unfold sliced_width. rewrite decide_False by lia. done. }
  assert (length ww0 = n) as Hl0
    by (by rewrite <- (index_assign_length _ _ _ _ Hiw)).
  assert (length rw0 = n) as Hl1
    by (by rewrite <- (index_assign_length _ _ _ _ Hir)).
  assert (ww0 = replicate n one) as ->.
  { rewrite <- Hl0. apply Forall_eq_replicate.
    rewrite Forall_forall in Ow. by eapply Ow, list_elem_of_lookup_2. }
  assert (rw0 = replicate n one) as ->.
  { rewrite <- Hl1. apply Forall_eq_replicate.
    rewrite Forall_forall in Or. by eapply Or, list_elem_of_lookup_2. }
  rewrite get_diff_ids_self, length_drop in Hd. fold n in Hd.
  rewrite Hwin, Hrej. unfold weights.
  destruct (decide (0 < n < 3)) as [Hn|Hn]; injection Hd as <- <-.
  - pose proof (index_assign_all mod_token_weight (replicate n one)) as Hall.
    rewrite length_replicate in Hall. rewrite Hall in Hiw, Hir.
    by injection Hiw as <-; injection Hir as <-.
  - simpl in Hiw, Hir. by injection Hiw as <-; injection Hir as <-.
Qed.

Lemma identical_pair_has_uniform_weights_witness :
  let w := [1; 10; 11; 12; 2]%Z in
  let tw := mkTokenWeights [[1; 1; 1; 1]]%float [[1; 1; 1; 1]]%float
              [[1; 1; 1; 1]; [1; 1; 1; 1]]%float in
  collate_token_weights 1%float 0%float PrimFloat.is_nan 0%Z 3%float
    example_identical = Some tw ∧
  pad_sequence (map input_ids example_identical.*2) 0%Z !! 0 = Some w ∧
  pad_sequence (map input_ids example_identical.*1) 0%Z !! 0 = Some w ∧
  0 < length w ∧
  win_token_weight tw !! 0 = Some (replicate 4 1%float) ∧
  rej_token_weight tw !! 0 = Some (replicate 4 1%float).
Proof.
  intros w tw.
  assert (collate_token_weights 1%float 0%float PrimFloat.is_nan 0%Z 3%float
            example_identical = Some tw) as Htw by (vm_compute; reflexivity).
  assert (0 < length w) as Hpos by (simpl; lia).
  split; [exact Htw|]. split; [reflexivity|]. split; [reflexivity|].
  split; [exact Hpos|].
  exact (identical_pair_has_uniform_weights 1%float 0%float PrimFloat.is_nan 0%Z
           3%float example_identical tw 0 w Htw eq_refl eq_refl Hpos).
Defined.

(** ** The layout of the gathered batch *)

Lemma concat_blocks_length {A} (f : nat → list A) (B : nat) (rs : list nat) :
  Forall (fun r => length (f r) = B) rs →
  length (concat (map f rs)) = length rs * B.
Proof.
  induction 1 as [|r rs Hr _ IH]; [done|].
  cbn [map concat]. rewrite length_app, IH, Hr. simpl. lia.
Qed.



(** ** The sampling weights *)

Lemma exp_neg_half_le_1 (q : R) :
  (0 <= q)%R → (exp (- (1 / 2) * q) <= 1)%R ∧ (exp (- (1 / 2) * q) = 1%R → q = 0%R).
Proof.
  intros [Hlt| <-].
  - pose proof (exp_increasing (- (1 / 2) * q) 0) as Hinc.
    rewrite exp_0 in Hinc. split; lra.
  - replace (- (1 / 2) * 0)%R with 0%R by lra. rewrite exp_0. split; [lra|done].
Qed.


(** ** Right padding and [get_batch_logps] *)

Lemma drop_1_app_pads (lab : list Z) (k : nat) :
  ∃ k', drop 1 (lab ++ replicate k (-100)%Z)
        = drop 1 lab ++ replicate k' (-100)%Z.
Proof.
  destruct lab as [|l lab]; [|by exists k].
  destruct k as [|k]; [by exists 0|by exists k].
Qed.

Lemma loss_mask_of_pads (lab : list Z) (k : nat) :
  ∃ k', loss_mask_of (lab ++ replicate k (-100)%Z)
        = loss_mask_of lab ++ replicate k' false.
Proof.
  unfold loss_mask_of. destruct (drop_1_app_pads lab k) as [k' ->].
  exists k'. rewrite map_app. f_equal.
  induction k' as [|k' IH]; [done|]. simpl. by rewrite IH.
Qed.

Lemma per_token_logps_of_prefix {F} `{ScalarLog F} (lg pad_lg : list (list F))
    (lab : list Z) (k : nat) row row' :
  length lg = length lab →
  per_token_logps_of lg lab = Some row →
  per_token_logps_of (lg ++ pad_lg) (lab ++ replicate k (-100)%Z) = Some row' →
  take (length row) row' = row.
Proof.
  unfold per_token_logps_of. intros Hlen Hr Hr'.
  pose proof (length_mapM _ _ _ Hr) as Hl.
  rewrite length_zip_with, length_take, length_map, length_drop in Hl.
  apply mapM_Some_1 in Hr, Hr'.
  destruct (drop_1_app_pads lab k) as [k' Hd]. rewrite Hd in Hr'.
  apply list_eq. intros t.
  destruct (decide (t < length row)) as [Ht|Ht].
  2:{ rewrite lookup_take_ge by lia. symmetry. apply lookup_ge_None. lia. }
  rewrite lookup_take_lt by done.
  destruct (lookup_lt_is_Some_2 row t Ht) as [y Hy]. rewrite Hy.
  destruct (Forall2_lookup_r _ _ _ _ _ Hr Hy) as ([xs l] & Hp & Hg).
  apply lookup_zip_with_Some in Hp as (xs' & l' & [= <- <-] & Hxs & Hlab).
  rewrite lookup_take_lt in Hxs by lia.
  destruct (Forall2_lookup_l _ _ _ t (xs, l) Hr') as (y' & Hy' & Hg').
  { apply lookup_zip_with_Some. exists xs, l. split_and!; [done| |].
    - rewrite lookup_take_lt by (rewrite length_app; lia).
      by apply lookup_app_l_Some.
    - rewrite map_app. by apply lookup_app_l_Some. }
  rewrite Hy'. simpl in Hg, Hg'. congruence.
Qed.

Lemma filter_zip_false {A} (l : list A) k :
  filter (fun p : A * bool => p.2 = true) (zip l (replicate k false)) = [].
Proof.
  revert k. induction l as [|x l IH]; intros [|k]; try done.
  cbn [replicate zip zip_with]. rewrite filter_cons, decide_False by done.
  apply IH.
Qed.

Lemma masked_sum_pads (row' : list R) (mask : list bool) (k : nat) :
  length mask ≤ length row' →
  masked_sum row' (mask ++ replicate k false)
  = masked_sum (take (length mask) row') mask.
Proof.
  intros Hlen. rewrite !masked_sum_R.
  rewrite <- (take_drop (length mask) row') at 1.
  rewrite (zip_with_app pair (take (length mask) row')
             (drop (length mask) row') mask (replicate k false))
    by (rewrite length_take; lia).
  by rewrite filter_app, filter_zip_false, app_nil_r.
Qed.

Lemma mask_count_pads {F} `{Scalar F} (mask : list bool) (k : nat) :
  mask_count (F := F) (mask ++ replicate k false) = mask_count mask.
Proof.
  unfold mask_count. rewrite filter_app.
  assert (filter (fun b : bool => b = true) (replicate k false) = []) as ->.
  { induction k as [|k IH]; [done|]. simpl.
    by rewrite filter_cons, decide_False. }
  by rewrite app_nil_r.
Qed.

(** X27. Over the reals, right-padding a row does not change what
    [get_batch_logps] returns for it: with the labels extended by [-100]
    and the logits by as many positions, whatever their values,
    [log_prob] and [average_log_prob] of the row stay the same. *)
Theorem right_padding_keeps_log_prob (lg pad_lg : list (list R))
    (lab : list Z) (ptl ptl' : list (list R)) (lp lp' avg avg' : list R) :
  get_batch_logps [lg] [lab] = Some (ptl, lp, avg) →
  get_batch_logps [lg ++ pad_lg]
    [lab ++ replicate (length pad_lg) (-100)%Z] = Some (ptl', lp', avg') →
  lp' = lp ∧ avg' = avg.
Proof.
  intros (Hsh & _ & Hnl & Hna & Hrows)%get_batch_logps_inv
         (Hsh' & _ & Hnl' & Hna' & Hrows')%get_batch_logps_inv.
  destruct (Hrows 0 lab eq_refl) as (lg0 & row & [= <-] & Hlen & _ & Hp & Hs & Ha).
  destruct (Hrows' 0 _ eq_refl) as (lg1 & row' & [= <-] & Hlen' & _ & Hp' & Hs' & Ha').
  pose proof (per_token_logps_of_prefix _ _ _ _ _ _ Hlen Hp Hp') as Hpre.
  destruct (per_token_logps_of_R _ _ _ Hp Hlen) as [Hl _].
  destruct (per_token_logps_of_R _ _ _ Hp' Hlen') as [Hl' _].
  destruct (loss_mask_of_pads lab (length pad_lg)) as [k' Hmask].
  assert (length (loss_mask_of lab) = length row) as Hlm
    by (unfold loss_mask_of; rewrite length_map, length_drop; lia).
  assert (masked_sum row' (loss_mask_of (lab ++ replicate (length pad_lg) (-100)%Z))
          = masked_sum row (loss_mask_of lab)) as Hsum.
  { rewrite Hmask, masked_sum_pads; [by rewrite Hlm, Hpre|].
    rewrite Hlm, Hl, Hl', length_app, length_replicate. lia. }
  rewrite Hsum in Hs', Ha'. rewrite Hmask, mask_count_pads in Ha'.
  simpl in Hnl, Hna, Hnl', Hna'.
  destruct lp as [|s [|? ?]]; try done. destruct lp' as [|s' [|? ?]]; try done.
  destruct avg as [|a [|? ?]]; try done. destruct avg' as [|a' [|? ?]]; try done.
  simpl in *. split; congruence.
Qed.

Lemma right_padding_keeps_log_prob_witness :
  ∃ ptl ptl' lp lp' avg avg',
    get_batch_logps [[[0; 0]; [0; 0]]]%R [[5; 1]]%Z = Some (ptl, lp, avg) ∧
    get_batch_logps [[[0; 0]; [0; 0]] ++ [[0; 0]]]%R
      [[5; 1]%Z ++ replicate (length [[0; 0]]%R) (-100)%Z]
      = Some (ptl', lp', avg') ∧
    lp' = lp ∧ avg' = avg.
Proof.
  destruct (get_batch_logps_returns [[[0; 0]; [0; 0]]]%R [[5; 1]]%Z)
    as [[[ptl lp] avg] Hout];
    [reflexivity|repeat constructor; simpl; lia|].
  destruct (get_batch_logps_returns [[[0; 0]; [0; 0]] ++ [[0; 0]]]%R
              [[5; 1]%Z ++ replicate (length [[0; 0]]%R) (-100)%Z])
    as [[[ptl' lp'] avg'] Hout'];
    [reflexivity|repeat constructor; simpl; lia|].
  exists ptl, ptl', lp, lp', avg, avg'.
  split; [exact Hout|]. split; [exact Hout'|].
  exact (right_padding_keeps_log_prob _ _ _ ptl ptl' lp lp' avg avg' Hout Hout').
Defined.
